(** * Stage.js: scene orchestration of the duck-hunt stage

    A shallow embedding of [src/modules/Stage.js].  JavaScript numbers are
    IEEE-754 binary64 values, so coordinates and scale factors are Rocq's
    primitive floats and every arithmetic operation below is the one the
    engine performs.  Objects that the stage shares by reference (ducks,
    deferreds) live in stores indexed by allocation order; the stage holds
    references into them, exactly as the roster [this.ducks] and the display
    list [this.children] both point at the same duck objects. *)

From Stdlib Require Import PrimFloat.
From stdpp Require Import base option list.

#[local] Open Scope float_scope.

(** ** Geometry *)

(** [PIXI.Point]: a mutable pair of numbers. *)
Record Point := mkPoint { px : float; py : float }.

Definition MAX_X : float := 800.
Definition MAX_Y : float := 600.

Module DUCK_POINTS.
Definition ORIGIN : Point := mkPoint (MAX_X / 2) MAX_Y.
End DUCK_POINTS.

Module DOG_POINTS.
Definition DOWN : Point := mkPoint (MAX_X / 2) MAX_Y.
Definition UP : Point := mkPoint (MAX_X / 2) (MAX_Y - 230).
Definition SNIFF_START : Point := mkPoint 0 (MAX_Y - 130).
Definition SNIFF_END : Point := mkPoint (MAX_X / 2) (MAX_Y - 130).
End DOG_POINTS.

Module HUD_LOCATIONS.
Definition SCORE : Point := mkPoint (MAX_X - 105) 20.
Definition WAVE_STATUS : Point := mkPoint 60 (MAX_Y * 0x1.f0a3d70a3d70ap-1 - 10) (* MAX_Y * 0.97 - 10 *).
Definition GAME_STATUS : Point := mkPoint (MAX_X / 2) (MAX_Y * 0x1.ccccccccccccdp-2) (* MAX_Y * 0.45 *).
Definition BULLET_STATUS : Point := mkPoint 10 10.
End HUD_LOCATIONS.

Definition FLASH_MS : float := 60.

(** The radius literal of [shotsFired] ([... < 60]). *)
Definition HIT_RADIUS : float := 60.

(** The exit point of [flyAway]: [new PIXI.Point(MAX_X / 2, -500)]. *)
Definition FLY_AWAY_POINT : Point := mkPoint (MAX_X / 2) (-500).

(** Modelled from the spec: [Utils.pointDistance] of [libs/utils], which is
    not among the sources; the spec calls it the Euclidean distance between
    an input point and a target's position. *)
Definition pointDistance (a b : Point) : float :=
  sqrt ((px a - px b) * (px a - px b) + (py a - py b) * (py a - py b)).

#[local] Close Scope float_scope.

(** [window.innerWidth] and [window.innerHeight], read by [scaleToWindow]. *)
Record Window := mkWindow { innerWidth : float; innerHeight : float }.

(** ** Callbacks

    The closures that [Stage.js] hands to its collaborators.  A deferred
    is named by its index in the store of deferreds. *)
Inductive Callback :=
  | ResolveDeferred (p : nat)   (* duckAnimation.resolve.bind(duckAnimation) *)
  | FindComplete (p : nat)      (* findOpts.onComplete of preLevelAnimation *)
  | RetrieveTrigger.            (* function() { _this.dog.retrieve(); } *)

(** ** Duck *)

Inductive Color := red | black.

(** One entry of a duck's timeline. *)
Inductive Step :=
  | Flight (speed : float)
  | Death
  | Fly (point : Point) (onComplete : Callback)
  | Deferred (cb : Callback).

(** The method calls a duck has received from the stage, oldest first. *)
Inductive DuckCall :=
  | CallRandomFlight (speed : float)
  | CallShot
  | CallTimelineAdd (cb : Callback)
  | CallStopAndClearTimeline
  | CallFlyTo (point : Point) (onComplete : Callback).

(** Modelled from the spec: the [Duck] class of [modules/Duck.js], which is
    not among the sources.  The spec gives a target a world-space position,
    an [alive] flag, an ordered queue of deferred actions that fire in order
    as its current animation completes (the timeline), [isActive()] true
    while any animation is still running, and the commands [randomFlight],
    [shot], [flyTo] and [stopAndClearTimeline].  The head of [timeline] is
    the step in progress.  [calls] records the commands received and is not
    read by any operation. *)
Record Duck := mkDuck {
  colorProfile : Color;
  position : Point;
  alive : bool;
  timeline : list Step;
  calls : list DuckCall
}.

Module Duck.
(** [new Duck({...})]: a target is created alive and idle. *)
Definition new (color : Color) : Duck :=
  mkDuck color (mkPoint 0 0) true [] [].

(** [duck.position.set(x, y)] *)
Definition setPosition (x y : float) (d : Duck) : Duck :=
  mkDuck (colorProfile d) (mkPoint x y) (alive d) (timeline d) (calls d).

(** [randomFlight({speed})]: starts the randomized flight pattern. *)
Definition randomFlight (speed : float) (d : Duck) : Duck :=
  mkDuck (colorProfile d) (position d) (alive d)
         (timeline d ++ [Flight speed]) (calls d ++ [CallRandomFlight speed]).

(** [shot()]: sets [alive = false]; the flight in progress is superseded
    by the death animation. *)
Definition shot (d : Duck) : Duck :=
  mkDuck (colorProfile d) (position d) false [Death] (calls d ++ [CallShot]).

(** [timeline.add(cb)]: appends a deferred action to the duck's own queue. *)
Definition timelineAdd (cb : Callback) (d : Duck) : Duck :=
  mkDuck (colorProfile d) (position d) (alive d)
         (timeline d ++ [Deferred cb]) (calls d ++ [CallTimelineAdd cb]).

(** [stopAndClearTimeline()]: cancels everything pending. *)
Definition stopAndClearTimeline (d : Duck) : Duck :=
  mkDuck (colorProfile d) (position d) (alive d) [] (calls d ++ [CallStopAndClearTimeline]).

(** [flyTo({point, onComplete})] *)
Definition flyTo (point : Point) (onComplete : Callback) (d : Duck) : Duck :=
  mkDuck (colorProfile d) (position d) (alive d)
         (timeline d ++ [Fly point onComplete]) (calls d ++ [CallFlyTo point onComplete]).

(** [isActive()]: true while any animation is still running. *)
Definition isActive (d : Duck) : bool :=
  match timeline d with [] => false | _ :: _ => true end.
End Duck.

(** ** Dog *)

Inductive DogStep :=
  | Sniff (startPoint endPoint : Point)
  | Find (onComplete : Callback)
  | Retrieve
  | Laugh.

(** Modelled from the spec: the [Dog] class of [modules/Dog.js], which is not
    among the sources.  The spec gives the helper character the chainable
    commands [sniff(start,end)], [find(onComplete)], [retrieve()], [laugh()]
    and the query [isActive()]; its scripted behaviours run one after the
    other.  The head of [dogTimeline] is the behaviour in progress. *)
Record Dog := mkDog {
  downPoint : Point;
  upPoint : Point;
  dogTimeline : list DogStep
}.

Module Dog.
Definition new (down up : Point) : Dog := mkDog down up [].

Definition enqueue (s : DogStep) (g : Dog) : Dog :=
  mkDog (downPoint g) (upPoint g) (dogTimeline g ++ [s]).

Definition sniff (startPoint endPoint : Point) : Dog -> Dog :=
  enqueue (Sniff startPoint endPoint).
Definition find (onComplete : Callback) : Dog -> Dog := enqueue (Find onComplete).
Definition retrieve : Dog -> Dog := enqueue Retrieve.
Definition laugh : Dog -> Dog := enqueue Laugh.

Definition isActive (g : Dog) : bool :=
  match dogTimeline g with [] => false | _ :: _ => true end.
End Dog.

(** ** The display list ([PIXI.Container]) *)

(** The display objects that are ever children of the stage.  A duck sprite
    is the duck object itself, named by its reference. *)
Inductive Child :=
  | Tree
  | Background
  | DogSprite
  | FlashScreen
  | HudLayer
  | DuckSprite (r : nat).

#[global] Instance Child_eq_dec : EqDecision Child.
Proof. solve_decision. Defined.

Module Container.
(** Removes the first occurrence (the array's [indexOf] position). *)
Fixpoint removeFirst (child : Child) (children : list Child) : list Child :=
  match children with
  | [] => []
  | c :: cs => if decide (c = child) then cs else c :: removeFirst child cs
  end.

(** [removeChild(child)]: does nothing when [child] is not a child. *)
Definition removeChild (child : Child) (children : list Child) : list Child :=
  removeFirst child children.

(** [children.splice(index, 0, child)] *)
Definition splice (index : nat) (child : Child) (children : list Child) : list Child :=
  take index children ++ child :: drop index children.

(** [addChild(child)]: detaches [child] from its parent, then appends it. *)
Definition addChild (child : Child) (children : list Child) : list Child :=
  removeFirst child children ++ [child].

(** [addChildAt(child, index)]: throws when [index] is out of bounds. *)
Definition addChildAt (child : Child) (index : nat) (children : list Child)
  : option (list Child) :=
  if bool_decide (index ≤ length children)
  then Some (splice index child (removeFirst child children))
  else None.

(** [setChildIndex(child, index)]: throws when [index] is out of bounds or
    [child] is not a child of the container. *)
Definition setChildIndex (child : Child) (index : nat) (children : list Child)
  : option (list Child) :=
  if bool_decide (index < length children) then
    if bool_decide (child ∈ children)
    then Some (splice index child (removeFirst child children))
    else None
  else None.
End Container.

(** ** The scene *)

(** [BPromise.all(awaited).then(cleanUpDucks)]: the continuation runs once
    every awaited deferred is resolved, and then resolves [result], the
    promise the chain evaluates to. *)
Record Join := mkJoin { awaited : list nat; result : nat; settled : bool }.

(** The fields of the [Stage] object, followed by the objects it shares with
    its collaborators: the duck objects ([heap], a reference is an index),
    the deferreds (for each one, how often its [resolve] has been called),
    the promise chains still waiting, and the pending [_delay] timers (each
    one hides the flash screen when it fires; the entry is its delay).

    Not represented, because no operation reads them: [spritesheet],
    [interactive], the dog's visibility and the contents of the HUD. *)
Record Scene := mkScene {
  ducks : list nat;
  dog : Dog;
  flashVisible : bool;
  scale : Point;
  children : list Child;
  heap : list Duck;
  deferreds : list nat;
  joins : list Join;
  timers : list float
}.

Definition with_ducks (v : list nat) (s : Scene) : Scene :=
  mkScene v (dog s) (flashVisible s) (scale s) (children s) (heap s) (deferreds s) (joins s) (timers s).
Definition with_dog (v : Dog) (s : Scene) : Scene :=
  mkScene (ducks s) v (flashVisible s) (scale s) (children s) (heap s) (deferreds s) (joins s) (timers s).
Definition with_flashVisible (v : bool) (s : Scene) : Scene :=
  mkScene (ducks s) (dog s) v (scale s) (children s) (heap s) (deferreds s) (joins s) (timers s).
Definition with_scale (v : Point) (s : Scene) : Scene :=
  mkScene (ducks s) (dog s) (flashVisible s) v (children s) (heap s) (deferreds s) (joins s) (timers s).
Definition with_children (v : list Child) (s : Scene) : Scene :=
  mkScene (ducks s) (dog s) (flashVisible s) (scale s) v (heap s) (deferreds s) (joins s) (timers s).
Definition with_heap (v : list Duck) (s : Scene) : Scene :=
  mkScene (ducks s) (dog s) (flashVisible s) (scale s) (children s) v (deferreds s) (joins s) (timers s).
Definition with_deferreds (v : list nat) (s : Scene) : Scene :=
  mkScene (ducks s) (dog s) (flashVisible s) (scale s) (children s) (heap s) v (joins s) (timers s).
Definition with_joins (v : list Join) (s : Scene) : Scene :=
  mkScene (ducks s) (dog s) (flashVisible s) (scale s) (children s) (heap s) (deferreds s) v (timers s).
Definition with_timers (v : list float) (s : Scene) : Scene :=
  mkScene (ducks s) (dog s) (flashVisible s) (scale s) (children s) (heap s) (deferreds s) (joins s) v.

(** [deferred.resolve()] *)
Definition resolve (p : nat) (s : Scene) : Scene :=
  with_deferreds (alter S p (deferreds s)) s.

Definition resolveCalls (s : Scene) (p : nat) : nat := default 0 (deferreds s !! p).

Definition isResolved (s : Scene) (p : nat) : bool :=
  match resolveCalls s p with 0 => false | S _ => true end.

(** ** Operations of [Stage] *)

(** [scaleToWindow()] *)
Definition scaleToWindow (window : Window) (s : Scene) : Scene :=
  with_scale (mkPoint (innerWidth window / MAX_X) (innerHeight window / MAX_Y))%float s.

(** [_setStage()] *)
Definition _setStage (s : Scene) : Scene :=
  let cs := Container.addChild Tree (children s) in
  let cs := Container.addChild Background cs in
  let cs := Container.addChild DogSprite cs in
  let cs := Container.addChild FlashScreen cs in
  let cs := Container.addChild HudLayer cs in
  with_children cs s.

(** [new Stage(opts)], in a page whose window is [window] and whose promise
    library has created no deferred yet.  A scene is the state of one stage:
    [FLASH_SCREEN] is a single object of the module, which a second
    [new Stage] would take from the children of the first, and scenes of
    several stages are not represented. *)
Definition constructor (window : Window) : Scene :=
  let s := mkScene [] (Dog.new DOG_POINTS.DOWN DOG_POINTS.UP) false
                   (mkPoint 1 1) [] [] [] [] [] in
  scaleToWindow window (_setStage s).

Definition scoreBoxLocation : Point := HUD_LOCATIONS.SCORE.
Definition waveStatusBoxLocation : Point := HUD_LOCATIONS.WAVE_STATUS.
Definition gameStatusBoxLocation : Point := HUD_LOCATIONS.GAME_STATUS.
Definition bulletStatusBoxLocation : Point := HUD_LOCATIONS.BULLET_STATUS.

(** The loop of [cleanUpDucks] over the roster. *)
Fixpoint removeDucks (rs : list nat) (cs : list Child) : list Child :=
  match rs with
  | [] => cs
  | r :: rs' => removeDucks rs' (Container.removeChild (DuckSprite r) cs)
  end.

(** [cleanUpDucks()] *)
Definition cleanUpDucks (s : Scene) : Scene :=
  with_ducks [] (with_children (removeDucks (ducks s) (children s)) s).

(** [preLevelAnimation()]: the scene after the call and the deferred whose
    promise is returned. *)
Definition preLevelAnimation (s : Scene) : Scene * nat :=
  let animationPromise := length (deferreds s) in
  let s := with_deferreds (deferreds s ++ [0]) s in
  let s := cleanUpDucks s in
  let findOpts := FindComplete animationPromise in
  let s := with_dog (Dog.find findOpts
                       (Dog.sniff DOG_POINTS.SNIFF_START DOG_POINTS.SNIFF_END (dog s))) s in
  (s, animationPromise).

(** The body of the loop of [addDucks], from counter [i], with [todo]
    iterations left. *)
Fixpoint addDucksFrom (i todo : nat) (speed : float) (s : Scene) : option Scene :=
  match todo with
  | 0 => Some s
  | S todo' =>
      let duckColor := if Nat.even i then red else black in
      let r := length (heap s) in
      let newDuck := Duck.new duckColor in
      let newDuck := Duck.setPosition (px DUCK_POINTS.ORIGIN) (py DUCK_POINTS.ORIGIN) newDuck in
      cs ← Container.addChildAt (DuckSprite r) 0 (children s);
      let newDuck := Duck.randomFlight speed newDuck in
      addDucksFrom (S i) todo' speed
        (with_ducks (ducks s ++ [r]) (with_heap (heap s ++ [newDuck]) (with_children cs s)))
  end.

(** [addDucks(numDucks, speed)] for a count [numDucks]; [None] is a throw. *)
Definition addDucks (numDucks : nat) (speed : float) (s : Scene) : option Scene :=
  addDucksFrom 0 numDucks speed s.

(** The condition of the [if] in [shotsFired]. *)
Definition isHit (clickPoint : Point) (duck : Duck) : bool :=
  alive duck && (pointDistance (position duck) clickPoint <? HIT_RADIUS)%float.

(** The loop of [shotsFired]: the duck store and [ducksShot] after visiting
    the roster entries [rs].  A reference always points at an object; the
    [None] case is there only because the store is a list. *)
Fixpoint shotsFiredLoop (clickPoint : Point) (rs : list nat) (h : list Duck) (ducksShot : nat)
  : list Duck * nat :=
  match rs with
  | [] => (h, ducksShot)
  | r :: rs' =>
      match h !! r with
      | Some duck =>
          if isHit clickPoint duck
          then shotsFiredLoop clickPoint rs'
                 (<[r := Duck.timelineAdd RetrieveTrigger (Duck.shot duck)]> h) (S ducksShot)
          else shotsFiredLoop clickPoint rs' h ducksShot
      | None => shotsFiredLoop clickPoint rs' h ducksShot
      end
  end.

(** [clickPoint.x /= this.scale.x; clickPoint.y /= this.scale.y] *)
Definition scaleClick (sc clickPoint : Point) : Point :=
  mkPoint (px clickPoint / px sc)%float (py clickPoint / py sc)%float.

(** [shotsFired(clickPoint)]: the scene after the call, the contents of the
    caller's point object after the call, and the returned count. *)
Definition shotsFired (clickPoint : Point) (s : Scene) : Scene * Point * nat :=
  let s := with_flashVisible true s in
  let s := with_timers (timers s ++ [FLASH_MS]) s in
  let clickPoint := scaleClick (scale s) clickPoint in
  let '(h, ducksShot) := shotsFiredLoop clickPoint (ducks s) (heap s) 0 in
  (with_heap h s, clickPoint, ducksShot).

(** The loop of [flyAway]: the duck store, the deferreds and [duckPromises]
    after visiting the roster entries [rs]. *)
Fixpoint flyAwayLoop (rs : list nat) (h : list Duck) (ds : list nat) (duckPromises : list nat)
  : list Duck * list nat * list nat :=
  match rs with
  | [] => (h, ds, duckPromises)
  | r :: rs' =>
      match h !! r with
      | Some duck =>
          if alive duck then
            let duckAnimation := length ds in
            let duck := Duck.stopAndClearTimeline duck in
            let duck := Duck.flyTo FLY_AWAY_POINT (ResolveDeferred duckAnimation) duck in
            flyAwayLoop rs' (<[r := duck]> h) (ds ++ [0]) (duckPromises ++ [duckAnimation])
          else flyAwayLoop rs' h ds duckPromises
      | None => flyAwayLoop rs' h ds duckPromises
      end
  end.

(** [flyAway()]: the scene after the call and the promise that is returned,
    the one of [BPromise.all(duckPromises).then(...)]. *)
Definition flyAway (s : Scene) : Scene * nat :=
  let s := with_dog (Dog.laugh (dog s)) s in
  let '(h, ds, duckPromises) := flyAwayLoop (ducks s) (heap s) (deferreds s) [] in
  let chained := length ds in
  let s := with_heap h (with_deferreds (ds ++ [0]) s) in
  (with_joins (joins s ++ [mkJoin duckPromises chained false]) s, chained).

(** [duck.alive] and [duck.isActive()] through a roster reference. *)
Definition duckAlive (s : Scene) (r : nat) : bool :=
  match heap s !! r with Some duck => alive duck | None => false end.
Definition duckActive (s : Scene) (r : nat) : bool :=
  match heap s !! r with Some duck => Duck.isActive duck | None => false end.

(** [ducksAlive()]: lodash's [_some] over the roster. *)
Definition ducksAlive (s : Scene) : bool := existsb (duckAlive s) (ducks s).

(** [ducksActive()] *)
Definition ducksActive (s : Scene) : bool := existsb (duckActive s) (ducks s).

(** [dogActive()] *)
Definition dogActive (s : Scene) : bool := Dog.isActive (dog s).

(** [isActive()] *)
Definition isActive (s : Scene) : bool :=
  dogActive s || ducksAlive s || ducksActive s.

(** ** The event loop

    The page is single-threaded: between two calls of the game into the
    stage, the animation engine completes steps of the entities' timelines,
    the promise library runs the continuations that have become ready, and
    timers fire.  Each of those is one event; [step] is the effect of one
    event on the scene, [None] when the event is not enabled or throws. *)

(** Running one of the stage's closures. *)
Definition runCallback (cb : Callback) (s : Scene) : option Scene :=
  match cb with
  | ResolveDeferred p => Some (resolve p s)
  | FindComplete p =>
      cs ← Container.setChildIndex DogSprite 0 (children s);
      Some (resolve p (with_children cs s))
  | RetrieveTrigger => Some (with_dog (Dog.retrieve (dog s)) s)
  end.

Definition moveDuck (point : Point) (rest : list Step) (d : Duck) : Duck :=
  mkDuck (colorProfile d) point (alive d) rest (calls d).

(** Modelled from the spec: the step in progress of duck [r] completes.  A
    leg of the random flight ends at [dest] and the next leg follows the
    steps already queued; the death animation ends at [dest]; a [flyTo] ends
    at its point and signals [onComplete]; a deferred action fires. *)
Definition duckStepDone (r : nat) (dest : Point) (s : Scene) : option Scene :=
  d ← heap s !! r;
  match timeline d with
  | [] => None
  | Flight speed :: rest =>
      Some (with_heap (<[r := moveDuck dest (rest ++ [Flight speed]) d]> (heap s)) s)
  | Death :: rest =>
      Some (with_heap (<[r := moveDuck dest rest d]> (heap s)) s)
  | Fly point onComplete :: rest =>
      runCallback onComplete (with_heap (<[r := moveDuck point rest d]> (heap s)) s)
  | Deferred cb :: rest =>
      runCallback cb (with_heap (<[r := moveDuck (position d) rest d]> (heap s)) s)
  end.

(** Modelled from the spec: the dog's behaviour in progress completes;
    [find] signals its [onComplete]. *)
Definition dogStepDone (s : Scene) : option Scene :=
  match dogTimeline (dog s) with
  | [] => None
  | Find onComplete :: rest =>
      runCallback onComplete (with_dog (mkDog (downPoint (dog s)) (upPoint (dog s)) rest) s)
  | _ :: rest => Some (with_dog (mkDog (downPoint (dog s)) (upPoint (dog s)) rest) s)
  end.

(** The continuation of chain [j] runs: every awaited deferred is resolved,
    [cleanUpDucks] is called on the stage and the chained promise resolves. *)
Definition settle (j : nat) (s : Scene) : option Scene :=
  jn ← joins s !! j;
  if settled jn then None
  else if forallb (isResolved s) (awaited jn)
  then Some (resolve (result jn)
               (cleanUpDucks (with_joins (<[j := mkJoin (awaited jn) (result jn) true]> (joins s)) s)))
  else None.

(** Timer [i] fires: [_this.flashScreen.visible = false]. *)
Definition timerFired (i : nat) (s : Scene) : option Scene :=
  _ ← timers s !! i;
  Some (with_flashVisible false (with_timers (delete i (timers s)) s)).

Inductive Event :=
  | EvScaleToWindow (window : Window)
  | EvPreLevelAnimation
  | EvAddDucks (numDucks : nat) (speed : float)
  | EvShotsFired (clickPoint : Point)
  | EvFlyAway
  | EvCleanUpDucks
  | EvDuckStep (r : nat) (dest : Point)
  | EvDogStep
  | EvSettle (j : nat)
  | EvTimer (i : nat).

Definition step (e : Event) (s : Scene) : option Scene :=
  match e with
  | EvScaleToWindow window => Some (scaleToWindow window s)
  | EvPreLevelAnimation => Some (preLevelAnimation s).1
  | EvAddDucks numDucks speed => addDucks numDucks speed s
  | EvShotsFired clickPoint => Some (shotsFired clickPoint s).1.1
  | EvFlyAway => Some (flyAway s).1
  | EvCleanUpDucks => Some (cleanUpDucks s)
  | EvDuckStep r dest => duckStepDone r dest s
  | EvDogStep => dogStepDone s
  | EvSettle j => settle j s
  | EvTimer i => timerFired i s
  end.

Fixpoint run (evs : list Event) (s : Scene) : option Scene :=
  match evs with
  | [] => Some s
  | e :: evs' => s' ← step e s; run evs' s'
  end.

(** ** Concrete scenes used in the examples *)

Module Examples.
#[local] Open Scope float_scope.

(** A window of the stage's own size: both scale factors are 1. *)
Definition native : Window := mkWindow 800 600.
(** A window twice as wide as the stage and as high as the stage. *)
Definition wide : Window := mkWindow 1600 600.

Definition fresh : Scene := constructor native.
Definition four : Scene := default fresh (addDucks 4 5 fresh).
End Examples.

(** ** Well-formed scenes

    What every scene built by the constructor and changed only through the
    operations and events above satisfies: roster entries and duck sprites
    refer to allocated ducks, the roster and the display list hold no object
    twice, the dog is on the display list, and every deferred named by a
    pending closure or a promise chain has been allocated. *)

(** The deferred a closure resolves, if any. *)
Definition target (cb : Callback) : option nat :=
  match cb with
  | ResolveDeferred p | FindComplete p => Some p
  | RetrieveTrigger => None
  end.

Definition stepCallbacks (st : Step) : list Callback :=
  match st with
  | Fly _ cb | Deferred cb => [cb]
  | Flight _ | Death => []
  end.

Definition dogStepCallbacks (st : DogStep) : list Callback :=
  match st with
  | Find cb => [cb]
  | Sniff _ _ | Retrieve | Laugh => []
  end.

Definition duckCallbacks (d : Duck) : list Callback := timeline d ≫= stepCallbacks.
Definition dogCallbacks (g : Dog) : list Callback := dogTimeline g ≫= dogStepCallbacks.

Record wf (s : Scene) : Prop := mkWf {
  wf_roster_nodup : NoDup (ducks s);
  wf_roster_alloc : ∀ r, r ∈ ducks s → r < length (heap s);
  wf_children_nodup : NoDup (children s);
  wf_children_alloc : ∀ r, DuckSprite r ∈ children s → r < length (heap s);
  wf_dog_child : DogSprite ∈ children s;
  wf_duck_callbacks : ∀ r d cb p,
      heap s !! r = Some d → cb ∈ duckCallbacks d → target cb = Some p →
      p < length (deferreds s);
  wf_dog_callbacks : ∀ cb p,
      cb ∈ dogCallbacks (dog s) → target cb = Some p → p < length (deferreds s);
  wf_joins : ∀ jn, jn ∈ joins s →
      result jn < length (deferreds s) ∧ ∀ q, q ∈ awaited jn → q < length (deferreds s)
}.

(** ** Auxiliary definitions of the statements *)

(** The duck that iteration [i] of the loop of [addDucks] leaves in the store. *)
Definition spawned (i : nat) (speed : float) : Duck :=
  Duck.randomFlight speed
    (Duck.setPosition (px DUCK_POINTS.ORIGIN) (py DUCK_POINTS.ORIGIN)
       (Duck.new (if Nat.even i then red else black))).

(** Whether the duck behind reference [r] passes the test of [shotsFired]. *)
Definition hitAt (h : list Duck) (clickPoint : Point) (r : nat) : bool :=
  match h !! r with Some duck => isHit clickPoint duck | None => false end.

(** What the body of the [if] in [shotsFired] does to the duck. *)
Definition downed (d : Duck) : Duck := Duck.timelineAdd RetrieveTrigger (Duck.shot d).

(** Whether the duck behind reference [r] is alive. *)
Definition aliveAt (h : list Duck) (r : nat) : bool :=
  match h !! r with Some duck => alive duck | None => false end.

(** The roster entries that [flyAway] sends away: those that are alive. *)
Definition fleeing (h : list Duck) (rs : list nat) : list nat := List.filter (aliveAt h) rs.

(** What the body of the [if] in [flyAway] does to the duck, [q] being the
    deferred created for it. *)
Definition fled (q : nat) (d : Duck) : Duck :=
  Duck.flyTo FLY_AWAY_POINT (ResolveDeferred q) (Duck.stopAndClearTimeline d).

(** A scene with one duck on the roster in which the dog is animating iff
    [a], the duck is alive iff [b], and the duck is animating iff [c]. *)
Definition probe (a b c : bool) : Scene :=
  mkScene [0]
    (mkDog DOG_POINTS.DOWN DOG_POINTS.UP (if a then [Laugh] else []))
    false (mkPoint 1 1)
    [DuckSprite 0; Tree; Background; DogSprite; FlashScreen; HudLayer]
    [mkDuck red DUCK_POINTS.ORIGIN b
       (if c then (if b then [Flight 5] else [Death]) else []) []]
    [] [] [].

(** ** Who can still resolve a deferred *)

(** The places where a closure that resolves a deferred can sit: the timeline
    of a duck, the timeline of the dog, or the continuation of a promise
    chain that has not run yet. *)
Inductive Holder := HDuck (r : nat) | HDog | HJoin (j : nat).

Inductive holds (s : Scene) (p : nat) : Holder → Prop :=
  | holds_duck r d cb :
      heap s !! r = Some d → cb ∈ duckCallbacks d → target cb = Some p →
      holds s p (HDuck r)
  | holds_dog cb :
      cb ∈ dogCallbacks (dog s) → target cb = Some p → holds s p HDog
  | holds_join j jn :
      joins s !! j = Some jn → settled jn = false → result jn = p →
      holds s p (HJoin j).

(** Event [e], taken in scene [s], calls [resolve] on deferred [p]. *)
Definition fires (e : Event) (s : Scene) (p : nat) : Prop :=
  match e with
  | EvDuckStep r _ =>
      ∃ d st rest cb, heap s !! r = Some d ∧ timeline d = st :: rest ∧
                      stepCallbacks st = [cb] ∧ target cb = Some p
  | EvDogStep =>
      ∃ cb rest, dogTimeline (dog s) = Find cb :: rest ∧ target cb = Some p
  | EvSettle j =>
      ∃ jn, joins s !! j = Some jn ∧ settled jn = false ∧ result jn = p ∧
            forallb (isResolved s) (awaited jn) = true
  | _ => False
  end.

(** How one event can change a duck that exists already. *)
Inductive duckChange (s : Scene) (e : Event) (r : nat) (d : Duck) : Duck → Prop :=
  | dc_same : duckChange s e r d d
  | dc_downed : duckChange s e r d (downed d)
  | dc_fled q : length (deferreds s) ≤ q → duckChange s e r d (fled q d)
  | dc_popped dest st rest pt :
      e = EvDuckStep r dest → timeline d = st :: rest →
      duckChange s e r d (moveDuck pt rest d)
  | dc_rotated dest speed rest :
      e = EvDuckStep r dest → timeline d = Flight speed :: rest →
      duckChange s e r d (moveDuck dest (rest ++ [Flight speed]) d).

(** Duck [r] is on its way to the exit and will resolve [q] on arrival. *)
Definition fleePending (r q : nat) (s : Scene) : Prop :=
  ∃ d, heap s !! r = Some d ∧ timeline d = [Fly FLY_AWAY_POINT (ResolveDeferred q)].

(** The dog still has the [find] of an intro sequence ahead of it, the one
    that resolves [p], and no other step of its timeline resolves [p]. *)
Definition introPending (p : nat) (s : Scene) : Prop :=
  ∃ pre post,
    dogTimeline (dog s) = pre ++ Find (FindComplete p) :: post ∧
    ∀ cb, cb ∈ (pre ++ post) ≫= dogStepCallbacks → target cb ≠ Some p.

(** A concrete run of the flee sequence: the four ducks of [Examples.four]
    reach the exit one after the other, then the continuation runs. *)
Module FleeExample.
Definition trace : list Event :=
  [EvDuckStep 0 FLY_AWAY_POINT; EvDuckStep 1 FLY_AWAY_POINT;
   EvDuckStep 2 FLY_AWAY_POINT; EvDuckStep 3 FLY_AWAY_POINT; EvSettle 0].
Definition final : Scene :=
  default Examples.fresh (run trace (flyAway Examples.four).1).
End FleeExample.

(** In the run [evs] from [s1] to [s'], deferred [p] was resolved by the
    completion of the dog's [find]: at some point of the run the dog's step
    in progress was the [find] that resolves [p], [p] was still unresolved,
    and the completion of that step moved the dog to the front of the
    display list (the back of the draw order) and resolved [p]. *)
Definition findCompleted (p : nat) (s1 : Scene) (evs : list Event) (s' : Scene) : Prop :=
  ∃ evs1 evs2 sa sb post,
    evs = evs1 ++ EvDogStep :: evs2 ∧
    run evs1 s1 = Some sa ∧ isResolved sa p = false ∧
    dogTimeline (dog sa) = Find (FindComplete p) :: post ∧
    step EvDogStep sa = Some sb ∧
    children sb = DogSprite :: Container.removeFirst DogSprite (children sa) ∧
    ducks sb = ducks sa ∧ resolveCalls sb p = 1 ∧
    run evs2 sb = Some s'.

(** The dog completes every step it had queued in [s], and two more: after
    [preLevelAnimation] was called in [s], these are the [sniff] and the
    [find] of the intro. *)
Definition dogFinishes (s : Scene) : list Event :=
  replicate (length (dogTimeline (dog s)) + 2) EvDogStep.

(** ** Auxiliary definitions for the display list and the flash *)

Definition isDuckSprite (c : Child) : bool :=
  match c with DuckSprite _ => true | _ => false end.

(** The children that are not ducks, in display order. *)
Definition scenery (cs : list Child) : list Child :=
  List.filter (λ c, negb (isDuckSprite c)) cs.

(** The duck sprites on the display list are the ducks of the roster. *)
Definition rosterOnDisplay (s : Scene) : Prop :=
  ∀ r, DuckSprite r ∈ children s ↔ r ∈ ducks s.

(** The scenery as [_setStage] builds it, and as it is once the [find] of an
    intro has moved the dog to index 0. *)
Definition sceneryBuilt : list Child := [Tree; Background; DogSprite; FlashScreen; HudLayer].
Definition sceneryDogBack : list Child := [DogSprite; Tree; Background; FlashScreen; HudLayer].

(** What the display list of a stage looks like at any time. *)
Record displayOk (s : Scene) : Prop := mkDisplayOk {
  display_roster : rosterOnDisplay s;
  display_top : ∃ front, children s = front ++ [FlashScreen; HudLayer];
  display_scenery : scenery (children s) = sceneryBuilt ∨ scenery (children s) = sceneryDogBack
}.

(** The four ways in which one event can change the roster and the display
    list. *)
Inductive displayChange (s : Scene) (e : Event) (s' : Scene) : Prop :=
  | display_same :
      ducks s' = ducks s → children s' = children s → displayChange s e s'
  | display_spawn n speed :
      e = EvAddDucks n speed →
      ducks s' = ducks s ++ seq (length (heap s)) n →
      children s' = (DuckSprite <$> reverse (seq (length (heap s)) n)) ++ children s →
      displayChange s e s'
  | display_teardown :
      (e = EvCleanUpDucks ∨ e = EvPreLevelAnimation ∨ ∃ j, e = EvSettle j) →
      ducks s' = [] → children s' = removeDucks (ducks s) (children s) →
      displayChange s e s'
  | display_dog_back :
      ducks s' = ducks s →
      children s' = DogSprite :: Container.removeFirst DogSprite (children s) →
      displayChange s e s'.

(** The number of roster members that are alive. *)
Definition aliveCount (s : Scene) : nat := length (fleeing (heap s) (ducks s)).

(** The flight of every duck that [flyAway] sent away in [s] completes, in
    roster order, and then the continuation of the promise chain runs. *)
Definition fleeCompletes (s : Scene) (dest : Point) : list Event :=
  ((λ r, EvDuckStep r dest) <$> fleeing (heap s) (ducks s)) ++ [EvSettle (length (joins s))].

(** A session on a new stage: the intro runs to its end, two ducks are
    added, one shot is fired at the spawn origin, and the flee starts. *)
Module Session.
Definition trace : list Event :=
  [EvPreLevelAnimation; EvDogStep; EvDogStep; EvAddDucks 2 5%float;
   EvShotsFired DUCK_POINTS.ORIGIN; EvAddDucks 1 5%float; EvFlyAway].
Definition final : Scene := default Examples.fresh (run trace Examples.fresh).
End Session.

(** A flee that starts with a dead duck on the roster: one duck is added and
    shot, a second one is added, and [flyAway] is called in [before]. *)
Module MidFlee.
Definition before : Scene :=
  default Examples.fresh
    (run [EvAddDucks 1 5%float; EvShotsFired DUCK_POINTS.ORIGIN; EvAddDucks 1 5%float]
         Examples.fresh).
End MidFlee.

(** A second [flyAway] during a flee of four ducks: duck 1 has arrived, the
    others are still on their way when [flyAway] is called again in [mid]. *)
Module Again.
Definition early : list Event := [EvDuckStep 1 FLY_AWAY_POINT].
Definition mid : Scene :=
  default Examples.fresh (run early (flyAway Examples.four).1).
Definition late : list Event := fleeCompletes mid FLY_AWAY_POINT.
Definition final : Scene := default Examples.fresh (run late (flyAway mid).1).
End Again.

(** * Properties *)

Example constructor_children :
  children Examples.fresh = [Tree; Background; DogSprite; FlashScreen; HudLayer].
Proof. reflexivity. Qed.

Example four_roster :
  ducks Examples.four = [0; 1; 2; 3] /\
  children Examples.four =
    [DuckSprite 3; DuckSprite 2; DuckSprite 1; DuckSprite 0;
     Tree; Background; DogSprite; FlashScreen; HudLayer] /\
  colorProfile <$> heap Examples.four = [red; black; red; black].
Proof. repeat split; reflexivity. Qed.

(** The spec's scenario: four targets shot at the spawn origin right after
    they were spawned are all hit. *)
Example four_hits :
  (shotsFired DUCK_POINTS.ORIGIN Examples.four).2 = 4.
Proof. vm_compute. reflexivity. Qed.

(** ** The display list *)

Section container.
Import Container.
Implicit Types (c x : Child) (cs : list Child).

Lemma removeFirst_absent c cs : c ∉ cs → removeFirst c cs = cs.
Proof.
  induction cs as [|y cs IH]; simpl; [done|].
  intros Hn. apply not_elem_of_cons in Hn as [Hne Hn].
  destruct (decide (y = c)); [congruence|]. by rewrite IH.
Qed.

Lemma removeFirst_subseteq c cs x : x ∈ removeFirst c cs → x ∈ cs.
Proof.
  induction cs as [|y cs IH]; simpl; [done|].
  destruct (decide (y = c)); rewrite !elem_of_cons; tauto.
Qed.

Lemma removeFirst_other c cs x : x ≠ c → x ∈ cs → x ∈ removeFirst c cs.
Proof.
  intros Hne. induction cs as [|y cs IH]; simpl; [done|].
  destruct (decide (y = c)) as [->|]; rewrite !elem_of_cons; [by intros [?|?]|tauto].
Qed.

Lemma removeFirst_NoDup c cs : NoDup cs → NoDup (removeFirst c cs).
Proof.
  induction 1 as [|y cs Hy Hcs IH]; simpl; [constructor|].
  destruct (decide (y = c)); [done|].
  constructor; [|done]. intros Hin. by apply Hy, (removeFirst_subseteq c).
Qed.

Lemma removeFirst_gone c cs : NoDup cs → c ∉ removeFirst c cs.
Proof.
  induction 1 as [|y cs Hy Hcs IH]; simpl; [apply not_elem_of_nil|].
  destruct (decide (y = c)) as [->|Hne]; [done|].
  apply not_elem_of_cons. by split.
Qed.

Lemma splice_perm i c cs : splice i c cs ≡ₚ c :: cs.
Proof.
  unfold splice. rewrite <- Permutation_middle. by rewrite take_drop.
Qed.

Lemma elem_of_splice i c cs x : x ∈ splice i c cs ↔ x = c ∨ x ∈ cs.
Proof. by rewrite splice_perm, elem_of_cons. Qed.

Lemma splice_NoDup i c cs : c ∉ cs → NoDup cs → NoDup (splice i c cs).
Proof. intros. rewrite splice_perm. by constructor. Qed.

Lemma splice_front c cs : splice 0 c cs = c :: cs.
Proof. unfold splice. by rewrite take_0, drop_0. Qed.

Lemma setChildIndex_present c cs :
  cs ≠ [] → c ∈ cs →
  setChildIndex c 0 cs = Some (c :: removeFirst c cs).
Proof.
  intros Hne Hin. unfold setChildIndex.
  rewrite bool_decide_true by (destruct cs; simpl; [done|lia]).
  rewrite bool_decide_true by done. by rewrite splice_front.
Qed.

Lemma removeDucks_subseteq rs cs x : x ∈ removeDucks rs cs → x ∈ cs.
Proof.
  revert cs. induction rs as [|r rs IH]; simpl; intros cs; [done|].
  intros Hin. by apply (removeFirst_subseteq (DuckSprite r)), IH.
Qed.

Lemma removeDucks_NoDup rs cs : NoDup cs → NoDup (removeDucks rs cs).
Proof.
  revert cs. induction rs as [|r rs IH]; simpl; intros cs Hcs; [done|].
  by apply IH, removeFirst_NoDup.
Qed.

Lemma removeDucks_keeps rs cs x :
  (∀ r, x ≠ DuckSprite r) → x ∈ cs → x ∈ removeDucks rs cs.
Proof.
  intros Hx. revert cs. induction rs as [|r rs IH]; simpl; intros cs Hin; [done|].
  by apply IH, removeFirst_other.
Qed.

(** Every roster entry is off the display list after the loop of
    [cleanUpDucks]. *)
Lemma removeDucks_gone rs cs r :
  NoDup cs → r ∈ rs → DuckSprite r ∉ removeDucks rs cs.
Proof.
  revert cs. induction rs as [|r' rs IH]; simpl; intros cs Hcs Hin.
  - by apply elem_of_nil in Hin.
  - apply elem_of_cons in Hin as [->|Hin].
    + intros H. apply removeDucks_subseteq in H. by apply removeFirst_gone in H.
    + by apply IH; [apply removeFirst_NoDup|].
Qed.
End container.

(** ** Well-formedness is an invariant *)

Lemma length_resolve p s : length (deferreds (resolve p s)) = length (deferreds s).
Proof. unfold resolve. simpl. apply length_alter. Qed.

Lemma resolveCalls_resolve_eq p s :
  p < length (deferreds s) → resolveCalls (resolve p s) p = S (resolveCalls s p).
Proof.
  intros Hp. unfold resolveCalls, resolve. simpl.
  destruct (lookup_lt_is_Some_2 _ _ Hp) as [n Hn].
  by rewrite list_lookup_alter_eq, Hn.
Qed.

Lemma resolveCalls_resolve_ne p q s :
  p ≠ q → resolveCalls (resolve p s) q = resolveCalls s q.
Proof.
  intros Hne. unfold resolveCalls, resolve. simpl.
  by rewrite list_lookup_alter_ne.
Qed.

Lemma isResolved_resolve_mono p q s :
  isResolved s q = true → isResolved (resolve p s) q = true.
Proof.
  unfold isResolved. destruct (decide (p = q)) as [->|Hne].
  - unfold resolveCalls, resolve. simpl. rewrite list_lookup_alter_eq.
    destruct (deferreds s !! q) as [n|]; simpl; [done|]. by intros.
  - by rewrite resolveCalls_resolve_ne.
Qed.

Lemma elem_of_duckCallbacks_tail st rest cb :
  cb ∈ rest ≫= stepCallbacks → cb ∈ (st :: rest) ≫= stepCallbacks.
Proof. simpl. rewrite elem_of_app. by right. Qed.

Lemma children_constructor window :
  children (constructor window) = [Tree; Background; DogSprite; FlashScreen; HudLayer].
Proof. reflexivity. Qed.

Lemma wf_constructor window : wf (constructor window).
Proof.
  split; rewrite ?children_constructor.
  - constructor.
  - intros r Hr. by apply elem_of_nil in Hr.
  - compute_done.
  - intros r Hr. rewrite !elem_of_cons, elem_of_nil in Hr.
    by destruct Hr as [?|[?|[?|[?|[?|?]]]]].
  - compute_done.
  - intros r d cb p Hr. change (heap (constructor window)) with (@nil Duck) in Hr.
    by rewrite lookup_nil in Hr.
  - intros cb p Hcb. by apply elem_of_nil in Hcb.
  - intros jn Hjn. by apply elem_of_nil in Hjn.
Qed.

Lemma wf_with_scale v s : wf s → wf (with_scale v s).
Proof. by destruct 1. Qed.

Lemma wf_with_flashVisible v s : wf s → wf (with_flashVisible v s).
Proof. by destruct 1. Qed.

Lemma wf_with_timers v s : wf s → wf (with_timers v s).
Proof. by destruct 1. Qed.

Lemma wf_with_deferreds ds s :
  wf s → length (deferreds s) ≤ length ds → wf (with_deferreds ds s).
Proof.
  intros [] Hle. split; simpl; try done.
  - intros r d cb p Hr Hcb Hp. eapply Nat.lt_le_trans; [|exact Hle]. eauto.
  - intros cb p Hcb Hp. eapply Nat.lt_le_trans; [|exact Hle]. eauto.
  - intros jn Hjn. destruct (wf_joins0 jn Hjn) as [Hres Haw]. split.
    + lia.
    + intros q Hq. specialize (Haw q Hq). lia.
Qed.

Lemma wf_resolve p s : wf s → wf (resolve p s).
Proof. intros Hwf. apply wf_with_deferreds; [done|]. by rewrite length_alter. Qed.

Lemma wf_with_dog g s :
  wf s →
  (∀ cb p, cb ∈ dogCallbacks g → target cb = Some p → p < length (deferreds s)) →
  wf (with_dog g s).
Proof. intros [] Hg. by split. Qed.

Lemma wf_with_heap h s :
  wf s → length (heap s) ≤ length h →
  (∀ r d cb p, h !! r = Some d → cb ∈ duckCallbacks d → target cb = Some p →
               p < length (deferreds s)) →
  wf (with_heap h s).
Proof.
  intros [] Hle Hh. split; simpl; try done.
  - intros r Hr. specialize (wf_roster_alloc0 r Hr). lia.
  - intros r Hr. specialize (wf_children_alloc0 r Hr). lia.
Qed.

Lemma wf_with_joins js s :
  wf s →
  (∀ jn, jn ∈ js →
     result jn < length (deferreds s) ∧ ∀ q, q ∈ awaited jn → q < length (deferreds s)) →
  wf (with_joins js s).
Proof. intros [] Hjs. by split. Qed.

Lemma wf_scaleToWindow window s : wf s → wf (scaleToWindow window s).
Proof. apply wf_with_scale. Qed.

Lemma wf_cleanUpDucks s : wf s → wf (cleanUpDucks s).
Proof.
  intros []. split; simpl; try done.
  - constructor.
  - intros r Hr. by apply elem_of_nil in Hr.
  - by apply removeDucks_NoDup.
  - intros r Hr. by apply wf_children_alloc0, (removeDucks_subseteq (ducks s)).
  - by apply removeDucks_keeps.
Qed.

Lemma dogCallbacks_enqueue st g :
  dogCallbacks (Dog.enqueue st g) = dogCallbacks g ++ dogStepCallbacks st.
Proof.
  unfold dogCallbacks, Dog.enqueue. simpl.
  rewrite bind_app. simpl. by rewrite app_nil_r.
Qed.

Lemma wf_preLevelAnimation s : wf s → wf (preLevelAnimation s).1.
Proof.
  intros Hwf. unfold preLevelAnimation. simpl.
  apply wf_with_dog.
  - apply wf_cleanUpDucks, wf_with_deferreds; [done|]. rewrite length_app. lia.
  - intros cb p. unfold Dog.find, Dog.sniff. rewrite !dogCallbacks_enqueue. simpl.
    rewrite app_nil_r, length_app, elem_of_app, list_elem_of_singleton. simpl.
    intros [Hcb| ->] Hp.
    + pose proof (wf_dog_callbacks _ Hwf cb p Hcb Hp). lia.
    + injection Hp as <-. lia.
Qed.

Lemma wf_timerFired i s s' : wf s → timerFired i s = Some s' → wf s'.
Proof.
  unfold timerFired. intros Hwf. destruct (timers s !! i); simpl; [|done].
  intros [= <-]. by apply wf_with_flashVisible, wf_with_timers.
Qed.

Lemma wf_with_children cs s :
  wf s → NoDup cs → (∀ r, DuckSprite r ∈ cs → r < length (heap s)) → DogSprite ∈ cs →
  wf (with_children cs s).
Proof. intros [] ???. by split. Qed.

Lemma dog_front_ok s :
  wf s → Container.setChildIndex DogSprite 0 (children s)
         = Some (DogSprite :: Container.removeFirst DogSprite (children s)).
Proof.
  intros Hwf. apply setChildIndex_present; [|by apply wf_dog_child].
  intros Hnil. pose proof (wf_dog_child _ Hwf) as Hin. rewrite Hnil in Hin.
  by apply elem_of_nil in Hin.
Qed.

Lemma wf_dog_front s :
  wf s → wf (with_children (DogSprite :: Container.removeFirst DogSprite (children s)) s).
Proof.
  intros Hwf. apply wf_with_children; [done|..].
  - constructor.
    + apply removeFirst_gone, Hwf.
    + apply removeFirst_NoDup, Hwf.
  - intros r [Hr|Hr]%elem_of_cons; [done|].
    by apply (wf_children_alloc _ Hwf), (removeFirst_subseteq DogSprite).
  - apply elem_of_cons. by left.
Qed.

Lemma wf_runCallback cb s s' : wf s → runCallback cb s = Some s' → wf s'.
Proof.
  intros Hwf. destruct cb as [p|p|]; simpl.
  - intros [= <-]. by apply wf_resolve.
  - rewrite (dog_front_ok _ Hwf). simpl. intros [= <-].
    by apply (wf_resolve p), wf_dog_front.
  - intros [= <-]. apply wf_with_dog; [done|].
    intros cb p. unfold Dog.retrieve. rewrite dogCallbacks_enqueue. simpl.
    rewrite app_nil_r. apply Hwf.
Qed.

Lemma wf_dogStepDone s s' : wf s → dogStepDone s = Some s' → wf s'.
Proof.
  intros Hwf. unfold dogStepDone.
  destruct (dogTimeline (dog s)) as [|st rest] eqn:Ht; [done|].
  assert (wf (with_dog (mkDog (downPoint (dog s)) (upPoint (dog s)) rest) s)) as Hwf'.
  { apply wf_with_dog; [done|]. intros cb p Hcb. apply (wf_dog_callbacks _ Hwf).
    unfold dogCallbacks in *. rewrite Ht. simpl in *. apply elem_of_app. by right. }
  destruct st; try (by intros [= <-]).
  by apply wf_runCallback.
Qed.

Lemma wf_insert_duck r d d' s :
  wf s → heap s !! r = Some d →
  (∀ cb, cb ∈ duckCallbacks d' → cb ∈ duckCallbacks d) →
  wf (with_heap (<[r := d']> (heap s)) s).
Proof.
  intros Hwf Hr Hsub. apply wf_with_heap; [done|by rewrite length_insert|].
  intros r0 d0 cb p Hr0 Hcb Hp.
  apply list_lookup_insert_Some in Hr0 as [(-> & <- & _)|[Hne Hr0]].
  - apply (wf_duck_callbacks _ Hwf r0 d cb p); auto.
  - by apply (wf_duck_callbacks _ Hwf r0 d0 cb p).
Qed.

Lemma wf_duckStepDone r dest s s' : wf s → duckStepDone r dest s = Some s' → wf s'.
Proof.
  intros Hwf. unfold duckStepDone.
  destruct (heap s !! r) as [d|] eqn:Hr; simpl; [|done].
  destruct (timeline d) as [|st rest] eqn:Ht; [done|].
  assert (∀ cb, cb ∈ rest ≫= stepCallbacks → cb ∈ duckCallbacks d) as Hsub.
  { intros cb Hcb. unfold duckCallbacks. rewrite Ht. by apply elem_of_duckCallbacks_tail. }
  destruct st as [speed| |point onComplete|cb0].
  - intros [= <-]. apply (wf_insert_duck r d); [done..|].
    intros cb. unfold duckCallbacks at 1. simpl. rewrite bind_app. simpl.
    rewrite app_nil_r. apply Hsub.
  - intros [= <-]. by apply (wf_insert_duck r d).
  - apply wf_runCallback. by apply (wf_insert_duck r d).
  - apply wf_runCallback. by apply (wf_insert_duck r d).
Qed.

Lemma wf_settle j s s' : wf s → settle j s = Some s' → wf s'.
Proof.
  intros Hwf. unfold settle.
  destruct (joins s !! j) as [jn|] eqn:Hj; simpl; [|done].
  destruct (settled jn); [done|].
  destruct (forallb _ _); [|done].
  intros [= <-]. apply wf_resolve, wf_cleanUpDucks, wf_with_joins; [done|].
  intros jn' [i Hi]%list_elem_of_lookup.
  apply list_lookup_insert_Some in Hi as [(-> & <- & _)|[Hne Hi]]; simpl.
  - apply (wf_joins _ Hwf jn). by apply list_elem_of_lookup; exists i.
  - apply (wf_joins _ Hwf jn'). by apply list_elem_of_lookup; exists i.
Qed.

(** ** [addDucks] *)

Lemma wf_spawn i speed s :
  wf s →
  wf (with_ducks (ducks s ++ [length (heap s)])
        (with_heap (heap s ++ [spawned i speed])
           (with_children (DuckSprite (length (heap s)) :: children s) s))).
Proof.
  intros Hwf.
  assert (length (heap s) ∉ ducks s) as Hfresh.
  { intros Hin. apply (wf_roster_alloc _ Hwf) in Hin. lia. }
  assert (DuckSprite (length (heap s)) ∉ children s) as Hfresh'.
  { intros Hin. apply (wf_children_alloc _ Hwf) in Hin. lia. }
  split; simpl.
  - apply NoDup_app. split; [apply Hwf|]. split; [|apply NoDup_singleton].
    intros r Hr ->%list_elem_of_singleton. done.
  - intros r. rewrite elem_of_app, list_elem_of_singleton, length_app. simpl.
    intros [Hr| ->]; [|lia]. apply (wf_roster_alloc _ Hwf) in Hr. lia.
  - constructor; [done|apply Hwf].
  - intros r. rewrite elem_of_cons, length_app. simpl.
    intros [[= ->]|Hr]; [lia|]. apply (wf_children_alloc _ Hwf) in Hr. lia.
  - apply elem_of_cons. right. apply Hwf.
  - intros r d cb p Hr Hcb. apply lookup_app_Some in Hr as [Hr|[_ Hr]].
    + by apply (wf_duck_callbacks _ Hwf r d).
    + apply list_lookup_singleton_Some in Hr as [_ <-].
      by apply elem_of_nil in Hcb.
  - apply Hwf.
  - apply Hwf.
Qed.

Lemma addDucksFrom_S i n speed s :
  wf s →
  addDucksFrom i (S n) speed s =
  addDucksFrom (S i) n speed
    (with_ducks (ducks s ++ [length (heap s)])
       (with_heap (heap s ++ [spawned i speed])
          (with_children (DuckSprite (length (heap s)) :: children s) s))).
Proof.
  intros Hwf. cbn [addDucksFrom]. unfold Container.addChildAt.
  rewrite bool_decide_true by lia.
  rewrite removeFirst_absent, splice_front; [done|].
  intros Hin. apply (wf_children_alloc _ Hwf) in Hin. lia.
Qed.

Lemma addDucksFrom_spec n : ∀ i speed s,
  wf s →
  ∃ s', addDucksFrom i n speed s = Some s' ∧ wf s' ∧
        ducks s' = ducks s ++ seq (length (heap s)) n ∧
        heap s' = heap s ++ ((λ k, spawned k speed) <$> seq i n) ∧
        children s' = (DuckSprite <$> reverse (seq (length (heap s)) n)) ++ children s ∧
        dog s' = dog s ∧ flashVisible s' = flashVisible s ∧ scale s' = scale s ∧
        deferreds s' = deferreds s ∧ joins s' = joins s ∧ timers s' = timers s.
Proof.
  induction n as [|n IH]; intros i speed s Hwf.
  - exists s. cbn [addDucksFrom seq reverse fmap list_fmap]. by rewrite !app_nil_r.
  - rewrite addDucksFrom_S by done.
    destruct (IH (S i) speed _ (wf_spawn i speed s Hwf))
      as (s' & Hrun & Hwf' & Hd & Hh & Hc & Hrest).
    exists s'. split; [exact Hrun|]. split; [done|].
    cbn [ducks heap children dog flashVisible scale deferreds joins timers
         with_ducks with_heap with_children] in Hd, Hh, Hc, Hrest.
    rewrite length_app, Nat.add_1_r in Hd, Hc.
    split; [by rewrite Hd, <- app_assoc|].
    split; [by rewrite Hh, <- app_assoc|].
    split; [|done].
    cbn [seq]. by rewrite Hc, reverse_cons, fmap_app, <- app_assoc.
Qed.

Lemma wf_addDucks n speed s s' : wf s → addDucks n speed s = Some s' → wf s'.
Proof.
  intros Hwf Hadd. destruct (addDucksFrom_spec n 0 speed s Hwf) as (s'' & Hrun & Hwf' & _).
  unfold addDucks in Hadd. congruence.
Qed.

(** ** [shotsFired] *)

Lemma isHit_downed P d : isHit P (downed d) = false.
Proof. reflexivity. Qed.

Lemma hitAt_insert_ne h P r r' d :
  r ≠ r' → hitAt (<[r := d]> h) P r' = hitAt h P r'.
Proof. intros Hne. unfold hitAt. by rewrite list_lookup_insert_ne. Qed.

Lemma filter_hitAt_insert h P r d rs :
  r ∉ rs → List.filter (hitAt (<[r := d]> h) P) rs = List.filter (hitAt h P) rs.
Proof.
  intros Hr. apply List.filter_ext_in. intros r' Hin%list_elem_of_In.
  apply hitAt_insert_ne. by intros ->.
Qed.

Lemma shotsFiredLoop_spec P rs : ∀ h n,
  NoDup rs →
  (shotsFiredLoop P rs h n).2 = n + length (List.filter (hitAt h P) rs) ∧
  length (shotsFiredLoop P rs h n).1 = length h ∧
  (∀ r, r ∈ rs → hitAt h P r = true →
        (shotsFiredLoop P rs h n).1 !! r = downed <$> h !! r) ∧
  (∀ r, ¬ (r ∈ rs ∧ hitAt h P r = true) → (shotsFiredLoop P rs h n).1 !! r = h !! r).
Proof.
  induction rs as [|r0 rs IH]; intros h n Hnd.
  - cbn. split; [lia|]. split; [done|]. split; [|done].
    intros r Hr. by apply elem_of_nil in Hr.
  - apply NoDup_cons in Hnd as [Hr0 Hnd].
    cbn [shotsFiredLoop List.filter]. unfold hitAt at 1.
    destruct (h !! r0) as [duck|] eqn:Hduck; [destruct (isHit P duck) eqn:Hhit|].
    + destruct (IH (<[r0 := downed duck]> h) (S n) Hnd) as (Hn & Hlen & Hin & Hout).
      fold (downed duck).
      rewrite Hn, Hlen, length_insert, filter_hitAt_insert by done.
      split; [simpl; lia|]. split; [done|]. split.
      * intros r [->|Hr]%elem_of_cons Hhr.
        -- rewrite Hout, Hduck.
           ++ apply list_lookup_insert_eq. by eapply lookup_lt_Some.
           ++ intros [Hr _]. done.
        -- rewrite Hin; [|done|].
           ++ rewrite list_lookup_insert_ne; [done|]. by intros ->.
           ++ rewrite hitAt_insert_ne; [done|]. by intros ->.
      * intros r Hr. destruct (decide (r = r0)) as [->|Hne].
        -- exfalso. apply Hr. split; [apply elem_of_cons; by left|].
           unfold hitAt. by rewrite Hduck.
        -- rewrite Hout.
           ++ by apply list_lookup_insert_ne.
           ++ intros [Hr' Hh]. apply Hr. split; [apply elem_of_cons; by right|].
              by rewrite hitAt_insert_ne in Hh.
    + destruct (IH h n Hnd) as (Hn & Hlen & Hin & Hout).
      split; [done|]. split; [done|]. split.
      * intros r [->|Hr]%elem_of_cons Hhr.
        -- unfold hitAt in Hhr. rewrite Hduck in Hhr. congruence.
        -- by apply Hin.
      * intros r Hr. apply Hout. intros [Hr' Hh]. apply Hr.
        split; [apply elem_of_cons; by right|done].
    + destruct (IH h n Hnd) as (Hn & Hlen & Hin & Hout).
      split; [done|]. split; [done|]. split.
      * intros r [->|Hr]%elem_of_cons Hhr.
        -- unfold hitAt in Hhr. by rewrite Hduck in Hhr.
        -- by apply Hin.
      * intros r Hr. apply Hout. intros [Hr' Hh]. apply Hr.
        split; [apply elem_of_cons; by right|done].
Qed.

Lemma wf_shotsFired P s : wf s → wf (shotsFired P s).1.1.
Proof.
  intros Hwf. unfold shotsFired.
  cbn [scale ducks heap with_timers with_flashVisible].
  destruct (shotsFiredLoop_spec (scaleClick (scale s) P) (ducks s) (heap s) 0
              (wf_roster_nodup _ Hwf)) as (_ & Hlen & Hin & Hout).
  destruct (shotsFiredLoop _ _ _ _) as [h n]. cbn [fst snd] in *.
  apply wf_with_heap.
  - by apply wf_with_timers, wf_with_flashVisible.
  - simpl. lia.
  - simpl. intros r d cb p Hr Hcb Hp.
    destruct (decide (r ∈ ducks s ∧ hitAt (heap s) (scaleClick (scale s) P) r = true))
      as [[Hr1 Hr2]|Hno].
    + rewrite (Hin r Hr1 Hr2) in Hr. destruct (heap s !! r) as [d0|]; [|done].
      injection Hr as <-. unfold duckCallbacks in Hcb. simpl in Hcb.
      apply list_elem_of_singleton in Hcb as ->. done.
    + rewrite (Hout r Hno) in Hr. by apply (wf_duck_callbacks _ Hwf r d cb p).
Qed.

(** ** [flyAway] *)

Lemma aliveAt_insert_ne h r r' d : r ≠ r' → aliveAt (<[r := d]> h) r' = aliveAt h r'.
Proof. intros Hne. unfold aliveAt. by rewrite list_lookup_insert_ne. Qed.

Lemma fleeing_insert h r d rs : r ∉ rs → fleeing (<[r := d]> h) rs = fleeing h rs.
Proof.
  intros Hr. apply List.filter_ext_in. intros r' Hin%list_elem_of_In.
  apply aliveAt_insert_ne. by intros ->.
Qed.

Lemma elem_of_fleeing h rs r : r ∈ fleeing h rs ↔ r ∈ rs ∧ aliveAt h r = true.
Proof. unfold fleeing. by rewrite !list_elem_of_In, List.filter_In. Qed.

Lemma flyAwayLoop_spec rs : ∀ h ds qs,
  NoDup rs →
  (flyAwayLoop rs h ds qs).1.2 = ds ++ replicate (length (fleeing h rs)) 0 ∧
  (flyAwayLoop rs h ds qs).2 = qs ++ seq (length ds) (length (fleeing h rs)) ∧
  length (flyAwayLoop rs h ds qs).1.1 = length h ∧
  (∀ i r, fleeing h rs !! i = Some r →
          (flyAwayLoop rs h ds qs).1.1 !! r = fled (length ds + i) <$> h !! r) ∧
  (∀ r, r ∉ fleeing h rs → (flyAwayLoop rs h ds qs).1.1 !! r = h !! r).
Proof.
  induction rs as [|r0 rs IH]; intros h ds qs Hnd.
  - cbn. rewrite !app_nil_r. repeat split; try done.
  - apply NoDup_cons in Hnd as [Hr0 Hnd].
    cbn [flyAwayLoop]. unfold fleeing. cbn [List.filter]. fold (fleeing h rs).
    assert (aliveAt h r0 = from_option alive false (h !! r0)) as Hal by done.
    rewrite Hal.
    destruct (h !! r0) as [duck|] eqn:Hduck; cbn [from_option];
      [destruct (alive duck) eqn:Halive|].
    + fold (fled (length ds) duck).
      destruct (IH (<[r0 := fled (length ds) duck]> h) (ds ++ [0]) (qs ++ [length ds]) Hnd)
        as (Hds & Hqs & Hlen & Hin & Hout).
      rewrite fleeing_insert in Hds, Hqs, Hin, Hout by done.
      rewrite Hds, Hqs, Hlen, length_insert, length_app, <- !app_assoc.
      cbn [length seq replicate app]. rewrite Nat.add_1_r.
      split; [done|]. split; [done|]. split; [done|]. split.
      * intros [|i] r Hi; simpl in Hi.
        -- injection Hi as <-. rewrite Hout, Hduck, Nat.add_0_r.
           ++ apply list_lookup_insert_eq. by eapply lookup_lt_Some.
           ++ intros [Hr _]%elem_of_fleeing. done.
        -- rewrite (Hin i r Hi), length_app. cbn [length].
           rewrite list_lookup_insert_ne.
           ++ by replace (length ds + 1 + i) with (length ds + S i) by lia.
           ++ intros ->. apply list_elem_of_lookup_2, elem_of_fleeing in Hi as [? _]. done.
      * intros r [Hne Hr]%not_elem_of_cons. rewrite Hout by done.
        by apply list_lookup_insert_ne.
    + destruct (IH h ds qs Hnd) as (Hds & Hqs & Hlen & Hin & Hout). done.
    + destruct (IH h ds qs Hnd) as (Hds & Hqs & Hlen & Hin & Hout). done.
Qed.

Lemma dogCallbacks_laugh g : dogCallbacks (Dog.laugh g) = dogCallbacks g.
Proof. unfold Dog.laugh. rewrite dogCallbacks_enqueue. apply app_nil_r. Qed.

(** [flyAway] written out with the result of its loop. *)
Lemma flyAway_unfold s :
  flyAway s =
  let l := flyAwayLoop (ducks s) (heap s) (deferreds s) [] in
  (with_joins (joins s ++ [mkJoin l.2 (length l.1.2) false])
     (with_heap l.1.1 (with_deferreds (l.1.2 ++ [0]) (with_dog (Dog.laugh (dog s)) s))),
   length l.1.2).
Proof.
  unfold flyAway. cbn [ducks heap deferreds with_dog].
  by destruct (flyAwayLoop _ _ _ _) as [[h ds] qs].
Qed.

Lemma wf_flyAway s : wf s → wf (flyAway s).1.
Proof.
  intros Hwf. rewrite flyAway_unfold. cbn [fst].
  destruct (flyAwayLoop_spec (ducks s) (heap s) (deferreds s) [] (wf_roster_nodup _ Hwf))
    as (Hds & Hqs & Hlen & Hin & Hout).
  set (k := length (fleeing (heap s) (ducks s))) in *.
  destruct (flyAwayLoop _ _ _ _) as [[h ds] qs]. cbn [fst snd] in *. subst ds qs.
  assert (wf (with_deferreds ((deferreds s ++ replicate k 0) ++ [0])
                (with_dog (Dog.laugh (dog s)) s))) as Hwf1.
  { apply wf_with_deferreds.
    - apply wf_with_dog; [done|]. intros cb p. rewrite dogCallbacks_laugh. apply Hwf.
    - simpl. rewrite !length_app. lia. }
  apply wf_with_joins; [apply wf_with_heap; [done|simpl; lia|]|].
  - simpl. intros r d cb p Hr Hcb Hp. rewrite !length_app, length_replicate. simpl.
    destruct (decide (r ∈ fleeing (heap s) (ducks s))) as [Hfl|Hfl].
    + apply list_elem_of_lookup in Hfl as [i Hi].
      pose proof (lookup_lt_Some _ _ _ Hi) as Hlt. fold k in Hlt.
      rewrite (Hin i r Hi) in Hr. destruct (heap s !! r) as [d0|]; [|done].
      injection Hr as <-. unfold duckCallbacks in Hcb. simpl in Hcb.
      apply list_elem_of_singleton in Hcb as ->. injection Hp as <-. lia.
    + rewrite (Hout r Hfl) in Hr.
      pose proof (wf_duck_callbacks _ Hwf r d cb p Hr Hcb Hp). lia.
  - simpl. intros jn. rewrite elem_of_app, list_elem_of_singleton.
    rewrite !length_app, length_replicate. simpl. intros [Hjn| ->].
    + destruct (wf_joins _ Hwf jn Hjn) as [Hres Haw]. split; [lia|].
      intros q Hq. specialize (Haw q Hq). lia.
    + simpl. split; [lia|]. intros q Hq%elem_of_seq. lia.
Qed.

Lemma wf_step e s s' : wf s → step e s = Some s' → wf s'.
Proof.
  intros Hwf. destruct e; simpl.
  - intros [= <-]. by apply wf_scaleToWindow.
  - intros [= <-]. by apply wf_preLevelAnimation.
  - by apply wf_addDucks.
  - intros [= <-]. by apply wf_shotsFired.
  - intros [= <-]. by apply wf_flyAway.
  - intros [= <-]. by apply wf_cleanUpDucks.
  - by apply wf_duckStepDone.
  - by apply wf_dogStepDone.
  - by apply wf_settle.
  - by apply wf_timerFired.
Qed.

Lemma wf_run evs : ∀ s s', wf s → run evs s = Some s' → wf s'.
Proof.
  induction evs as [|e evs IH]; intros s s' Hwf; simpl.
  - by intros [= <-].
  - destruct (step e s) as [s1|] eqn:He; simpl; [|done].
    apply IH. by eapply wf_step.
Qed.

(** Every scene that the constructor and any sequence of events produce is
    well-formed. *)
Lemma wf_reachable window evs s : run evs (constructor window) = Some s → wf s.
Proof. apply wf_run, wf_constructor. Qed.

Lemma wf_fresh : wf Examples.fresh.
Proof. apply wf_constructor. Qed.

Lemma wf_four : wf Examples.four.
Proof.
  destruct (addDucksFrom_spec 4 0 5%float Examples.fresh wf_fresh) as (s' & Hrun & Hwf & _).
  unfold Examples.four, addDucks. by rewrite Hrun.
Qed.

(** ** Concrete runs *)

(** The flee sequence of four ducks: the chained promise is the fifth
    deferred; once every duck has arrived and the continuation has run it is
    resolved, the roster is empty and the ducks are off the display list. *)
Example flee_run :
  (flyAway Examples.four).2 = 4 ∧
  run FleeExample.trace (flyAway Examples.four).1 = Some FleeExample.final ∧
  deferreds FleeExample.final = [1; 1; 1; 1; 1] ∧
  ducks FleeExample.final = [] ∧
  children FleeExample.final = [Tree; Background; DogSprite; FlashScreen; HudLayer].
Proof.
  split; [vm_compute; reflexivity|]. split; [vm_compute; reflexivity|].
  split; [vm_compute; reflexivity|]. split; vm_compute; reflexivity.
Qed.

(** The continuation of the chain is not ready while a duck is still on its
    way. *)
Example flee_not_ready :
  run [EvDuckStep 0 FLY_AWAY_POINT; EvDuckStep 1 FLY_AWAY_POINT;
       EvDuckStep 2 FLY_AWAY_POINT; EvSettle 0] (flyAway Examples.four).1 = None.
Proof. vm_compute. reflexivity. Qed.

(** The intro sequence on a new stage whose roster was filled by hand: the
    dog ends up at the back of the draw order and the promise is resolved. *)
Example intro_run :
  ∃ s2, run (dogFinishes Examples.four) (preLevelAnimation Examples.four).1 = Some s2 ∧
        children s2 = [DogSprite; Tree; Background; FlashScreen; HudLayer] ∧
        deferreds s2 = [1] ∧ ducks s2 = [] ∧ dogTimeline (dog s2) = [].
Proof.
  eexists. split; [vm_compute; reflexivity|].
  split; [vm_compute; reflexivity|]. split; [vm_compute; reflexivity|].
  split; vm_compute; reflexivity.
Qed.

(** * The claims *)

Lemma shotsFired_point P s : (shotsFired P s).1.2 = scaleClick (scale s) P.
Proof. unfold shotsFired. by destruct (shotsFiredLoop _ _ _ _). Qed.

Lemma shotsFired_scene P s :
  (shotsFired P s).1.1 =
  with_heap (shotsFiredLoop (scaleClick (scale s) P) (ducks s) (heap s) 0).1
    (with_timers (timers s ++ [FLASH_MS]) (with_flashVisible true s)).
Proof. unfold shotsFired. by destruct (shotsFiredLoop _ _ _ _). Qed.

Lemma shotsFired_result P s :
  (shotsFired P s).2 = (shotsFiredLoop (scaleClick (scale s) P) (ducks s) (heap s) 0).2.
Proof. unfold shotsFired. by destruct (shotsFiredLoop _ _ _ _). Qed.

Lemma hitAt_spec h P r :
  hitAt h P r = true ↔
  ∃ d, h !! r = Some d ∧ alive d = true ∧
       (pointDistance (position d) P <? HIT_RADIUS)%float = true.
Proof.
  unfold hitAt, isHit. destruct (h !! r) as [d|].
  - rewrite andb_true_iff. split.
    + intros [? ?]. by exists d.
    + by intros (? & [= <-] & ? & ?).
  - split; [done|]. by intros (? & ? & _).
Qed.

(** C1.  In a well-formed scene, [shotsFired(P)] returns the number of roster
    members that are alive when it is called and whose distance to the
    mapped point [P / scale] is below the hit radius.  Each counted member
    has received [shot()] (it is no longer alive) followed by a
    [timeline.add] of the closure that calls the dog's [retrieve()], which is
    now the last entry of that duck's own timeline; every other duck is
    untouched. *)
Theorem shotsFired_counts_alive_in_radius (s : Scene) (P : Point) :
  wf s →
  let world := scaleClick (scale s) P in
  let after := (shotsFired P s).1.1 in
  (shotsFired P s).2 = length (List.filter (hitAt (heap s) world) (ducks s)) ∧
  (∀ r, hitAt (heap s) world r = true ↔
        ∃ d, heap s !! r = Some d ∧ alive d = true ∧
             (pointDistance (position d) world <? HIT_RADIUS)%float = true) ∧
  (∀ r, r ∈ ducks s → hitAt (heap s) world r = true →
        ∃ d, heap s !! r = Some d ∧
             heap after !! r = Some (downed d) ∧
             alive (downed d) = false ∧
             calls (downed d) = calls d ++ [CallShot; CallTimelineAdd RetrieveTrigger] ∧
             last (timeline (downed d)) = Some (Deferred RetrieveTrigger)) ∧
  (∀ r, ¬ (r ∈ ducks s ∧ hitAt (heap s) world r = true) →
        heap after !! r = heap s !! r) ∧
  (∀ s0, runCallback RetrieveTrigger s0 = Some (with_dog (Dog.retrieve (dog s0)) s0)).
Proof.
  intros Hwf world after. subst after. rewrite shotsFired_result, shotsFired_scene.
  fold world. cbn [heap with_heap].
  destruct (shotsFiredLoop_spec world (ducks s) (heap s) 0 (wf_roster_nodup _ Hwf))
    as (Hn & _ & Hin & Hout).
  split; [by rewrite Hn|]. split; [intros r; apply hitAt_spec|].
  split; [|split; [exact Hout|done]].
  intros r Hr Hhit. rewrite (Hin r Hr Hhit).
  apply hitAt_spec in Hhit as (d & Hd & _ & _). exists d. rewrite Hd.
  split; [done|]. split; [done|]. split; [done|]. split; [|done].
  unfold downed, Duck.timelineAdd, Duck.shot. simpl. by rewrite <- app_assoc.
Qed.

Lemma shotsFired_counts_alive_in_radius_witness :
  wf Examples.four ∧
  (shotsFired DUCK_POINTS.ORIGIN Examples.four).2
  = length (List.filter (hitAt (heap Examples.four)
                           (scaleClick (scale Examples.four) DUCK_POINTS.ORIGIN))
              (ducks Examples.four)).
Proof.
  split; [exact wf_four|].
  exact (proj1 (shotsFired_counts_alive_in_radius Examples.four DUCK_POINTS.ORIGIN wf_four)).
Defined.

Lemma wf_probe a b c : wf (probe a b c).
Proof.
  split; simpl.
  - apply NoDup_singleton.
  - intros r ->%list_elem_of_singleton. lia.
  - compute_done.
  - intros r. rewrite !elem_of_cons, elem_of_nil.
    intros [[= ->]|[?|[?|[?|[?|[?|?]]]]]]; try done. lia.
  - compute_done.
  - intros [|r] d cb p Hr; simpl in Hr; [|done]. injection Hr as <-.
    unfold duckCallbacks. simpl. intros Hcb. exfalso.
    destruct c, b; simpl in Hcb; by apply elem_of_nil in Hcb.
  - unfold dogCallbacks. simpl. intros cb p Hcb. exfalso.
    destruct a; simpl in Hcb; by apply elem_of_nil in Hcb.
  - intros jn Hjn. by apply elem_of_nil in Hjn.
Qed.

(** C3.  [isActive()] is the three-way disjunction of [dogActive()],
    [ducksAlive()] and [ducksActive()]: true as soon as one of them is true,
    false only when all three are false; and each of the eight combinations
    of the three flags occurs in a well-formed scene, where [isActive()] is
    their disjunction. *)
Theorem isActive_three_way_or :
  (∀ s, isActive s = dogActive s || ducksAlive s || ducksActive s) ∧
  (∀ s, isActive s = true ↔
        dogActive s = true ∨ ducksAlive s = true ∨ ducksActive s = true) ∧
  (∀ s, isActive s = false ↔
        dogActive s = false ∧ ducksAlive s = false ∧ ducksActive s = false) ∧
  (∀ a b c, wf (probe a b c) ∧
            dogActive (probe a b c) = a ∧ ducksAlive (probe a b c) = b ∧
            ducksActive (probe a b c) = c ∧ isActive (probe a b c) = a || b || c).
Proof.
  split; [done|]. split; [|split].
  - intros s. unfold isActive. rewrite !orb_true_iff. tauto.
  - intros s. unfold isActive. rewrite !orb_false_iff. tauto.
  - intros a b c. split; [apply wf_probe|]. by destruct a, b, c.
Qed.

(** ** C4 *)

Lemma existsb_agree {A} (f g : A → bool) (l : list A) :
  (∀ x, x ∈ l → f x = g x) → existsb f l = existsb g l.
Proof.
  induction l as [|x l IH]; intros Hfg; simpl; [done|].
  rewrite (Hfg x) by (apply elem_of_cons; by left).
  rewrite IH; [done|]. intros y Hy. apply Hfg, elem_of_cons. by right.
Qed.

(** C4, as the code has it.  In a well-formed scene, [addDucks(n, s)] returns
    normally, the roster has grown by exactly [n], and afterwards
    [ducksAlive()] is true iff [n > 0] or a roster member was alive before
    the call; in particular, when no member was alive before the call, it is
    true afterwards iff [n > 0]. *)
Theorem addDucks_roster_and_alive (n : nat) (speed : float) (s : Scene) :
  wf s →
  ∃ s', addDucks n speed s = Some s' ∧
        length (ducks s') = length (ducks s) + n ∧
        (ducksAlive s' = true ↔ ducksAlive s = true ∨ 0 < n) ∧
        (ducksAlive s = false → (ducksAlive s' = true ↔ 0 < n)).
Proof.
  intros Hwf.
  destruct (addDucksFrom_spec n 0 speed s Hwf) as (s' & Hrun & _ & Hd & Hh & _).
  exists s'. split; [exact Hrun|]. split; [by rewrite Hd, length_app, length_seq|].
  assert (ducksAlive s' = ducksAlive s || bool_decide (0 < n)) as Halive.
  { unfold ducksAlive. rewrite Hd, existsb_app. f_equal.
    - apply existsb_agree. intros r Hr. unfold duckAlive.
      rewrite Hh, lookup_app_l; [done|]. by apply (wf_roster_alloc _ Hwf).
    - destruct n as [|n]; [done|]. rewrite bool_decide_true by lia.
      cbn [seq existsb]. unfold duckAlive at 1.
      rewrite Hh, lookup_app_r, Nat.sub_diag by lia. done. }
  rewrite Halive, orb_true_iff, bool_decide_eq_true.
  split; [done|]. intros ->. split; [by intros [|]|by right].
Qed.

Lemma addDucks_roster_and_alive_witness :
  wf Examples.fresh ∧
  ∃ s', addDucks 4 5%float Examples.fresh = Some s' ∧
        length (ducks s') = length (ducks Examples.fresh) + 4 ∧
        (ducksAlive s' = true ↔ ducksAlive Examples.fresh = true ∨ 0 < 4) ∧
        (ducksAlive Examples.fresh = false → (ducksAlive s' = true ↔ 0 < 4)).
Proof.
  split; [exact wf_fresh|].
  exact (addDucks_roster_and_alive 4 5%float Examples.fresh wf_fresh).
Defined.

(** C4 as stated fails: with a duck alive on the roster, [addDucks(0, s)]
    leaves [ducksAlive()] true although [n > 0] is false. *)
Lemma addDucks_zero_keeps_alive :
  wf Examples.four ∧
  ∃ s', addDucks 0 5%float Examples.four = Some s' ∧
        length (ducks s') = length (ducks Examples.four) + 0 ∧
        ¬ (ducksAlive s' = true ↔ 0 < 0).
Proof.
  split; [exact wf_four|]. exists Examples.four.
  split; [done|]. split; [done|].
  intros [H _]. assert (0 < 0) as Hlt by (apply H; by vm_compute). lia.
Qed.

(** ** C7 *)

Lemma with_heap_same s : with_heap (heap s) s = s.
Proof. by destruct s. Qed.

(** C7, as the code has it.  On an empty roster [shotsFired(P)] returns 0 and
    changes nothing about the roster, the ducks, the dog, the display list
    and the promises; it still shows the flash screen, starts the timer that
    hides it again, and divides the caller's point by the scale. *)
Theorem shotsFired_empty_roster (P : Point) (s : Scene) :
  ducks s = [] →
  shotsFired P s =
  (with_timers (timers s ++ [FLASH_MS]) (with_flashVisible true s),
   scaleClick (scale s) P, 0).
Proof.
  intros Hempty. unfold shotsFired.
  cbn [ducks heap scale with_timers with_flashVisible].
  rewrite Hempty. cbn [shotsFiredLoop].
  by rewrite <- (with_heap_same s) at 2.
Qed.

Lemma shotsFired_empty_roster_witness :
  ducks Examples.fresh = [] ∧
  shotsFired DUCK_POINTS.ORIGIN Examples.fresh =
  (with_timers (timers Examples.fresh ++ [FLASH_MS]) (with_flashVisible true Examples.fresh),
   scaleClick (scale Examples.fresh) DUCK_POINTS.ORIGIN, 0).
Proof.
  split; [reflexivity|].
  apply (shotsFired_empty_roster DUCK_POINTS.ORIGIN Examples.fresh). reflexivity.
Defined.

(** C7 as stated fails: on the empty roster of a new stage the call returns
    0 but the scene has changed, the flash screen is now visible and a timer
    is pending. *)
Lemma empty_roster_shot_still_flashes :
  ducks Examples.fresh = [] ∧
  (shotsFired DUCK_POINTS.ORIGIN Examples.fresh).2 = 0 ∧
  flashVisible Examples.fresh = false ∧
  flashVisible (shotsFired DUCK_POINTS.ORIGIN Examples.fresh).1.1 = true ∧
  timers Examples.fresh = [] ∧
  timers (shotsFired DUCK_POINTS.ORIGIN Examples.fresh).1.1 = [FLASH_MS] ∧
  (shotsFired DUCK_POINTS.ORIGIN Examples.fresh).1.1 ≠ Examples.fresh.
Proof.
  repeat split; try reflexivity.
  intros H. apply (f_equal flashVisible) in H. vm_compute in H. discriminate.
Qed.

(** ** C8 and C9 *)

Lemma scale_runCallback cb s s' : runCallback cb s = Some s' → scale s' = scale s.
Proof.
  destruct cb; simpl; try (by intros [= <-]).
  destruct (Container.setChildIndex _ _ _); simpl; [|done]. by intros [= <-].
Qed.

Lemma scale_addDucksFrom n : ∀ i speed s s',
  addDucksFrom i n speed s = Some s' → scale s' = scale s.
Proof.
  induction n as [|n IH]; intros i speed s s'; cbn [addDucksFrom].
  - by intros [= <-].
  - destruct (Container.addChildAt _ _ _) as [cs|]; cbn [mbind option_bind]; [|done].
    intros Hrun. by apply IH in Hrun.
Qed.

Lemma scale_step e s s' :
  step e s = Some s' → (∀ window, e ≠ EvScaleToWindow window) → scale s' = scale s.
Proof.
  destruct e; cbn [step]; intros Hstep Hne.
  - by destruct (Hne window).
  - by injection Hstep as <-.
  - by apply scale_addDucksFrom in Hstep.
  - injection Hstep as <-. by rewrite shotsFired_scene.
  - injection Hstep as <-. by rewrite flyAway_unfold.
  - by injection Hstep as <-.
  - unfold duckStepDone in Hstep. destruct (heap s !! r) as [d|]; simpl in Hstep; [|done].
    destruct (timeline d) as [|[]]; try done; try (by injection Hstep as <-);
      by apply scale_runCallback in Hstep.
  - unfold dogStepDone in Hstep.
    destruct (dogTimeline (dog s)) as [|[]]; try done; try (by injection Hstep as <-).
    by apply scale_runCallback in Hstep.
  - unfold settle in Hstep. destruct (joins s !! j) as [jn|]; simpl in Hstep; [|done].
    destruct (settled jn); [done|]. destruct (forallb _ _); [|done].
    by injection Hstep as <-.
  - unfold timerFired in Hstep. destruct (timers s !! i); simpl in Hstep; [|done].
    by injection Hstep as <-.
Qed.

(** C8, as the code has it.  [scaleToWindow()] stores two scale factors, the
    window's width over the stage's width and the window's height over the
    stage's height; [shotsFired] divides the point's [x] by the first and
    its [y] by the second; and no other operation or event changes the
    stored factors. *)
Theorem scale_per_axis_and_cached (window : Window) (s : Scene) (P : Point) :
  scale (scaleToWindow window s)
  = mkPoint (innerWidth window / MAX_X)%float (innerHeight window / MAX_Y)%float ∧
  (shotsFired P (scaleToWindow window s)).1.2
  = mkPoint (px P / (innerWidth window / MAX_X))%float
            (py P / (innerHeight window / MAX_Y))%float ∧
  (shotsFired P s).1.2 = mkPoint (px P / px (scale s))%float (py P / py (scale s))%float ∧
  (∀ e s', step e s = Some s' → (∀ w, e ≠ EvScaleToWindow w) → scale s' = scale s).
Proof.
  split; [done|]. split; [by rewrite shotsFired_point|].
  split; [by rewrite shotsFired_point|].
  intros e s'. apply scale_step.
Qed.

(** C8 as stated fails: in a window twice as wide as the stage and exactly as
    high, the point (100, 100) is mapped to (50, 100), which is not
    (100 / k, 100 / k) for any single factor [k]. *)
Lemma no_uniform_scale_factor :
  (shotsFired (mkPoint 100 100) (constructor Examples.wide)).1.2 = mkPoint 50 100 ∧
  ¬ ∃ k : float,
      (shotsFired (mkPoint 100 100) (constructor Examples.wide)).1.2
      = mkPoint (100 / k)%float (100 / k)%float.
Proof.
  split; [reflexivity|]. intros [k Hk].
  change ((shotsFired (mkPoint 100 100) (constructor Examples.wide)).1.2)
    with (mkPoint 50 100) in Hk.
  injection Hk as Hx Hy. rewrite <- Hy in Hx.
  apply (f_equal (λ f, (f <? 75)%float)) in Hx. vm_compute in Hx. discriminate.
Qed.

(** C9.  [shotsFired(P)] writes into the caller's point: after the call its
    [x] is the old [x] divided by [scale.x] and its [y] the old [y] divided
    by [scale.y], so the point the caller passed is in general not the point
    it gets back (a stage scaled by 2 and 1 turns (100, 100) into
    (50, 100)). *)
Theorem shotsFired_overwrites_point :
  (∀ s P, (shotsFired P s).1.2
          = mkPoint (px P / px (scale s))%float (py P / py (scale s))%float) ∧
  (shotsFired (mkPoint 100 100) (constructor Examples.wide)).1.2 = mkPoint 50 100 ∧
  (shotsFired (mkPoint 100 100) (constructor Examples.wide)).1.2 ≠ mkPoint 100 100.
Proof.
  split; [intros s P; by rewrite shotsFired_point|]. split; [reflexivity|].
  change ((shotsFired (mkPoint 100 100) (constructor Examples.wide)).1.2)
    with (mkPoint 50 100).
  intros H. apply (f_equal (λ q, (px q <? 75)%float)) in H.
  vm_compute in H. discriminate.
Qed.

Lemma scale_per_axis_and_cached_witness :
  step EvFlyAway (constructor Examples.wide)
  = Some (flyAway (constructor Examples.wide)).1 ∧
  (∀ w, EvFlyAway ≠ EvScaleToWindow w) ∧
  scale (flyAway (constructor Examples.wide)).1 = scale (constructor Examples.wide).
Proof.
  split; [reflexivity|]. split; [discriminate|].
  apply (proj2 (proj2 (proj2
    (scale_per_axis_and_cached Examples.wide (constructor Examples.wide) DUCK_POINTS.ORIGIN)))
    EvFlyAway); [reflexivity|discriminate].
Defined.

(** ** The flee sequence *)

(** Everything [flyAway] does, [k] ducks being alive on the roster: [k]
    deferreds are created, one per such duck in roster order, then the one of
    the chained promise. *)
Lemma flyAway_fields s :
  wf s →
  let k := length (fleeing (heap s) (ducks s)) in
  let after := (flyAway s).1 in
  (flyAway s).2 = length (deferreds s) + k ∧
  deferreds after = deferreds s ++ replicate (S k) 0 ∧
  joins after
  = joins s ++ [mkJoin (seq (length (deferreds s)) k) (length (deferreds s) + k) false] ∧
  dog after = Dog.laugh (dog s) ∧ ducks after = ducks s ∧ children after = children s ∧
  flashVisible after = flashVisible s ∧ scale after = scale s ∧ timers after = timers s ∧
  length (heap after) = length (heap s) ∧
  (∀ i r, fleeing (heap s) (ducks s) !! i = Some r →
          heap after !! r = fled (length (deferreds s) + i) <$> heap s !! r) ∧
  (∀ r, r ∉ fleeing (heap s) (ducks s) → heap after !! r = heap s !! r).
Proof.
  intros Hwf k after. subst after. rewrite flyAway_unfold. cbn [fst snd].
  destruct (flyAwayLoop_spec (ducks s) (heap s) (deferreds s) [] (wf_roster_nodup _ Hwf))
    as (Hds & Hqs & Hlen & Hin & Hout).
  fold k in Hds, Hqs.
  destruct (flyAwayLoop _ _ _ _) as [[h ds] qs]. cbn [fst snd] in *. subst ds qs.
  cbn [deferreds joins dog ducks children flashVisible scale timers heap
       with_joins with_heap with_deferreds with_dog].
  rewrite length_app, length_replicate.
  split; [done|]. split.
  { rewrite <- app_assoc. f_equal. by rewrite replicate_S_end. }
  repeat (split; [done|]). done.
Qed.

Lemma downed_steps r d0 dest1 dest2 s :
  heap s !! r = Some (downed d0) →
  run [EvDuckStep r dest1; EvDuckStep r dest2] s
  = Some (with_dog (Dog.retrieve (dog s))
            (with_heap (<[r := moveDuck dest1 [] (downed d0)]> (heap s)) s)).
Proof.
  intros Hr. pose proof (lookup_lt_Some _ _ _ Hr) as Hlt.
  set (s1 := with_heap (<[r := moveDuck dest1 [Deferred RetrieveTrigger] (downed d0)]> (heap s)) s).
  assert (duckStepDone r dest1 s = Some s1) as Hs1.
  { unfold duckStepDone. by rewrite Hr. }
  assert (duckStepDone r dest2 s1
          = Some (with_dog (Dog.retrieve (dog s))
                    (with_heap (<[r := moveDuck dest1 [] (downed d0)]> (heap s)) s))) as Hs2.
  { unfold duckStepDone, s1. cbn [heap with_heap].
    rewrite list_lookup_insert_eq by done.
    cbn [mbind option_bind moveDuck timeline runCallback position heap dog with_heap].
    by rewrite list_insert_insert_eq. }
  cbn [run step]. rewrite Hs1. cbn [mbind option_bind]. by rewrite Hs2.
Qed.

(** C6, as the code has it.  In a well-formed scene, [flyAway()] sends every
    roster member that is alive [stopAndClearTimeline()] and then [flyTo]
    towards the exit point (400, -500), with a deferred of its own, so that
    afterwards the timeline of that duck holds the flight to the exit and
    nothing else.  A roster member that is not alive receives no command and
    keeps its timeline, and [flyAway] itself removes nothing from the roster
    or the display list.  So the retrieve trigger that a hit queued on a
    roster member is not cancelled: when the death animation of that duck
    and then the trigger complete after [flyAway()], the dog's [retrieve()]
    is called while the promise of the flee is still unresolved. *)
Theorem flyAway_clears_alive_only (s : Scene) :
  wf s →
  let after := (flyAway s).1 in
  let p := (flyAway s).2 in
  dog after = Dog.laugh (dog s) ∧ ducks after = ducks s ∧ children after = children s ∧
  (∀ r, r ∈ ducks s → aliveAt (heap s) r = true →
        ∃ d q, heap s !! r = Some d ∧ alive d = true ∧
               deferreds s !! q = None ∧ deferreds after !! q = Some 0 ∧
               heap after !! r = Some (fled q d) ∧
               timeline (fled q d) = [Fly FLY_AWAY_POINT (ResolveDeferred q)] ∧
               calls (fled q d)
               = calls d ++ [CallStopAndClearTimeline;
                             CallFlyTo FLY_AWAY_POINT (ResolveDeferred q)]) ∧
  (∀ r, ¬ (r ∈ ducks s ∧ aliveAt (heap s) r = true) → heap after !! r = heap s !! r) ∧
  (∀ r d0 dest1 dest2, r ∈ ducks s → heap s !! r = Some (downed d0) →
        heap after !! r = Some (downed d0) ∧
        timeline (downed d0) = [Death; Deferred RetrieveTrigger] ∧
        ∃ s', run [EvDuckStep r dest1; EvDuckStep r dest2] after = Some s' ∧
              dogTimeline (dog s') = dogTimeline (dog s) ++ [Laugh; Retrieve] ∧
              isResolved s' p = false).
Proof.
  intros Hwf after p.
  destruct (flyAway_fields s Hwf)
    as (Hp & Hds & _ & Hdog & Hducks & Hch & _ & _ & _ & _ & Hin & Hout).
  fold after in Hds, Hdog, Hducks, Hch, Hin, Hout. fold p in Hp.
  split; [done|]. split; [done|]. split; [done|]. split; [|split].
  - intros r Hr Halive.
    assert (r ∈ fleeing (heap s) (ducks s)) as Hfl by (by apply elem_of_fleeing).
    apply list_elem_of_lookup in Hfl as [i Hi].
    pose proof (lookup_lt_Some _ _ _ Hi) as Hlt.
    unfold aliveAt in Halive. destruct (heap s !! r) as [d|] eqn:Hd; [|done].
    exists d, (length (deferreds s) + i).
    split; [done|]. split; [done|]. split; [apply lookup_ge_None; lia|]. split.
    { rewrite Hds, lookup_app_r by lia. apply lookup_replicate. split; [done|lia]. }
    split; [by rewrite (Hin i r Hi), Hd|]. split; [done|].
    cbn. by rewrite <- app_assoc.
  - intros r Hr. apply Hout. by rewrite elem_of_fleeing.
  - intros r d0 dest1 dest2 Hr Hd.
    assert (heap after !! r = Some (downed d0)) as Hd'.
    { rewrite Hout; [done|]. rewrite elem_of_fleeing. unfold aliveAt. rewrite Hd.
      by intros [_ ?]. }
    split; [done|]. split; [done|].
    eexists. split; [by apply downed_steps|].
    split.
    + cbn [dog with_dog with_heap]. rewrite Hdog. cbn. by rewrite <- app_assoc.
    + unfold isResolved, resolveCalls. cbn [deferreds with_dog with_heap].
      rewrite Hds, Hp, lookup_app_r by lia.
      set (k := length (fleeing (heap s) (ducks s))).
      assert (replicate (S k) 0 !! (length (deferreds s) + k - length (deferreds s)) = Some 0)
        as ->; [|done].
      apply lookup_replicate. split; [done|lia].
Qed.

Lemma wf_midflee : wf MidFlee.before.
Proof.
  apply (wf_run [EvAddDucks 1 5%float; EvShotsFired DUCK_POINTS.ORIGIN; EvAddDucks 1 5%float]
           Examples.fresh); [exact wf_fresh|].
  vm_compute. reflexivity.
Qed.

Lemma flyAway_clears_alive_only_witness :
  wf MidFlee.before ∧ 0 ∈ ducks MidFlee.before ∧
  (∃ d0, heap MidFlee.before !! 0 = Some (downed d0)) ∧
  ∃ s', run [EvDuckStep 0 DUCK_POINTS.ORIGIN; EvDuckStep 0 DUCK_POINTS.ORIGIN]
            (flyAway MidFlee.before).1 = Some s' ∧
        dogTimeline (dog s') = dogTimeline (dog MidFlee.before) ++ [Laugh; Retrieve] ∧
        isResolved s' (flyAway MidFlee.before).2 = false.
Proof.
  split; [exact wf_midflee|].
  assert (0 ∈ ducks MidFlee.before) as Hr by (vm_compute; apply list_elem_of_here).
  split; [exact Hr|].
  assert (heap MidFlee.before !! 0
          = Some (downed (spawned 0 5%float))) as Hd by (vm_compute; reflexivity).
  split; [by eexists|].
  destruct (flyAway_clears_alive_only MidFlee.before wf_midflee)
    as (_ & _ & _ & _ & _ & Hdead).
  destruct (Hdead 0 (spawned 0 5%float) DUCK_POINTS.ORIGIN DUCK_POINTS.ORIGIN Hr Hd)
    as (_ & _ & Hfire).
  exact Hfire.
Defined.

(** C6 as stated fails: with a shot duck and a flying duck on the roster,
    [flyAway()] leaves the timeline of the shot duck as it was, and the
    retrieve trigger queued on it by the hit fires, calling the dog's
    [retrieve()], while the other duck is still on its way to the exit and
    the promise of the flee is unresolved. *)
Lemma retrieve_trigger_fires_mid_flee :
  ducks MidFlee.before = [0; 1] ∧
  timeline <$> heap MidFlee.before !! 0 = Some [Death; Deferred RetrieveTrigger] ∧
  aliveAt (heap MidFlee.before) 0 = false ∧ aliveAt (heap MidFlee.before) 1 = true ∧
  timeline <$> heap (flyAway MidFlee.before).1 !! 0
  = Some [Death; Deferred RetrieveTrigger] ∧
  timeline <$> heap (flyAway MidFlee.before).1 !! 1
  = Some [Fly FLY_AWAY_POINT (ResolveDeferred 0)] ∧
  ∃ s', run [EvDuckStep 0 DUCK_POINTS.ORIGIN; EvDuckStep 0 DUCK_POINTS.ORIGIN]
            (flyAway MidFlee.before).1 = Some s' ∧
        dogTimeline (dog (flyAway MidFlee.before).1) = [Laugh] ∧
        dogTimeline (dog s') = [Laugh; Retrieve] ∧
        duckActive s' 1 = true ∧
        isResolved s' (flyAway MidFlee.before).2 = false.
Proof.
  split; [vm_compute; reflexivity|]. split; [vm_compute; reflexivity|].
  split; [vm_compute; reflexivity|]. split; [vm_compute; reflexivity|].
  split; [vm_compute; reflexivity|]. split; [vm_compute; reflexivity|].
  eexists. split; [vm_compute; reflexivity|].
  split; [vm_compute; reflexivity|]. split; [vm_compute; reflexivity|].
  split; vm_compute; reflexivity.
Qed.

Lemma fleeing_nobody s : ducksAlive s = false → fleeing (heap s) (ducks s) = [].
Proof.
  unfold ducksAlive, fleeing. change (duckAlive s) with (aliveAt (heap s)).
  induction (ducks s) as [|r rs IH]; simpl; [done|].
  intros [-> Hrs]%orb_false_iff. by apply IH.
Qed.

(** C10.  When no roster member is alive, [flyAway()] awaits no deferred at
    all and commands no duck; the continuation of the chain is ready at once,
    and when it runs the returned promise resolves, every roster member,
    all of them dead, is taken off the display list, and the roster is
    empty. *)
Theorem flyAway_nobody_alive (s : Scene) :
  wf s → ducksAlive s = false →
  let s1 := (flyAway s).1 in
  let p := (flyAway s).2 in
  let j := length (joins s) in
  joins s1 !! j = Some (mkJoin [] p false) ∧
  isResolved s1 p = false ∧ heap s1 = heap s ∧ ducks s1 = ducks s ∧
  ∃ s2, step (EvSettle j) s1 = Some s2 ∧
        isResolved s2 p = true ∧ resolveCalls s2 p = 1 ∧
        ducks s2 = [] ∧
        children s2 = removeDucks (ducks s) (children s) ∧
        (∀ r, r ∈ ducks s → DuckSprite r ∉ children s2).
Proof.
  intros Hwf Hdead s1 p j.
  destruct (flyAway_fields s Hwf)
    as (Hp & Hds & Hjs & _ & Hducks & Hch & _ & _ & _ & Hlen & _ & Hout).
  fold s1 in Hds, Hjs, Hducks, Hch, Hlen, Hout. fold p in Hp.
  rewrite (fleeing_nobody s Hdead) in *. cbn [length seq replicate] in *.
  rewrite Nat.add_0_r in *.
  assert (joins s1 !! j = Some (mkJoin [] p false)) as Hj.
  { rewrite Hjs, lookup_app_r, Nat.sub_diag, Hp by done. done. }
  assert (resolveCalls s1 p = 0) as Hzero.
  { unfold resolveCalls. by rewrite Hds, Hp, lookup_app_r, Nat.sub_diag. }
  split; [done|]. split; [unfold isResolved; by rewrite Hzero|].
  split.
  { apply list_eq. intros r. apply Hout, not_elem_of_nil. }
  split; [done|].
  eexists. cbn [step]. unfold settle. rewrite Hj. cbn [mbind option_bind settled awaited forallb result].
  split; [reflexivity|].
  assert (resolveCalls
            (resolve p (cleanUpDucks (with_joins (<[j := mkJoin [] p true]> (joins s1)) s1))) p
          = 1) as Hone.
  { rewrite resolveCalls_resolve_eq.
    - cbn [cleanUpDucks with_ducks with_children with_joins deferreds].
      f_equal. exact Hzero.
    - cbn [cleanUpDucks with_ducks with_children with_joins deferreds].
      rewrite Hds, length_app, Hp. simpl. lia. }
  split; [unfold isResolved; by rewrite Hone|]. split; [done|].
  split; [done|].
  cbn [resolve cleanUpDucks with_deferreds with_ducks with_children with_joins children ducks].
  rewrite Hducks, Hch. split; [done|].
  intros r Hr. apply removeDucks_gone; [apply Hwf|done].
Qed.

Lemma flyAway_nobody_alive_witness :
  wf (shotsFired DUCK_POINTS.ORIGIN Examples.four).1.1 ∧
  ducksAlive (shotsFired DUCK_POINTS.ORIGIN Examples.four).1.1 = false ∧
  ducks (flyAway (shotsFired DUCK_POINTS.ORIGIN Examples.four).1.1).1
  = ducks (shotsFired DUCK_POINTS.ORIGIN Examples.four).1.1.
Proof.
  split; [exact (wf_shotsFired DUCK_POINTS.ORIGIN Examples.four wf_four)|].
  split; [vm_compute; reflexivity|].
  exact (proj1 (proj2 (proj2 (proj2
    (flyAway_nobody_alive (shotsFired DUCK_POINTS.ORIGIN Examples.four).1.1
       (wf_shotsFired DUCK_POINTS.ORIGIN Examples.four wf_four)
       ltac:(vm_compute; reflexivity)))))).
Defined.

(** ** What one event can change *)

Lemma runCallback_frame cb s s' :
  runCallback cb s = Some s' →
  heap s' = heap s ∧ joins s' = joins s ∧ ducks s' = ducks s ∧
  dogCallbacks (dog s') = dogCallbacks (dog s) ∧
  length (deferreds s') = length (deferreds s).
Proof.
  destruct cb as [p|p|]; simpl.
  - intros [= <-]. simpl. by rewrite length_alter.
  - destruct (Container.setChildIndex _ _ _); simpl; [|done].
    intros [= <-]. simpl. by rewrite length_alter.
  - intros [= <-]. simpl. unfold Dog.retrieve. rewrite dogCallbacks_enqueue.
    by rewrite app_nil_r.
Qed.

Lemma duck_step_cases e s s' r d' :
  wf s → step e s = Some s' → heap s' !! r = Some d' →
  (∃ d, heap s !! r = Some d ∧ duckChange s e r d d') ∨
  (heap s !! r = None ∧ ∃ i speed, d' = spawned i speed).
Proof.
  intros Hwf Hstep Hr.
  assert (heap s' = heap s → ∃ d, heap s !! r = Some d ∧ duckChange s e r d d') as Hsame.
  { intros Heq. rewrite Heq in Hr. exists d'. split; [done|constructor]. }
  destruct e; cbn [step] in Hstep.
  - left. apply Hsame. by injection Hstep as <-.
  - left. apply Hsame. by injection Hstep as <-.
  - destruct (addDucksFrom_spec numDucks 0 speed s Hwf) as (s'' & Hrun & _ & _ & Hh & _).
    unfold addDucks in Hstep. rewrite Hrun in Hstep. injection Hstep as <-.
    rewrite Hh in Hr. apply lookup_app_Some in Hr as [Hr|[Hge Hr]].
    + left. exists d'. split; [done|constructor].
    + right. split; [by apply lookup_ge_None|].
      rewrite list_lookup_fmap in Hr.
      destruct (seq 0 numDucks !! (r - length (heap s))) as [i|]; [|done].
      injection Hr as <-. by exists i, speed.
  - injection Hstep as <-. rewrite shotsFired_scene in Hr. cbn [heap with_heap] in Hr.
    destruct (shotsFiredLoop_spec (scaleClick (scale s) clickPoint) (ducks s) (heap s) 0
                (wf_roster_nodup _ Hwf)) as (_ & _ & Hin & Hout).
    left.
    destruct (decide (r ∈ ducks s ∧ hitAt (heap s) (scaleClick (scale s) clickPoint) r = true))
      as [[Hr1 Hr2]|Hno].
    + rewrite (Hin r Hr1 Hr2) in Hr. destruct (heap s !! r) as [d|]; [|done].
      injection Hr as <-. exists d. split; [done|constructor].
    + rewrite (Hout r Hno) in Hr. exists d'. split; [done|constructor].
  - injection Hstep as <-.
    destruct (flyAway_fields s Hwf) as (_ & _ & _ & _ & _ & _ & _ & _ & _ & _ & Hin & Hout).
    left. destruct (decide (r ∈ fleeing (heap s) (ducks s))) as [Hfl|Hfl].
    + apply list_elem_of_lookup in Hfl as [i Hi]. rewrite (Hin i r Hi) in Hr.
      destruct (heap s !! r) as [d|]; [|done]. injection Hr as <-.
      exists d. split; [done|]. constructor. lia.
    + rewrite (Hout r Hfl) in Hr. exists d'. split; [done|constructor].
  - left. apply Hsame. by injection Hstep as <-.
  - left. unfold duckStepDone in Hstep.
    destruct (heap s !! r0) as [d0|] eqn:Hr0; simpl in Hstep; [|done].
    destruct (timeline d0) as [|st rest] eqn:Ht; [done|].
    assert (∀ pt rest', heap s' = <[r0 := moveDuck pt rest' d0]> (heap s) →
              (r = r0 → duckChange s (EvDuckStep r0 dest) r d0 (moveDuck pt rest' d0)) →
              ∃ d, heap s !! r = Some d ∧ duckChange s (EvDuckStep r0 dest) r d d') as Hcase.
    { intros pt rest' Heq Hch. rewrite Heq in Hr.
      apply list_lookup_insert_Some in Hr as [(<- & <- & _)|[Hne Hr]].
      - exists d0. split; [done|]. by apply Hch.
      - exists d'. split; [done|constructor]. }
    destruct st as [speed| |point onComplete|cb0].
    + injection Hstep as <-. apply (Hcase dest (rest ++ [Flight speed])); [done|].
      intros ->. by eapply dc_rotated.
    + injection Hstep as <-. apply (Hcase dest rest); [done|].
      intros ->. by eapply dc_popped.
    + apply runCallback_frame in Hstep as (Hh & _). apply (Hcase point rest); [done|].
      intros ->. by eapply dc_popped.
    + apply runCallback_frame in Hstep as (Hh & _). apply (Hcase (position d0) rest); [done|].
      intros ->. by eapply dc_popped.
  - left. apply Hsame. unfold dogStepDone in Hstep.
    destruct (dogTimeline (dog s)) as [|[]]; try done; try (by injection Hstep as <-).
    by apply runCallback_frame in Hstep as (Hh & _).
  - left. apply Hsame. unfold settle in Hstep.
    destruct (joins s !! j) as [jn|]; simpl in Hstep; [|done].
    destruct (settled jn); [done|]. destruct (forallb _ _); [|done].
    by injection Hstep as <-.
  - left. apply Hsame. unfold timerFired in Hstep.
    destruct (timers s !! i); simpl in Hstep; [|done]. by injection Hstep as <-.
Qed.

Lemma duckChange_callbacks s e r d d' cb p :
  duckChange s e r d d' → cb ∈ duckCallbacks d' → target cb = Some p →
  p < length (deferreds s) → cb ∈ duckCallbacks d.
Proof.
  intros Hch Hcb Hp Hlt. destruct Hch as [| |q Hq|dest st rest pt _ Ht|dest speed rest _ Ht].
  - done.
  - apply list_elem_of_singleton in Hcb as ->. done.
  - apply list_elem_of_singleton in Hcb as ->. injection Hp as <-. lia.
  - unfold duckCallbacks. rewrite Ht. by apply elem_of_duckCallbacks_tail.
  - unfold duckCallbacks in *. rewrite Ht. simpl in *.
    rewrite bind_app in Hcb. simpl in Hcb. by rewrite app_nil_r in Hcb.
Qed.

Lemma dog_step_frame e s s' cb p :
  wf s → step e s = Some s' → cb ∈ dogCallbacks (dog s') → target cb = Some p →
  p < length (deferreds s) → cb ∈ dogCallbacks (dog s).
Proof.
  intros Hwf Hstep Hcb Hp Hlt. destruct e; cbn [step] in Hstep.
  - by injection Hstep as <-.
  - injection Hstep as <-. revert Hcb. unfold preLevelAnimation. cbn [fst dog with_dog].
    unfold Dog.find, Dog.sniff. rewrite !dogCallbacks_enqueue. simpl.
    rewrite app_nil_r, elem_of_app, list_elem_of_singleton.
    intros [Hcb| ->]; [done|]. injection Hp as <-. lia.
  - destruct (addDucksFrom_spec numDucks 0 speed s Hwf) as (s'' & Hrun & _ & _ & _ & _ & Hd & _).
    unfold addDucks in Hstep. rewrite Hrun in Hstep. injection Hstep as <-.
    by rewrite Hd in Hcb.
  - injection Hstep as <-. by rewrite shotsFired_scene in Hcb.
  - injection Hstep as <-.
    destruct (flyAway_fields s Hwf) as (_ & _ & _ & Hd & _).
    by rewrite Hd, dogCallbacks_laugh in Hcb.
  - by injection Hstep as <-.
  - unfold duckStepDone in Hstep.
    destruct (heap s !! r) as [d0|]; simpl in Hstep; [|done].
    destruct (timeline d0) as [|[]]; try done; try (by injection Hstep as <-);
      apply runCallback_frame in Hstep as (_ & _ & _ & Hd & _); by rewrite Hd in Hcb.
  - unfold dogStepDone in Hstep.
    destruct (dogTimeline (dog s)) as [|st rest] eqn:Ht; [done|].
    assert (cb ∈ rest ≫= dogStepCallbacks → cb ∈ dogCallbacks (dog s)) as Htail.
    { unfold dogCallbacks. rewrite Ht. simpl. rewrite elem_of_app. by right. }
    destruct st; try (injection Hstep as <-; by apply Htail).
    apply runCallback_frame in Hstep as (_ & _ & _ & Hd & _). rewrite Hd in Hcb.
    by apply Htail.
  - unfold settle in Hstep. destruct (joins s !! j) as [jn|]; simpl in Hstep; [|done].
    destruct (settled jn); [done|]. destruct (forallb _ _); [|done].
    by injection Hstep as <-.
  - unfold timerFired in Hstep. destruct (timers s !! i); simpl in Hstep; [|done].
    by injection Hstep as <-.
Qed.

Lemma joins_step_frame e s s' j jn' :
  wf s → step e s = Some s' → joins s' !! j = Some jn' →
  (∃ jn, joins s !! j = Some jn ∧ awaited jn' = awaited jn ∧ result jn' = result jn ∧
         (settled jn' = false → settled jn = false)) ∨
  (joins s !! j = None ∧ length (deferreds s) ≤ result jn').
Proof.
  intros Hwf Hstep Hj.
  assert (joins s' = joins s →
          ∃ jn, joins s !! j = Some jn ∧ awaited jn' = awaited jn ∧ result jn' = result jn ∧
                (settled jn' = false → settled jn = false)) as Hsame.
  { intros Heq. rewrite Heq in Hj. by exists jn'. }
  destruct e; cbn [step] in Hstep.
  - left. apply Hsame. by injection Hstep as <-.
  - left. apply Hsame. by injection Hstep as <-.
  - destruct (addDucksFrom_spec numDucks 0 speed s Hwf)
      as (s'' & Hrun & _ & _ & _ & _ & _ & _ & _ & _ & Hjs & _).
    unfold addDucks in Hstep. rewrite Hrun in Hstep. injection Hstep as <-.
    left. by apply Hsame.
  - left. apply Hsame. injection Hstep as <-. by rewrite shotsFired_scene.
  - injection Hstep as <-.
    destruct (flyAway_fields s Hwf) as (_ & _ & Hjs & _).
    rewrite Hjs in Hj. apply lookup_app_Some in Hj as [Hj|[Hge Hj]].
    + left. by exists jn'.
    + right. split; [by apply lookup_ge_None|].
      apply list_lookup_singleton_Some in Hj as [_ <-]. simpl. lia.
  - left. apply Hsame. by injection Hstep as <-.
  - left. apply Hsame. unfold duckStepDone in Hstep.
    destruct (heap s !! r) as [d0|]; simpl in Hstep; [|done].
    destruct (timeline d0) as [|[]]; try done; try (by injection Hstep as <-);
      by apply runCallback_frame in Hstep as (_ & Hjs & _).
  - left. apply Hsame. unfold dogStepDone in Hstep.
    destruct (dogTimeline (dog s)) as [|[]]; try done; try (by injection Hstep as <-).
    by apply runCallback_frame in Hstep as (_ & Hjs & _).
  - left. unfold settle in Hstep. destruct (joins s !! j0) as [jn0|] eqn:Hj0; simpl in Hstep; [|done].
    destruct (settled jn0) eqn:Hs0; [done|]. destruct (forallb _ _); [|done].
    injection Hstep as <-. cbn in Hj.
    apply list_lookup_insert_Some in Hj as [(<- & <- & _)|[Hne Hj]].
    + exists jn0. by repeat split.
    + by exists jn'.
  - left. apply Hsame. unfold timerFired in Hstep.
    destruct (timers s !! i); simpl in Hstep; [|done]. by injection Hstep as <-.
Qed.

(** A deferred that has been created can only lose holders. *)
Lemma holds_step e s s' p x :
  wf s → p < length (deferreds s) → step e s = Some s' → holds s' p x → holds s p x.
Proof.
  intros Hwf Hlt Hstep Hx. destruct Hx as [r d' cb Hr Hcb Hp|cb Hcb Hp|j jn' Hj Hs Hres].
  - destruct (duck_step_cases e s s' r d' Hwf Hstep Hr) as [(d & Hd & Hch)|(_ & i & speed & ->)].
    + apply (holds_duck s p r d cb); [done| |done].
      by eapply duckChange_callbacks.
    + by apply elem_of_nil in Hcb.
  - apply (holds_dog s p cb); [|done]. by eapply dog_step_frame.
  - destruct (joins_step_frame e s s' j jn' Hwf Hstep Hj)
      as [(jn & Hjn & _ & Hr & Hset)|(_ & Hge)].
    + apply (holds_join s p j jn); [done|by apply Hset|congruence].
    + lia.
Qed.

Lemma resolveCalls_app_l s ds p :
  p < length (deferreds s) →
  default 0 ((deferreds s ++ ds) !! p) = resolveCalls s p.
Proof. intros Hlt. unfold resolveCalls. by rewrite lookup_app_l. Qed.

Lemma resolveCalls_runCallback cb s s' p :
  runCallback cb s = Some s' → p < length (deferreds s) →
  (target cb ≠ Some p ∧ resolveCalls s' p = resolveCalls s p) ∨
  (target cb = Some p ∧ resolveCalls s' p = S (resolveCalls s p)).
Proof.
  intros Hrun Hlt. destruct cb as [p'|p'|]; simpl in Hrun.
  - injection Hrun as <-. destruct (decide (p' = p)) as [->|Hne].
    + right. split; [done|]. by apply resolveCalls_resolve_eq.
    + left. split; [simpl; congruence|]. by apply resolveCalls_resolve_ne.
  - destruct (Container.setChildIndex _ _ _) as [cs|]; simpl in Hrun; [|done].
    injection Hrun as <-. destruct (decide (p' = p)) as [->|Hne].
    + right. split; [done|]. by rewrite resolveCalls_resolve_eq.
    + left. split; [simpl; congruence|]. by rewrite resolveCalls_resolve_ne.
  - injection Hrun as <-. left. by split.
Qed.

(** An event changes the number of [resolve] calls on a created deferred only
    by firing a closure that resolves it, and then by one. *)
Lemma resolveCalls_step e s s' p :
  wf s → p < length (deferreds s) → step e s = Some s' →
  length (deferreds s) ≤ length (deferreds s') ∧
  (resolveCalls s' p = resolveCalls s p ∨
   (fires e s p ∧ resolveCalls s' p = S (resolveCalls s p))).
Proof.
  intros Hwf Hlt Hstep.
  assert (deferreds s' = deferreds s →
          length (deferreds s) ≤ length (deferreds s') ∧
          (resolveCalls s' p = resolveCalls s p ∨
           (fires e s p ∧ resolveCalls s' p = S (resolveCalls s p)))) as Hsame.
  { intros Heq. unfold resolveCalls. rewrite Heq. split; [done|by left]. }
  destruct e; cbn [step] in Hstep.
  - apply Hsame. by injection Hstep as <-.
  - injection Hstep as <-. unfold preLevelAnimation. cbn [fst].
    unfold resolveCalls at 1. cbn [deferreds with_dog cleanUpDucks with_ducks with_children
                                   with_deferreds].
    rewrite length_app, resolveCalls_app_l by done. split; [lia|by left].
  - destruct (addDucksFrom_spec numDucks 0 speed s Hwf)
      as (s'' & Hrun & _ & _ & _ & _ & _ & _ & _ & Hds & _).
    unfold addDucks in Hstep. rewrite Hrun in Hstep. injection Hstep as <-.
    by apply Hsame.
  - apply Hsame. injection Hstep as <-. by rewrite shotsFired_scene.
  - injection Hstep as <-.
    destruct (flyAway_fields s Hwf) as (_ & Hds & _).
    unfold resolveCalls at 1. rewrite Hds, length_app, resolveCalls_app_l by done.
    split; [lia|by left].
  - apply Hsame. by injection Hstep as <-.
  - unfold duckStepDone in Hstep.
    destruct (heap s !! r) as [d0|] eqn:Hr; simpl in Hstep; [|done].
    destruct (timeline d0) as [|[speed| |point cb|cb] rest] eqn:Ht; try done;
      try (apply Hsame; by injection Hstep as <-).
    + pose proof (runCallback_frame _ _ _ Hstep) as (_ & _ & _ & _ & Hlen).
      destruct (resolveCalls_runCallback _ _ _ p Hstep Hlt) as [[Hno Heq]|[Hyes Heq]];
        (split; [simpl in Hlen; lia|]).
      * by left.
      * right. split; [|done]. simpl. by exists d0, (Fly point cb), rest, cb.
    + pose proof (runCallback_frame _ _ _ Hstep) as (_ & _ & _ & _ & Hlen).
      destruct (resolveCalls_runCallback _ _ _ p Hstep Hlt) as [[Hno Heq]|[Hyes Heq]];
        (split; [simpl in Hlen; lia|]).
      * by left.
      * right. split; [|done]. simpl. by exists d0, (Deferred cb), rest, cb.
  - unfold dogStepDone in Hstep.
    destruct (dogTimeline (dog s)) as [|[a b|cb| |] rest] eqn:Ht; try done;
      try (apply Hsame; by injection Hstep as <-).
    pose proof (runCallback_frame _ _ _ Hstep) as (_ & _ & _ & _ & Hlen).
    destruct (resolveCalls_runCallback _ _ _ p Hstep Hlt) as [[Hno Heq]|[Hyes Heq]];
      (split; [simpl in Hlen; lia|]).
    + by left.
    + right. split; [|done]. simpl. by exists cb, rest.
  - unfold settle in Hstep. destruct (joins s !! j) as [jn|] eqn:Hj; simpl in Hstep; [|done].
    destruct (settled jn) eqn:Hs; [done|].
    destruct (forallb _ _) eqn:Hall; [|done].
    injection Hstep as <-. rewrite length_resolve. split; [done|].
    destruct (decide (result jn = p)) as [Heq|Hne].
    + right. split; [simpl; by exists jn|].
      rewrite Heq. by rewrite resolveCalls_resolve_eq.
    + left. by rewrite resolveCalls_resolve_ne.
  - apply Hsame. unfold timerFired in Hstep.
    destruct (timers s !! i); simpl in Hstep; [|done]. by injection Hstep as <-.
Qed.

Lemma fires_holds e s p :
  fires e s p →
  match e with
  | EvDuckStep r _ => holds s p (HDuck r)
  | EvDogStep => holds s p HDog
  | EvSettle j => holds s p (HJoin j)
  | _ => False
  end.
Proof.
  destruct e; simpl; try done.
  - intros (d & st & rest & cb & Hd & Ht & Hcb & Hp).
    apply (holds_duck s p r d cb); [done| |done].
    unfold duckCallbacks. rewrite Ht. simpl. rewrite Hcb.
    apply elem_of_app. left. by apply list_elem_of_singleton.
  - intros (cb & rest & Ht & Hp). apply (holds_dog s p cb); [|done].
    unfold dogCallbacks. rewrite Ht. simpl. apply elem_of_cons. by left.
  - intros (jn & Hj & Hs & Hres & _). by apply (holds_join s p j jn).
Qed.

(** Once nothing holds a deferred any more, it is never resolved again. *)
Lemma quiet_run evs : ∀ s s' p,
  wf s → p < length (deferreds s) → (∀ x, ¬ holds s p x) →
  run evs s = Some s' → resolveCalls s' p = resolveCalls s p.
Proof.
  induction evs as [|e evs IH]; intros s s' p Hwf Hlt Hquiet; simpl.
  - by intros [= <-].
  - destruct (step e s) as [s1|] eqn:He; simpl; [|done]. intros Hrun.
    destruct (resolveCalls_step e s s1 p Hwf Hlt He) as [Hlen [Hsame|[Hf _]]].
    + rewrite <- Hsame. apply IH; [by eapply wf_step|lia| |done].
      intros x Hx. apply (Hquiet x). by eapply holds_step.
    + apply fires_holds in Hf. destruct e; try done; by apply Hquiet in Hf.
Qed.

Lemma step_grows e s s' :
  wf s → step e s = Some s' →
  length (heap s) ≤ length (heap s') ∧ length (joins s) ≤ length (joins s').
Proof.
  intros Hwf Hstep.
  assert (heap s' = heap s → joins s' = joins s →
          length (heap s) ≤ length (heap s') ∧ length (joins s) ≤ length (joins s')) as Hsame.
  { by intros -> ->. }
  destruct e; cbn [step] in Hstep.
  - injection Hstep as <-. by apply Hsame.
  - injection Hstep as <-. by apply Hsame.
  - destruct (addDucksFrom_spec numDucks 0 speed s Hwf)
      as (s'' & Hrun & _ & _ & Hh & _ & _ & _ & _ & _ & Hjs & _).
    unfold addDucks in Hstep. rewrite Hrun in Hstep. injection Hstep as <-.
    rewrite Hh, Hjs, length_app. lia.
  - injection Hstep as <-. rewrite shotsFired_scene. cbn [heap joins with_heap with_timers
                                                           with_flashVisible].
    destruct (shotsFiredLoop_spec (scaleClick (scale s) clickPoint) (ducks s) (heap s) 0
                (wf_roster_nodup _ Hwf)) as (_ & Hlen & _). lia.
  - injection Hstep as <-.
    destruct (flyAway_fields s Hwf) as (_ & _ & Hjs & _ & _ & _ & _ & _ & _ & Hlen & _).
    rewrite Hjs, length_app. lia.
  - injection Hstep as <-. by apply Hsame.
  - unfold duckStepDone in Hstep.
    destruct (heap s !! r) as [d0|]; simpl in Hstep; [|done].
    destruct (timeline d0) as [|[]]; try done;
      try (injection Hstep as <-; simpl; rewrite length_insert; lia);
      apply runCallback_frame in Hstep as (Hh & Hjs & _);
      rewrite Hh, Hjs; simpl; rewrite length_insert; lia.
  - unfold dogStepDone in Hstep.
    destruct (dogTimeline (dog s)) as [|[]]; try done;
      try (injection Hstep as <-; by apply Hsame).
    apply runCallback_frame in Hstep as (Hh & Hjs & _). by apply Hsame.
  - unfold settle in Hstep. destruct (joins s !! j) as [jn|]; simpl in Hstep; [|done].
    destruct (settled jn); [done|]. destruct (forallb _ _); [|done].
    injection Hstep as <-. simpl. rewrite length_insert. lia.
  - unfold timerFired in Hstep. destruct (timers s !! i); simpl in Hstep; [|done].
    injection Hstep as <-. by apply Hsame.
Qed.

(** A promise chain keeps the deferreds it awaits and the one it resolves. *)
Lemma joins_run evs : ∀ s s' j jn jn',
  wf s → run evs s = Some s' → joins s !! j = Some jn → joins s' !! j = Some jn' →
  awaited jn' = awaited jn ∧ result jn' = result jn.
Proof.
  induction evs as [|e evs IH]; intros s s' j jn jn' Hwf; simpl.
  - intros [= <-] Hj Hj'. rewrite Hj in Hj'. by injection Hj' as <-.
  - destruct (step e s) as [s1|] eqn:He; simpl; [|done]. intros Hrun Hj Hj'.
    destruct (step_grows e s s1 Hwf He) as [_ Hlen].
    destruct (lookup_lt_is_Some_2 (joins s1) j) as [jn1 Hj1].
    { apply lookup_lt_Some in Hj. lia. }
    destruct (joins_step_frame e s s1 j jn1 Hwf He Hj1)
      as [(jn0 & Hjn0 & Haw & Hres & _)|(Hnone & _)]; [|congruence].
    rewrite Hj in Hjn0. injection Hjn0 as <-.
    destruct (IH s1 s' j jn1 jn' (wf_step _ _ _ Hwf He) Hrun Hj1 Hj') as [Haw' Hres'].
    split; congruence.
Qed.

Lemma fleePending_step e s s' r q :
  wf s → q < length (deferreds s) → fleePending r q s → step e s = Some s' →
  fleePending r q s' ∨ ¬ holds s' q (HDuck r).
Proof.
  intros Hwf Hlt (d & Hd & Ht) Hstep.
  destruct (step_grows e s s' Hwf Hstep) as [Hlen _].
  destruct (lookup_lt_is_Some_2 (heap s') r) as [d' Hd'].
  { apply lookup_lt_Some in Hd. lia. }
  destruct (duck_step_cases e s s' r d' Hwf Hstep Hd') as [(d0 & Hd0 & Hch)|(Hnone & _)];
    [|congruence].
  rewrite Hd in Hd0. injection Hd0 as <-.
  assert ((∀ cb, cb ∈ duckCallbacks d' → target cb ≠ Some q) → ¬ holds s' q (HDuck r)) as Hno.
  { intros Hcbs Hx. inversion Hx as [r0 d0 cb Hr0 Hcb Hp| |]; subst.
    rewrite Hd' in Hr0. injection Hr0 as <-. by apply (Hcbs cb). }
  destruct Hch as [| |q' Hq'|dest st rest pt _ Ht'|dest speed rest _ Ht'].
  - left. by exists d.
  - right. apply Hno. by intros cb ->%list_elem_of_singleton.
  - right. apply Hno. intros cb ->%list_elem_of_singleton [= ->]. lia.
  - right. apply Hno. rewrite Ht in Ht'. injection Ht' as <- <-.
    intros cb Hcb. by apply elem_of_nil in Hcb.
  - by rewrite Ht in Ht'.
Qed.

Lemma isResolved_zero s p : resolveCalls s p = 0 → isResolved s p = false.
Proof. unfold isResolved. by intros ->. Qed.

Lemma isResolved_one s p : resolveCalls s p = 1 → isResolved s p = true.
Proof. unfold isResolved. by intros ->. Qed.

Lemma duckStepDone_arrival r dest q d s :
  heap s !! r = Some d → timeline d = [Fly FLY_AWAY_POINT (ResolveDeferred q)] →
  duckStepDone r dest s
  = Some (resolve q (with_heap (<[r := moveDuck FLY_AWAY_POINT [] d]> (heap s)) s)).
Proof. intros Hd Ht. unfold duckStepDone. by rewrite Hd; simpl; rewrite Ht. Qed.

(** A deferred held only by a duck on its way to the exit is resolved only by
    that duck's arrival, after which the duck is idle. *)
Lemma flee_completion r q evs : ∀ s s',
  wf s → q < length (deferreds s) → resolveCalls s q = 0 →
  (∀ x, holds s q x → x = HDuck r) → fleePending r q s →
  run evs s = Some s' → isResolved s' q = true →
  ∃ evs1 dest evs2 sa sb,
    evs = evs1 ++ EvDuckStep r dest :: evs2 ∧
    run evs1 s = Some sa ∧ fleePending r q sa ∧ isResolved sa q = false ∧
    step (EvDuckStep r dest) sa = Some sb ∧
    duckActive sb r = false ∧ isResolved sb q = true ∧
    run evs2 sb = Some s'.
Proof.
  induction evs as [|e evs IH]; intros s s' Hwf Hlt Hzero Honly Hpend; simpl.
  - intros [= <-] Hres. by rewrite isResolved_zero in Hres.
  - destruct (step e s) as [s1|] eqn:He; simpl; [|done]. intros Hrun Hres.
    pose proof (wf_step _ _ _ Hwf He) as Hwf1.
    assert (∀ x, holds s1 q x → x = HDuck r) as Honly1.
    { intros x Hx. apply Honly. by eapply holds_step. }
    destruct (resolveCalls_step e s s1 q Hwf Hlt He) as [Hlen [Hsame|[Hf Hone]]].
    + destruct (fleePending_step e s s1 r q Hwf Hlt Hpend He) as [Hpend1|Hgone].
      * destruct (IH s1 s' Hwf1 ltac:(lia) ltac:(congruence) Honly1 Hpend1 Hrun Hres)
          as (evs1 & dest & evs2 & sa & sb & -> & Hrun1 & Hrest).
        exists (e :: evs1), dest, evs2, sa, sb. split; [done|].
        split; [|done]. simpl. by rewrite He.
      * exfalso. assert (resolveCalls s' q = 0) as Hq.
        { rewrite (quiet_run evs s1 s' q Hwf1 ltac:(lia)); [congruence| |done].
          intros x Hx. pose proof (Honly1 x Hx) as ->. done. }
        by rewrite isResolved_zero in Hres.
    + apply fires_holds in Hf.
      destruct e as [| | | | | |r0 dest| | |];
        try done; try (by apply Honly in Hf).
      apply Honly in Hf. injection Hf as ->.
      destruct Hpend as (d & Hd & Ht).
      exists [], dest, evs, s, s1. split; [done|]. split; [done|].
      split; [by exists d|]. split; [by apply isResolved_zero|].
      split; [done|]. split.
      * cbn [step] in He. rewrite (duckStepDone_arrival r dest q d s Hd Ht) in He.
        injection He as <-. unfold duckActive. cbn [heap resolve with_deferreds with_heap].
        rewrite list_lookup_insert_eq; [done|]. by eapply lookup_lt_Some.
      * split; [|done]. apply isResolved_one. congruence.
Qed.

(** The promise of a chain is resolved only by the chain's continuation. *)
Lemma join_completion j p evs : ∀ s s',
  wf s → p < length (deferreds s) → resolveCalls s p = 0 →
  (∀ x, holds s p x → x = HJoin j) →
  run evs s = Some s' → isResolved s' p = true →
  ∃ evs1 evs2 sa sb,
    evs = evs1 ++ EvSettle j :: evs2 ∧
    run evs1 s = Some sa ∧ isResolved sa p = false ∧
    step (EvSettle j) sa = Some sb ∧ isResolved sb p = true ∧
    run evs2 sb = Some s'.
Proof.
  induction evs as [|e evs IH]; intros s s' Hwf Hlt Hzero Honly; simpl.
  - intros [= <-] Hres. by rewrite isResolved_zero in Hres.
  - destruct (step e s) as [s1|] eqn:He; simpl; [|done]. intros Hrun Hres.
    pose proof (wf_step _ _ _ Hwf He) as Hwf1.
    assert (∀ x, holds s1 p x → x = HJoin j) as Honly1.
    { intros x Hx. apply Honly. by eapply holds_step. }
    destruct (resolveCalls_step e s s1 p Hwf Hlt He) as [Hlen [Hsame|[Hf Hone]]].
    + destruct (IH s1 s' Hwf1 ltac:(lia) ltac:(congruence) Honly1 Hrun Hres)
        as (evs1 & evs2 & sa & sb & -> & Hrun1 & Hrest).
      exists (e :: evs1), evs2, sa, sb. split; [done|].
      split; [|done]. simpl. by rewrite He.
    + apply fires_holds in Hf.
      destruct e as [| | | | | | | |j0|];
        try done; try (by apply Honly in Hf).
      apply Honly in Hf. injection Hf as ->.
      exists [], evs, s, s1. split; [done|]. split; [done|].
      split; [by apply isResolved_zero|]. split; [done|].
      split; [|done]. apply isResolved_one. congruence.
Qed.

(** ** C2 *)

Lemma lookup_replicate_zero (ds : list nat) k q :
  length ds ≤ q → q < length ds + k → default 0 ((ds ++ replicate k 0) !! q) = 0.
Proof.
  intros Hge Hlt. rewrite lookup_app_r by done.
  assert (replicate k 0 !! (q - length ds) = Some 0) as ->; [|done].
  apply lookup_replicate. split; [done|lia].
Qed.

(** Right after [flyAway], the deferred of a fleeing duck is held by that
    duck alone and the chained promise by the new chain alone. *)
Lemma flyAway_holders s pp x :
  wf s → length (deferreds s) ≤ pp → holds (flyAway s).1 pp x →
  (∃ i r, fleeing (heap s) (ducks s) !! i = Some r ∧
          pp = length (deferreds s) + i ∧ x = HDuck r) ∨
  (pp = length (deferreds s) + length (fleeing (heap s) (ducks s)) ∧
   x = HJoin (length (joins s))).
Proof.
  intros Hwf Hge Hx.
  destruct (flyAway_fields s Hwf)
    as (_ & _ & Hjs & Hdog & _ & _ & _ & _ & _ & _ & Hin & Hout).
  destruct Hx as [r d' cb Hr Hcb Hp|cb Hcb Hp|j jn Hj Hs Hres].
  - destruct (decide (r ∈ fleeing (heap s) (ducks s))) as [Hfl|Hfl].
    + apply list_elem_of_lookup in Hfl as [i Hi]. left. exists i, r.
      split; [done|]. split; [|done].
      rewrite (Hin i r Hi) in Hr. destruct (heap s !! r) as [d|]; [|done].
      injection Hr as <-. apply list_elem_of_singleton in Hcb as ->.
      by injection Hp as <-.
    + rewrite (Hout r Hfl) in Hr.
      pose proof (wf_duck_callbacks _ Hwf r d' cb pp Hr Hcb Hp). lia.
  - rewrite Hdog, dogCallbacks_laugh in Hcb.
    pose proof (wf_dog_callbacks _ Hwf cb pp Hcb Hp). lia.
  - rewrite Hjs in Hj. apply lookup_app_Some in Hj as [Hj|[Hlen Hj]].
    + apply list_elem_of_lookup_2 in Hj.
      destruct (wf_joins _ Hwf jn Hj) as [Hlt _]. lia.
    + apply list_lookup_singleton_Some in Hj as [Hz <-]. right. simpl in Hres.
      split; [done|]. f_equal. lia.
Qed.

(** C2.  Take any well-formed scene, call [flyAway()], and let any sequence
    of events follow.  If the returned promise is resolved at the end, then
    the continuation of the chain ran at some point of the sequence; the
    promise was unresolved before it ran and resolved right after, with the
    roster empty; and every duck that was alive on the roster when [flyAway]
    was called completed its flight to the exit strictly before that point,
    and reported [isActive() == false] when it did. *)
Theorem flyAway_barrier (s : Scene) (evs : list Event) (s' : Scene) :
  wf s →
  let s1 := (flyAway s).1 in
  let p := (flyAway s).2 in
  let j := length (joins s) in
  run evs s1 = Some s' → isResolved s' p = true →
  ∃ evs1 evs2 sa sb,
    evs = evs1 ++ EvSettle j :: evs2 ∧
    run evs1 s1 = Some sa ∧ step (EvSettle j) sa = Some sb ∧ run evs2 sb = Some s' ∧
    isResolved sa p = false ∧ isResolved sb p = true ∧ ducks sb = [] ∧
    ∀ r, r ∈ ducks s → aliveAt (heap s) r = true →
      ∃ q evsa dest evsb ta tb,
        evs1 = evsa ++ EvDuckStep r dest :: evsb ∧
        run evsa s1 = Some ta ∧ fleePending r q ta ∧
        step (EvDuckStep r dest) ta = Some tb ∧ duckActive tb r = false.
Proof.
  intros Hwf s1 p j Hrun Hres.
  pose proof (wf_flyAway s Hwf) as Hwf1. fold s1 in Hwf1.
  destruct (flyAway_fields s Hwf)
    as (Hp & Hds & Hjs & _ & _ & _ & _ & _ & _ & _ & Hin & _).
  fold s1 in Hds, Hjs, Hin. fold p in Hp.
  set (n := length (deferreds s)) in *.
  set (k := length (fleeing (heap s) (ducks s))) in *.
  assert (length (deferreds s1) = n + S k) as Hlen1.
  { by rewrite Hds, length_app, length_replicate. }
  assert (∀ q, n ≤ q → q < n + S k → resolveCalls s1 q = 0) as Hzero.
  { intros q Hq1 Hq2. unfold resolveCalls. rewrite Hds. by apply lookup_replicate_zero. }
  destruct (join_completion j p evs s1 s' Hwf1 ltac:(lia) (Hzero p ltac:(lia) ltac:(lia)))
    as (evs1 & evs2 & sa & sb & -> & Hrun1 & Hbefore & Hsettle & Hafter & Hrun2);
    [|done|done|].
  { intros x Hx. destruct (flyAway_holders s p x Hwf ltac:(lia) Hx)
      as [(i & r & Hi & Hpi & _)|[_ ->]]; [|done].
    apply lookup_lt_Some in Hi. fold k in Hi. lia. }
  exists evs1, evs2, sa, sb. repeat (split; [done|]).
  cbn [step] in Hsettle. unfold settle in Hsettle.
  destruct (joins sa !! j) as [jn|] eqn:Hj; simpl in Hsettle; [|done].
  destruct (settled jn); [done|].
  destruct (forallb (isResolved sa) (awaited jn)) eqn:Hall; [|done].
  injection Hsettle as <-. split; [done|].
  assert (joins s1 !! j = Some (mkJoin (seq n k) (n + k) false)) as Hj1.
  { by rewrite Hjs, lookup_app_r, Nat.sub_diag. }
  destruct (joins_run evs1 s1 sa j _ jn Hwf1 Hrun1 Hj1 Hj) as [Haw _]. simpl in Haw.
  intros r Hr Halive.
  assert (r ∈ fleeing (heap s) (ducks s)) as Hfl by (by apply elem_of_fleeing).
  apply list_elem_of_lookup in Hfl as [i Hi].
  pose proof (lookup_lt_Some _ _ _ Hi) as Hik. fold k in Hik.
  assert (isResolved sa (n + i) = true) as Hqres.
  { rewrite forallb_forall in Hall. apply Hall. rewrite Haw.
    apply list_elem_of_In, elem_of_seq. lia. }
  unfold aliveAt in Halive. destruct (heap s !! r) as [d|] eqn:Hd; [|done].
  destruct (flee_completion r (n + i) evs1 s1 sa Hwf1 ltac:(lia)
              (Hzero (n + i) ltac:(lia) ltac:(lia)))
    as (evsa & dest & evsb & ta & tb & -> & Hruna & Hpend & _ & Hstep & Hidle & _);
    [| |done|done|].
  { intros x Hx. destruct (flyAway_holders s (n + i) x Hwf ltac:(lia) Hx)
      as [(i' & r' & Hi' & Hpi & ->)|[Hpk _]]; [|fold n k in Hpk; lia].
    fold n in Hpi. assert (i' = i) as -> by lia. congruence. }
  { exists (fled (n + i) d). split; [|done]. by rewrite (Hin i r Hi), Hd. }
  by exists (n + i), evsa, dest, evsb, ta, tb.
Qed.

Lemma flyAway_barrier_witness :
  wf Examples.four ∧
  run FleeExample.trace (flyAway Examples.four).1 = Some FleeExample.final ∧
  isResolved FleeExample.final (flyAway Examples.four).2 = true ∧
  ∃ evs1 evs2, FleeExample.trace = evs1 ++ EvSettle 0 :: evs2.
Proof.
  split; [exact wf_four|].
  split; [vm_compute; reflexivity|].
  split; [vm_compute; reflexivity|].
  destruct (flyAway_barrier Examples.four FleeExample.trace FleeExample.final wf_four)
    as (evs1 & evs2 & _ & _ & Hsplit & _).
  - vm_compute. reflexivity.
  - vm_compute. reflexivity.
  - exists evs1, evs2. exact Hsplit.
Defined.

(** ** The intro sequence *)

Lemma runCallback_dog cb s s' :
  runCallback cb s = Some s' →
  ∃ new, dogTimeline (dog s') = dogTimeline (dog s) ++ new ∧
         new ≫= dogStepCallbacks = [].
Proof.
  destruct cb as [p|p|]; simpl.
  - intros [= <-]. exists []. by rewrite app_nil_r.
  - destruct (Container.setChildIndex _ _ _); simpl; [|done].
    intros [= <-]. exists []. by rewrite app_nil_r.
  - intros [= <-]. by exists [Retrieve].
Qed.

Lemma runCallback_total cb s : wf s → ∃ s', runCallback cb s = Some s'.
Proof.
  intros Hwf. destruct cb as [p|p|]; simpl; [by eexists| |by eexists].
  rewrite (dog_front_ok s Hwf). by eexists.
Qed.

(** Only the completion of the dog's step in progress drops the head of the
    dog's timeline; what an event appends resolves no deferred that exists
    already. *)
Lemma dog_step_cases e s s' :
  wf s → step e s = Some s' →
  ∃ new,
    dogTimeline (dog s')
    = drop (match e with EvDogStep => 1 | _ => 0 end) (dogTimeline (dog s)) ++ new ∧
    ∀ cb p, cb ∈ new ≫= dogStepCallbacks → target cb = Some p →
            length (deferreds s) ≤ p.
Proof.
  intros Hwf Hstep.
  assert (∀ k new, dogTimeline (dog s') = drop k (dogTimeline (dog s)) ++ new →
                   new ≫= dogStepCallbacks = [] →
          ∃ new,
            dogTimeline (dog s') = drop k (dogTimeline (dog s)) ++ new ∧
            ∀ cb p, cb ∈ new ≫= dogStepCallbacks → target cb = Some p →
                    length (deferreds s) ≤ p) as Happ.
  { intros k new Heq Hnone. exists new. split; [done|].
    rewrite Hnone. intros cb p Hcb. by apply elem_of_nil in Hcb. }
  assert (dog s' = dog s →
          ∃ new,
            dogTimeline (dog s') = drop 0 (dogTimeline (dog s)) ++ new ∧
            ∀ cb p, cb ∈ new ≫= dogStepCallbacks → target cb = Some p →
                    length (deferreds s) ≤ p) as Hsame.
  { intros Heq. apply (Happ 0 []); [|done]. by rewrite Heq, app_nil_r. }
  destruct e; cbn [step] in Hstep.
  - apply Hsame. by injection Hstep as <-.
  - injection Hstep as <-.
    exists [Sniff DOG_POINTS.SNIFF_START DOG_POINTS.SNIFF_END;
            Find (FindComplete (length (deferreds s)))].
    rewrite drop_0. split.
    + unfold preLevelAnimation. cbn. by rewrite <- app_assoc.
    + intros cb p Hcb Hp. cbn in Hcb. apply list_elem_of_singleton in Hcb as ->.
      injection Hp as <-. done.
  - destruct (addDucksFrom_spec numDucks 0 speed s Hwf) as (s'' & Hrun & _ & _ & _ & _ & Hd & _).
    unfold addDucks in Hstep. rewrite Hrun in Hstep. injection Hstep as <-.
    by apply Hsame.
  - apply Hsame. injection Hstep as <-. by rewrite shotsFired_scene.
  - injection Hstep as <-. destruct (flyAway_fields s Hwf) as (_ & _ & _ & Hd & _).
    apply (Happ 0 [Laugh]); [|done]. by rewrite Hd.
  - apply Hsame. by injection Hstep as <-.
  - unfold duckStepDone in Hstep.
    destruct (heap s !! r) as [d0|]; simpl in Hstep; [|done].
    destruct (timeline d0) as [|[]]; try done;
      try (apply Hsame; by injection Hstep as <-);
      apply runCallback_dog in Hstep as (new & Heq & Hnone); by apply (Happ 0 new).
  - unfold dogStepDone in Hstep.
    destruct (dogTimeline (dog s)) as [|st rest] eqn:Ht; [done|].
    destruct st;
      try (injection Hstep as <-; apply (Happ 1 []); [by rewrite app_nil_r|done]).
    apply runCallback_dog in Hstep as (new & Heq & Hnone).
    apply (Happ 1 new); [exact Heq|done].
  - apply Hsame. unfold settle in Hstep.
    destruct (joins s !! j) as [jn|]; simpl in Hstep; [|done].
    destruct (settled jn); [done|]. destruct (forallb _ _); [|done].
    by injection Hstep as <-.
  - apply Hsame. unfold timerFired in Hstep.
    destruct (timers s !! i); simpl in Hstep; [|done]. by injection Hstep as <-.
Qed.

(** What the completion of the intro's [find] does: the dog is moved to the
    back of the draw order, then the deferred is resolved. *)
Lemma find_completes p post s :
  wf s → dogTimeline (dog s) = Find (FindComplete p) :: post →
  step EvDogStep s
  = Some (resolve p
            (with_children (DogSprite :: Container.removeFirst DogSprite (children s))
               (with_dog (mkDog (downPoint (dog s)) (upPoint (dog s)) post) s))).
Proof.
  intros Hwf Ht. cbn [step]. unfold dogStepDone. rewrite Ht.
  cbn [runCallback children with_dog]. by rewrite (dog_front_ok s Hwf).
Qed.

Lemma introPending_step e s s' p :
  wf s → p < length (deferreds s) → (∀ x, holds s p x → x = HDog) →
  introPending p s → step e s = Some s' →
  (introPending p s' ∧ resolveCalls s' p = resolveCalls s p) ∨
  (e = EvDogStep ∧
   ∃ post, dogTimeline (dog s) = Find (FindComplete p) :: post ∧
           ∀ cb, cb ∈ post ≫= dogStepCallbacks → target cb ≠ Some p).
Proof.
  intros Hwf Hlt Honly (pre & post & Ht & Hno) Hstep.
  destruct (dog_step_cases e s s' Hwf Hstep) as (new & Ht' & Hnew).
  assert (∀ cb, cb ∈ new ≫= dogStepCallbacks → target cb ≠ Some p) as Hnew'.
  { intros cb Hcb Hp. specialize (Hnew cb p Hcb Hp). lia. }
  assert (∀ cb, cb ∈ (pre ++ post ++ new) ≫= dogStepCallbacks → target cb ≠ Some p) as Hno'.
  { intros cb. rewrite app_assoc, bind_app, elem_of_app.
    intros [Hcb|Hcb]; [by apply Hno|by apply Hnew']. }
  assert (e = EvDogStep ∨ e ≠ EvDogStep) as [->|Hne]
    by (destruct e; (by left) || (by right)).
  - destruct pre as [|st pre]; [right; split; [done|]; by exists post|].
    left. split.
    + exists pre, (post ++ new). rewrite Ht', Ht. simpl. rewrite drop_0.
      split; [by rewrite <- app_assoc|].
      intros cb Hcb. apply Hno'. simpl. apply elem_of_app. by right.
    + destruct (resolveCalls_step _ s s' p Hwf Hlt Hstep) as [_ [Hsame|[Hf _]]]; [done|].
      exfalso. simpl in Hf. destruct Hf as (cb & rest & Hhead & Hp).
      rewrite Ht in Hhead. simpl in Hhead. injection Hhead as -> _.
      apply (Hno cb); [|done]. simpl. apply elem_of_cons. by left.
  - left. split.
    + exists pre, (post ++ new).
      assert (dogTimeline (dog s') = dogTimeline (dog s) ++ new) as ->
        by (rewrite Ht'; by destruct e).
      rewrite Ht. split; [by rewrite <- app_assoc|done].
    + destruct (resolveCalls_step e s s' p Hwf Hlt Hstep) as [_ [Hsame|[Hf _]]]; [done|].
      exfalso. apply fires_holds in Hf.
      destruct e; try done; by apply Honly in Hf.
Qed.

Lemma find_completes_quiet p post s :
  wf s → p < length (deferreds s) → resolveCalls s p = 0 →
  (∀ x, holds s p x → x = HDog) →
  dogTimeline (dog s) = Find (FindComplete p) :: post →
  (∀ cb, cb ∈ post ≫= dogStepCallbacks → target cb ≠ Some p) →
  ∃ sb, step EvDogStep s = Some sb ∧ wf sb ∧
        children sb = DogSprite :: Container.removeFirst DogSprite (children s) ∧
        ducks sb = ducks s ∧ resolveCalls sb p = 1 ∧ (∀ x, ¬ holds sb p x).
Proof.
  intros Hwf Hlt Hzero Honly Ht Hpost.
  pose proof (find_completes p post s Hwf Ht) as Hstep.
  eexists. split; [exact Hstep|]. split; [by eapply wf_step|].
  split; [done|]. split; [done|]. split.
  - rewrite resolveCalls_resolve_eq by done. f_equal. exact Hzero.
  - intros x Hx. pose proof (holds_step _ _ _ _ _ Hwf Hlt Hstep Hx) as Hx0.
    apply Honly in Hx0 as ->. inversion Hx as [|cb Hcb Hp|]; subst.
    by apply (Hpost cb).
Qed.

(** In every run after [preLevelAnimation], its deferred is resolved at most
    once, and only by the completion of its [find]. *)
Lemma intro_completion p evs : ∀ s s',
  wf s → p < length (deferreds s) → resolveCalls s p = 0 →
  (∀ x, holds s p x → x = HDog) → introPending p s →
  run evs s = Some s' →
  resolveCalls s' p ≤ 1 ∧ (isResolved s' p = true → findCompleted p s evs s').
Proof.
  induction evs as [|e evs IH]; intros s s' Hwf Hlt Hzero Honly Hpend; simpl.
  - intros [= <-]. split; [lia|]. intros Hres. by rewrite isResolved_zero in Hres.
  - destruct (step e s) as [s1|] eqn:He; simpl; [|done]. intros Hrun.
    pose proof (wf_step _ _ _ Hwf He) as Hwf1.
    destruct (resolveCalls_step e s s1 p Hwf Hlt He) as [Hlen _].
    destruct (introPending_step e s s1 p Hwf Hlt Honly Hpend He)
      as [[Hpend1 Hsame]|(-> & post & Ht & Hpost)].
    + destruct (IH s1 s' Hwf1 ltac:(lia) ltac:(congruence)) as [Hle Hfind]; [|done|done|].
      { intros x Hx. apply Honly. by eapply holds_step. }
      split; [done|]. intros Hres.
      destruct (Hfind Hres) as (evs1 & evs2 & sa & sb & post & -> & Hrun1 & Hrest).
      exists (e :: evs1), evs2, sa, sb, post. split; [done|].
      split; [|done]. simpl. by rewrite He.
    + destruct (find_completes_quiet p post s Hwf Hlt Hzero Honly Ht Hpost)
        as (sb & Hstep & _ & Hch & Hducks & Hone & Hquiet).
      rewrite He in Hstep. injection Hstep as <-.
      assert (resolveCalls s' p = 1) as Hfinal.
      { rewrite (quiet_run evs s1 s' p Hwf1 ltac:(lia) Hquiet Hrun). done. }
      split; [lia|]. intros _.
      exists [], evs, s, s1, post. split; [done|]. split; [done|].
      split; [by apply isResolved_zero|]. by repeat (split; [done|]).
Qed.

Lemma ducks_dogStep s s' : step EvDogStep s = Some s' → ducks s' = ducks s.
Proof.
  cbn [step]. unfold dogStepDone.
  destruct (dogTimeline (dog s)) as [|[] rest]; try done; try (by intros [= <-]).
  intros Hrun. by apply runCallback_frame in Hrun as (_ & _ & Hd & _).
Qed.

Lemma dogStep_total s : wf s → dogTimeline (dog s) ≠ [] → ∃ s', step EvDogStep s = Some s'.
Proof.
  intros Hwf Hne. destruct (dogTimeline (dog s)) as [|st rest] eqn:Ht; [done|].
  assert (wf (with_dog (mkDog (downPoint (dog s)) (upPoint (dog s)) rest) s)) as Hwf'.
  { apply wf_with_dog; [done|]. intros cb p Hcb. apply (wf_dog_callbacks _ Hwf).
    unfold dogCallbacks in *. rewrite Ht. simpl in *. apply elem_of_app. by right. }
  cbn [step]. unfold dogStepDone. rewrite Ht.
  destruct st; try (by eexists). by apply runCallback_total.
Qed.

(** The dog working through its timeline reaches the intro's [find], whose
    completion resolves the deferred. *)
Lemma intro_drain p pre : ∀ s post,
  wf s → p < length (deferreds s) → resolveCalls s p = 0 →
  (∀ x, holds s p x → x = HDog) →
  dogTimeline (dog s) = pre ++ Find (FindComplete p) :: post →
  (∀ cb, cb ∈ (pre ++ post) ≫= dogStepCallbacks → target cb ≠ Some p) →
  ∃ s', run (replicate (S (length pre)) EvDogStep) s = Some s' ∧ wf s' ∧
        resolveCalls s' p = 1 ∧ ducks s' = ducks s ∧
        children s' !! 0 = Some DogSprite ∧ (∀ x, ¬ holds s' p x).
Proof.
  induction pre as [|st pre IH]; intros s post Hwf Hlt Hzero Honly Ht Hno.
  - destruct (find_completes_quiet p post s Hwf Hlt Hzero Honly Ht Hno)
      as (sb & Hstep & Hwfb & Hch & Hducks & Hone & Hquiet).
    exists sb. cbn [length replicate run]. rewrite Hstep. simpl.
    repeat (split; [done|]). split; [by rewrite Hch|done].
  - destruct (dogStep_total s Hwf) as [s1 Hstep]; [by rewrite Ht|].
    pose proof (wf_step _ _ _ Hwf Hstep) as Hwf1.
    destruct (resolveCalls_step _ s s1 p Hwf Hlt Hstep) as [Hlen _].
    destruct (dog_step_cases _ s s1 Hwf Hstep) as (new & Ht1 & Hnew).
    rewrite Ht in Ht1. simpl in Ht1. rewrite drop_0, <- app_assoc in Ht1. simpl in Ht1.
    assert (resolveCalls s1 p = 0) as Hzero1.
    { destruct (introPending_step _ s s1 p Hwf Hlt Honly ltac:(by exists (st :: pre), post) Hstep)
        as [[_ Hsame]|(_ & post' & Ht' & _)]; [congruence|].
      exfalso. rewrite Ht in Ht'. simpl in Ht'. injection Ht' as -> _.
      apply (Hno (FindComplete p)); [|done]. simpl. apply elem_of_cons. by left. }
    destruct (IH s1 (post ++ new) Hwf1 ltac:(lia) Hzero1)
      as (s' & Hrun & Hwf' & Hone & Hducks & Hch & Hquiet); [|done| |].
    + intros x Hx. apply Honly. by eapply holds_step.
    + intros cb. rewrite app_assoc, bind_app, elem_of_app. intros [Hcb|Hcb].
      * apply Hno. simpl. apply elem_of_app. by right.
      * intros Hp. specialize (Hnew cb p Hcb Hp). lia.
    + exists s'. split.
      { change (replicate (S (length (st :: pre))) EvDogStep)
          with (EvDogStep :: replicate (S (length pre)) EvDogStep).
        cbn [run]. rewrite Hstep. exact Hrun. }
      repeat (split; [done|]). split; [|done].
      rewrite Hducks. by apply ducks_dogStep.
Qed.

(** Everything [preLevelAnimation] does. *)
Lemma preLevelAnimation_fields s :
  wf s →
  let s1 := (preLevelAnimation s).1 in
  let p := (preLevelAnimation s).2 in
  p = length (deferreds s) ∧ wf s1 ∧
  ducks s1 = [] ∧ children s1 = removeDucks (ducks s) (children s) ∧
  dogTimeline (dog s1)
  = dogTimeline (dog s)
    ++ [Sniff DOG_POINTS.SNIFF_START DOG_POINTS.SNIFF_END; Find (FindComplete p)] ∧
  deferreds s1 = deferreds s ++ [0] ∧ resolveCalls s1 p = 0 ∧
  (∀ x, holds s1 p x → x = HDog) ∧
  (∀ cb, cb ∈ (dogTimeline (dog s) ++ [Sniff DOG_POINTS.SNIFF_START DOG_POINTS.SNIFF_END])
              ≫= dogStepCallbacks → target cb ≠ Some p).
Proof.
  intros Hwf s1 p. split; [done|]. split; [by apply wf_preLevelAnimation|].
  split; [done|]. split; [done|]. split.
  { unfold s1, preLevelAnimation. cbn. by rewrite <- app_assoc. }
  split; [done|]. split.
  { unfold resolveCalls, s1, p, preLevelAnimation. cbn.
    by rewrite lookup_app_r, Nat.sub_diag. }
  split.
  - intros x Hx. destruct Hx as [r d cb Hr Hcb Hp|cb Hcb Hp|j jn Hj Hs Hres]; [|done|].
    + pose proof (wf_duck_callbacks _ Hwf r d cb _ Hr Hcb Hp) as Hlt.
      unfold p in Hlt. simpl in Hlt. lia.
    + apply list_elem_of_lookup_2 in Hj. destruct (wf_joins _ Hwf jn Hj) as [Hlt _].
      unfold p in Hres. simpl in Hres. lia.
  - intros cb. rewrite bind_app. simpl. rewrite app_nil_r. intros Hcb Hp.
    pose proof (wf_dog_callbacks _ Hwf cb _ Hcb Hp) as Hlt.
    unfold p in Hlt. simpl in Hlt. lia.
Qed.

Lemma intro_once s :
  wf s →
  let s1 := (preLevelAnimation s).1 in
  let p := (preLevelAnimation s).2 in
  ducks s1 = [] ∧ children s1 = removeDucks (ducks s) (children s) ∧
  (∀ r, r ∈ ducks s → DuckSprite r ∉ children s1) ∧
  dogTimeline (dog s1)
  = dogTimeline (dog s)
    ++ [Sniff DOG_POINTS.SNIFF_START DOG_POINTS.SNIFF_END; Find (FindComplete p)] ∧
  deferreds s !! p = None ∧ isResolved s1 p = false ∧
  (∀ evs s', run evs s1 = Some s' →
             resolveCalls s' p ≤ 1 ∧ (isResolved s' p = true → findCompleted p s1 evs s')) ∧
  ∃ s2, run (dogFinishes s) s1 = Some s2 ∧ wf s2 ∧ p < length (deferreds s2) ∧
        resolveCalls s2 p = 1 ∧ ducks s2 = [] ∧ children s2 !! 0 = Some DogSprite ∧
        (∀ evs s', run evs s2 = Some s' → resolveCalls s' p = 1).
Proof.
  intros Hwf s1 p.
  destruct (preLevelAnimation_fields s Hwf)
    as (Hp & Hwf1 & Hducks & Hch & Ht & Hds & Hzero & Honly & Hpre).
  fold s1 in Hwf1, Hducks, Hch, Ht, Hds, Hzero, Honly. fold p in Hp, Ht, Hzero, Honly, Hpre.
  assert (p < length (deferreds s1)) as Hlt by (rewrite Hds, length_app; simpl; lia).
  assert (dogTimeline (dog s1)
          = (dogTimeline (dog s) ++ [Sniff DOG_POINTS.SNIFF_START DOG_POINTS.SNIFF_END])
            ++ Find (FindComplete p) :: []) as Ht2 by (by rewrite Ht, <- app_assoc).
  assert (∀ cb, cb ∈ ((dogTimeline (dog s)
                       ++ [Sniff DOG_POINTS.SNIFF_START DOG_POINTS.SNIFF_END]) ++ [])
                      ≫= dogStepCallbacks → target cb ≠ Some p) as Hpre2
    by (by rewrite app_nil_r).
  split; [done|]. split; [done|]. split.
  { intros r Hr. rewrite Hch. apply removeDucks_gone; [apply Hwf|done]. }
  split; [done|]. split; [apply lookup_ge_None; lia|].
  split; [by apply isResolved_zero|]. split.
  { intros evs s'. apply intro_completion; try done. by eexists _, []. }
  destruct (intro_drain p _ s1 [] Hwf1 Hlt Hzero Honly Ht2 Hpre2)
    as (s2 & Hrun & Hwf2 & Hone & Hducks2 & Hch2 & Hquiet).
  assert (p < length (deferreds s2)) as Hlt2.
  { unfold resolveCalls in Hone. destruct (deferreds s2 !! p) as [c|] eqn:Hc; [|done].
    by eapply lookup_lt_Some. }
  exists s2. split.
  { unfold dogFinishes. rewrite length_app in Hrun. simpl in Hrun.
    by replace (length (dogTimeline (dog s)) + 2)
      with (S (length (dogTimeline (dog s)) + 1)) by lia. }
  split; [done|]. split; [done|]. split; [done|]. split; [congruence|]. split; [done|].
  intros evs s' Hrun'. rewrite <- Hone. by apply (quiet_run evs).
Qed.

(** C5.  In a well-formed scene, [preLevelAnimation()] first takes every
    roster member off the display list and empties the roster, then queues
    [sniff] followed by [find] on the dog, and returns a fresh, unresolved
    promise.  In every run that follows, the promise is resolved at most
    once, and only by the completion of that [find], which moves the dog to
    the back of the draw order and then resolves it.  When the dog completes
    its steps the promise is resolved, exactly once for good, the roster
    still empty; a second [preLevelAnimation()] called then behaves the same
    way with a promise of its own, the roster being empty before it, after
    it and when its promise resolves, and a new stage starts with an empty
    roster. *)
Theorem preLevelAnimation_twice (s : Scene) :
  wf s →
  let s1 := (preLevelAnimation s).1 in
  let p := (preLevelAnimation s).2 in
  (∀ window, ducks (constructor window) = []) ∧
  ducks s1 = [] ∧ children s1 = removeDucks (ducks s) (children s) ∧
  (∀ r, r ∈ ducks s → DuckSprite r ∉ children s1) ∧
  dogTimeline (dog s1)
  = dogTimeline (dog s)
    ++ [Sniff DOG_POINTS.SNIFF_START DOG_POINTS.SNIFF_END; Find (FindComplete p)] ∧
  deferreds s !! p = None ∧ isResolved s1 p = false ∧
  (∀ evs s', run evs s1 = Some s' →
             resolveCalls s' p ≤ 1 ∧ (isResolved s' p = true → findCompleted p s1 evs s')) ∧
  ∃ s2, run (dogFinishes s) s1 = Some s2 ∧
        resolveCalls s2 p = 1 ∧ ducks s2 = [] ∧ children s2 !! 0 = Some DogSprite ∧
        (∀ evs s', run evs s2 = Some s' → resolveCalls s' p = 1) ∧
        let s3 := (preLevelAnimation s2).1 in
        let p' := (preLevelAnimation s2).2 in
        p' ≠ p ∧ ducks s3 = [] ∧ isResolved s3 p' = false ∧
        ∃ s4, run (dogFinishes s2) s3 = Some s4 ∧
              resolveCalls s4 p' = 1 ∧ resolveCalls s4 p = 1 ∧
              ducks s4 = [] ∧ children s4 !! 0 = Some DogSprite.
Proof.
  intros Hwf s1 p.
  destruct (intro_once s Hwf)
    as (Hd1 & Hc1 & Hgone & Ht1 & Hfresh & Hun1 & Honce &
        s2 & Hrun2 & Hwf2 & Hlt2 & Hone2 & Hd2 & Hc2 & Hstay).
  fold s1 p in Hd1, Hc1, Hgone, Ht1, Hfresh, Hun1, Honce, Hrun2, Hlt2, Hone2, Hstay.
  split; [done|]. repeat (split; [done|]).
  exists s2. repeat (split; [done|]).
  intros s3 p'.
  destruct (intro_once s2 Hwf2)
    as (Hd3 & _ & _ & _ & Hfresh' & Hun3 & _ & s4 & Hrun4 & _ & _ & Hone4 & Hd4 & Hc4 & _).
  fold s3 p' in Hd3, Hfresh', Hun3, Hrun4, Hone4.
  split.
  { intros Heq. rewrite Heq in Hfresh'. apply lookup_ge_None in Hfresh'. lia. }
  split; [done|]. split; [done|].
  exists s4. split; [done|]. split; [done|]. split; [|done].
  apply (Hstay (EvPreLevelAnimation :: dogFinishes s2)). exact Hrun4.
Qed.

Lemma preLevelAnimation_twice_witness :
  wf Examples.four ∧
  ducks (preLevelAnimation Examples.four).1 = [] ∧
  children (preLevelAnimation Examples.four).1
  = removeDucks (ducks Examples.four) (children Examples.four).
Proof.
  split; [exact wf_four|].
  split.
  - exact (proj1 (proj2 (preLevelAnimation_twice Examples.four wf_four))).
  - exact (proj1 (proj2 (proj2 (preLevelAnimation_twice Examples.four wf_four)))).
Defined.

(** * Further properties of the stage *)

(** ** The roster and the display list *)

Lemma removeFirst_app c front tl :
  c ∉ tl → Container.removeFirst c (front ++ tl) = Container.removeFirst c front ++ tl.
Proof.
  intros Htl. induction front as [|y front IH]; simpl.
  - by apply removeFirst_absent.
  - destruct (decide (y = c)); [done|]. by rewrite IH.
Qed.

Lemma removeFirst_app_r c front tl :
  c ∉ front → Container.removeFirst c (front ++ tl) = front ++ Container.removeFirst c tl.
Proof.
  induction front as [|y front IH]; simpl; [done|].
  intros [Hne Hfront]%not_elem_of_cons.
  destruct (decide (y = c)); [congruence|]. by rewrite IH.
Qed.

Lemma removeDucks_app rs front tl :
  (∀ r, DuckSprite r ∉ tl) → removeDucks rs (front ++ tl) = removeDucks rs front ++ tl.
Proof.
  intros Htl. revert front. induction rs as [|r rs IH]; intros front; simpl; [done|].
  unfold Container.removeChild. by rewrite removeFirst_app, IH.
Qed.

Lemma scenery_removeFirst_duck r cs :
  scenery (Container.removeFirst (DuckSprite r) cs) = scenery cs.
Proof.
  induction cs as [|y cs IH]; simpl; [done|].
  destruct (decide (y = DuckSprite r)) as [->|Hne]; [done|].
  simpl. by rewrite IH.
Qed.

Lemma scenery_removeDucks rs cs : scenery (removeDucks rs cs) = scenery cs.
Proof.
  revert cs. induction rs as [|r rs IH]; intros cs; simpl; [done|].
  unfold Container.removeChild. by rewrite IH, scenery_removeFirst_duck.
Qed.

Lemma scenery_removeFirst_other c cs :
  isDuckSprite c = false →
  scenery (Container.removeFirst c cs) = Container.removeFirst c (scenery cs).
Proof.
  intros Hc. induction cs as [|y cs IH]; simpl; [done|].
  destruct (decide (y = c)) as [->|Hne].
  - rewrite Hc. simpl. by destruct (decide (c = c)).
  - simpl. destruct (isDuckSprite y); simpl; [done|].
    destruct (decide (y = c)); [done|]. by rewrite IH.
Qed.

Lemma scenery_sprites rs cs : scenery ((DuckSprite <$> rs) ++ cs) = scenery cs.
Proof. induction rs as [|r rs IH]; simpl; done. Qed.

Lemma scenery_id cs : (∀ r, DuckSprite r ∉ cs) → scenery cs = cs.
Proof.
  induction cs as [|y cs IH]; intros Hno; simpl; [done|].
  assert (isDuckSprite y = false) as ->.
  { destruct y; try done. exfalso. apply (Hno r), elem_of_cons. by left. }
  simpl. rewrite IH; [done|]. intros r Hr. apply (Hno r), elem_of_cons. by right.
Qed.

(** [cleanUpDucks] leaves exactly the scenery when every duck sprite belongs
    to a roster member. *)
Lemma removeDucks_scenery rs : ∀ cs,
  NoDup cs → (∀ r, DuckSprite r ∈ cs → r ∈ rs) → removeDucks rs cs = scenery cs.
Proof.
  induction rs as [|r rs IH]; intros cs Hnd Hall; simpl.
  - symmetry. apply scenery_id. intros r Hr. apply Hall in Hr. by apply elem_of_nil in Hr.
  - unfold Container.removeChild. rewrite IH, scenery_removeFirst_duck; [done|..].
    + by apply removeFirst_NoDup.
    + intros r0 Hr0. pose proof (removeFirst_subseteq _ _ _ Hr0) as Hin.
      apply Hall in Hin. apply elem_of_cons in Hin as [->|Hin]; [|done].
      by apply removeFirst_gone in Hr0.
Qed.

Lemma runCallback_display cb e0 s0 s s' :
  wf s → ducks s = ducks s0 → children s = children s0 →
  runCallback cb s = Some s' → displayChange s0 e0 s'.
Proof.
  intros Hwf Hd Hc. destruct cb as [p|p|]; simpl.
  - intros [= <-]. by apply display_same.
  - rewrite (dog_front_ok s Hwf). simpl. intros [= <-].
    apply display_dog_back; [done|]. simpl. by rewrite Hc.
  - intros [= <-]. by apply display_same.
Qed.

(** How each event changes the roster and the display list. *)
Lemma display_step e s s' : wf s → step e s = Some s' → displayChange s e s'.
Proof.
  intros Hwf Hstep. destruct e; cbn [step] in Hstep.
  - injection Hstep as <-. by apply display_same.
  - injection Hstep as <-. apply display_teardown; [by right; left|done..].
  - destruct (addDucksFrom_spec numDucks 0 speed s Hwf)
      as (s'' & Hrun & _ & Hd & _ & Hc & _).
    unfold addDucks in Hstep. rewrite Hrun in Hstep. injection Hstep as <-.
    by eapply display_spawn.
  - injection Hstep as <-. rewrite shotsFired_scene. by apply display_same.
  - injection Hstep as <-.
    destruct (flyAway_fields s Hwf) as (_ & _ & _ & _ & Hd & Hc & _).
    by apply display_same.
  - injection Hstep as <-. apply display_teardown; [by left|done..].
  - unfold duckStepDone in Hstep.
    destruct (heap s !! r) as [d0|] eqn:Hr; simpl in Hstep; [|done].
    destruct (timeline d0) as [|st rest] eqn:Ht; [done|].
    assert (∀ pt, wf (with_heap (<[r := moveDuck pt rest d0]> (heap s)) s)) as Hwf'.
    { intros pt. apply (wf_insert_duck r d0); [done..|].
      intros cb Hcb. unfold duckCallbacks. rewrite Ht.
      by apply elem_of_duckCallbacks_tail. }
    destruct st; try (injection Hstep as <-; by apply display_same);
      by eapply (runCallback_display _ _ s) in Hstep.
  - unfold dogStepDone in Hstep.
    destruct (dogTimeline (dog s)) as [|st rest] eqn:Ht; [done|].
    assert (wf (with_dog (mkDog (downPoint (dog s)) (upPoint (dog s)) rest) s)) as Hwf'.
    { apply wf_with_dog; [done|]. intros cb p Hcb. apply (wf_dog_callbacks _ Hwf).
      unfold dogCallbacks in *. rewrite Ht. simpl in *. apply elem_of_app. by right. }
    destruct st; try (injection Hstep as <-; by apply display_same).
    by eapply (runCallback_display _ _ s) in Hstep.
  - unfold settle in Hstep. destruct (joins s !! j) as [jn|]; simpl in Hstep; [|done].
    destruct (settled jn); [done|]. destruct (forallb _ _); [|done].
    injection Hstep as <-. apply display_teardown; [right; right; by exists j|done..].
  - unfold timerFired in Hstep. destruct (timers s !! i); simpl in Hstep; [|done].
    injection Hstep as <-. by apply display_same.
Qed.

Lemma displayOk_constructor window : displayOk (constructor window).
Proof.
  split.
  - intros r. rewrite children_constructor. split.
    + rewrite !elem_of_cons, elem_of_nil. by intros [?|[?|[?|[?|[?|?]]]]].
    + intros Hr. by apply elem_of_nil in Hr.
  - exists [Tree; Background; DogSprite]. by rewrite children_constructor.
  - left. by rewrite children_constructor.
Qed.

Lemma not_duck_in_scenery r cs :
  scenery cs = sceneryBuilt ∨ scenery cs = sceneryDogBack → DuckSprite r ∉ scenery cs.
Proof.
  intros [->| ->]; unfold sceneryBuilt, sceneryDogBack;
    rewrite !elem_of_cons, elem_of_nil; by intros [?|[?|[?|[?|[?|?]]]]].
Qed.

Lemma displayOk_change s e s' : wf s → displayOk s → displayChange s e s' → displayOk s'.
Proof.
  intros Hwf [Hroster [front Htop] Hscenery] Hch.
  destruct Hch as [Hd Hc|n speed _ Hd Hc|_ Hd Hc|Hd Hc].
  - split.
    + intros r. rewrite Hd, Hc. apply Hroster.
    + exists front. by rewrite Hc.
    + by rewrite Hc.
  - split.
    + intros r. rewrite Hd, Hc, !elem_of_app, list_elem_of_fmap. split.
      * intros [(r0 & [= ->] & Hr0)|Hr].
        -- right. by rewrite elem_of_reverse in Hr0.
        -- left. by apply Hroster.
      * intros [Hr|Hr].
        -- right. by apply Hroster.
        -- left. exists r. split; [done|]. by rewrite elem_of_reverse.
    + exists ((DuckSprite <$> reverse (seq (length (heap s)) n)) ++ front).
      by rewrite Hc, Htop, app_assoc.
    + by rewrite Hc, scenery_sprites.
  - assert (children s' = scenery (children s)) as Hc'.
    { rewrite Hc. apply removeDucks_scenery; [apply Hwf|]. intros r. apply Hroster. }
    split.
    + intros r. rewrite Hd, Hc'. split.
      * intros Hr. by apply not_duck_in_scenery in Hr.
      * intros Hr. by apply elem_of_nil in Hr.
    + rewrite Hc'. destruct Hscenery as [->| ->].
      * by exists [Tree; Background; DogSprite].
      * by exists [DogSprite; Tree; Background].
    + rewrite Hc'. destruct Hscenery as [->| ->]; [by left|by right].
  - split.
    + intros r. rewrite Hd, Hc, <- (Hroster r), elem_of_cons. split.
      * intros [?|Hr]; [done|]. by apply removeFirst_subseteq in Hr.
      * intros Hr. right. by apply removeFirst_other.
    + exists (DogSprite :: Container.removeFirst DogSprite front).
      rewrite Hc, Htop, removeFirst_app; [done|].
      rewrite !elem_of_cons, elem_of_nil. by intros [?|[?|?]].
    + right. rewrite Hc. cbn [scenery List.filter isDuckSprite negb].
      fold (scenery (Container.removeFirst DogSprite (children s))).
      rewrite scenery_removeFirst_other by done.
      by destruct Hscenery as [->| ->].
Qed.

Lemma displayOk_run evs : ∀ s s', wf s → displayOk s → run evs s = Some s' → displayOk s'.
Proof.
  induction evs as [|e evs IH]; intros s s' Hwf Hok; simpl.
  - by intros [= <-].
  - destruct (step e s) as [s1|] eqn:He; simpl; [|done].
    apply IH; [by eapply wf_step|].
    eapply displayOk_change; [done..|]. by apply display_step.
Qed.

Lemma displayOk_four : displayOk Examples.four.
Proof.
  apply (displayOk_run [EvAddDucks 4 5%float] Examples.fresh);
    [exact wf_fresh|apply displayOk_constructor|].
  vm_compute. reflexivity.
Qed.

Lemma session_run : run Session.trace (constructor Examples.native) = Some Session.final.
Proof. vm_compute. reflexivity. Qed.

(** X1.  In every scene that the constructor and any sequence of events
    produce, the roster holds no duck twice, the display list holds no object
    twice, the dog is on the display list, and the duck sprites on the
    display list are exactly the ducks of the roster. *)
Theorem reachable_roster_on_display (window : Window) (evs : list Event) (s : Scene) :
  run evs (constructor window) = Some s →
  NoDup (ducks s) ∧ NoDup (children s) ∧ DogSprite ∈ children s ∧
  ∀ r, DuckSprite r ∈ children s ↔ r ∈ ducks s.
Proof.
  intros Hrun. pose proof (wf_run _ _ _ (wf_constructor window) Hrun) as Hwf.
  pose proof (displayOk_run _ _ _ (wf_constructor window) (displayOk_constructor window) Hrun)
    as Hok.
  split; [apply Hwf|]. split; [apply Hwf|]. split; [apply Hwf|]. apply Hok.
Qed.

Lemma reachable_roster_on_display_witness :
  run Session.trace (constructor Examples.native) = Some Session.final ∧
  NoDup (ducks Session.final) ∧ NoDup (children Session.final) ∧
  DogSprite ∈ children Session.final ∧
  ∀ r, DuckSprite r ∈ children Session.final ↔ r ∈ ducks Session.final.
Proof.
  split; [exact session_run|].
  exact (reachable_roster_on_display Examples.native Session.trace Session.final session_run).
Defined.

Lemma isActive_no_roster s : ducks s = [] → isActive s = dogActive s.
Proof.
  intros Hd. unfold isActive, ducksAlive, ducksActive. rewrite Hd. simpl.
  by rewrite !orb_false_r.
Qed.

(** X3.  In every scene that the constructor and any sequence of events
    produce, [cleanUpDucks()] leaves on the display list exactly the children
    that are not ducks, in the order they had, and an empty roster; after it
    [isActive()] is what [dogActive()] is, whatever the removed ducks are
    still doing. *)
Theorem cleanUpDucks_leaves_scenery (window : Window) (evs : list Event) (s : Scene) :
  run evs (constructor window) = Some s →
  children (cleanUpDucks s) = scenery (children s) ∧
  (∀ r, DuckSprite r ∉ children (cleanUpDucks s)) ∧
  ducks (cleanUpDucks s) = [] ∧
  heap (cleanUpDucks s) = heap s ∧
  isActive (cleanUpDucks s) = dogActive s.
Proof.
  intros Hrun. pose proof (wf_run _ _ _ (wf_constructor window) Hrun) as Hwf.
  pose proof (displayOk_run _ _ _ (wf_constructor window) (displayOk_constructor window) Hrun)
    as [Hroster _ Hscenery].
  assert (children (cleanUpDucks s) = scenery (children s)) as Hc.
  { apply removeDucks_scenery; [apply Hwf|]. intros r. apply Hroster. }
  split; [done|]. split.
  { intros r. rewrite Hc. by apply not_duck_in_scenery. }
  split; [done|]. split; [done|]. by rewrite isActive_no_roster.
Qed.

Lemma cleanUpDucks_leaves_scenery_witness :
  run Session.trace (constructor Examples.native) = Some Session.final ∧
  children (cleanUpDucks Session.final) = scenery (children Session.final).
Proof.
  split; [exact session_run|].
  exact (proj1 (cleanUpDucks_leaves_scenery Examples.native Session.trace Session.final
                  session_run)).
Defined.

(** ** Spawning and tearing down *)

(** X4.  In a well-formed scene [addDucks(n, speed)] returns normally.  It
    creates [n] ducks, red for an even loop counter and black for an odd one,
    each alive at the spawn origin and sent on its random flight; it appends
    them to the roster in creation order and puts their sprites in front of
    the display list in the reverse order, the newest first; and it changes
    nothing else. *)
Theorem addDucks_layout (n : nat) (speed : float) (s : Scene) :
  wf s →
  ∃ s', addDucks n speed s = Some s' ∧
        ducks s' = ducks s ++ seq (length (heap s)) n ∧
        children s' = (DuckSprite <$> reverse (seq (length (heap s)) n)) ++ children s ∧
        heap s'
        = heap s ++ ((λ i, mkDuck (if Nat.even i then red else black) DUCK_POINTS.ORIGIN
                             true [Flight speed] [CallRandomFlight speed]) <$> seq 0 n) ∧
        dog s' = dog s ∧ flashVisible s' = flashVisible s ∧ scale s' = scale s ∧
        deferreds s' = deferreds s ∧ joins s' = joins s ∧ timers s' = timers s.
Proof.
  intros Hwf.
  destruct (addDucksFrom_spec n 0 speed s Hwf) as (s' & Hrun & _ & Hd & Hh & Hrest).
  exists s'. split; [exact Hrun|]. split; [done|].
  destruct Hrest as (Hc & Hrest). split; [done|]. split; [exact Hh|done].
Qed.

Lemma addDucks_layout_witness :
  wf Examples.fresh ∧
  ∃ s', addDucks 3 5%float Examples.fresh = Some s' ∧
        ducks s' = [0; 1; 2] ∧
        children s' = [DuckSprite 2; DuckSprite 1; DuckSprite 0;
                       Tree; Background; DogSprite; FlashScreen; HudLayer] ∧
        colorProfile <$> heap s' = [red; black; red].
Proof.
  split; [exact wf_fresh|].
  destruct (addDucks_layout 3 5%float Examples.fresh wf_fresh)
    as (s' & Hrun & Hd & Hc & Hh & _).
  exists s'. split; [exact Hrun|]. split; [exact Hd|]. split; [exact Hc|].
  rewrite Hh. reflexivity.
Defined.

Lemma removeDucks_roster_app rs1 rs2 cs :
  removeDucks (rs1 ++ rs2) cs = removeDucks rs2 (removeDucks rs1 cs).
Proof. revert cs. induction rs1 as [|r rs1 IH]; intros cs; simpl; [done|]. apply IH. Qed.

Lemma removeDucks_skip rs front tl :
  (∀ r, r ∈ rs → DuckSprite r ∉ front) →
  removeDucks rs (front ++ tl) = front ++ removeDucks rs tl.
Proof.
  revert tl. induction rs as [|r rs IH]; intros tl Hrs; simpl; [done|].
  unfold Container.removeChild. rewrite removeFirst_app_r.
  - apply IH. intros r0 Hr0. apply Hrs, elem_of_cons. by right.
  - apply Hrs, elem_of_cons. by left.
Qed.

Lemma removeDucks_own_sprites rs : ∀ cs,
  NoDup rs → removeDucks rs ((DuckSprite <$> reverse rs) ++ cs) = cs.
Proof.
  induction rs as [|r rs IH]; intros cs Hnd; simpl; [done|].
  apply NoDup_cons in Hnd as [Hr Hnd].
  rewrite reverse_cons, fmap_app, <- app_assoc. unfold Container.removeChild.
  rewrite removeFirst_app_r.
  - simpl. destruct (decide (DuckSprite r = DuckSprite r)); [|done]. by apply IH.
  - rewrite list_elem_of_fmap. intros (r0 & [= <-] & Hr0).
    by rewrite elem_of_reverse in Hr0.
Qed.

(** X5.  In a well-formed scene, [cleanUpDucks()] after [addDucks(n, speed)]
    leaves the display list that [cleanUpDucks()] alone would have left; so
    on a stage with an empty roster, adding ducks and cleaning up restores
    the display list exactly, whatever [n] is. *)
Theorem addDucks_then_cleanUpDucks (n : nat) (speed : float) (s : Scene) :
  wf s →
  ∃ s', addDucks n speed s = Some s' ∧
        ducks (cleanUpDucks s') = [] ∧
        children (cleanUpDucks s') = children (cleanUpDucks s) ∧
        (ducks s = [] → children (cleanUpDucks s') = children s).
Proof.
  intros Hwf.
  destruct (addDucksFrom_spec n 0 speed s Hwf) as (s' & Hrun & _ & Hd & _ & Hc & _).
  exists s'. split; [exact Hrun|]. split; [done|].
  assert (children (cleanUpDucks s') = children (cleanUpDucks s)) as Heq.
  { cbn [cleanUpDucks children with_ducks with_children].
    rewrite Hd, Hc, removeDucks_roster_app, removeDucks_skip.
    - apply removeDucks_own_sprites, NoDup_seq.
    - intros r Hr. rewrite list_elem_of_fmap. intros (r0 & [= <-] & Hr0).
      rewrite elem_of_reverse, elem_of_seq in Hr0.
      apply (wf_roster_alloc _ Hwf) in Hr. lia. }
  split; [done|]. intros Hempty. rewrite Heq.
  cbn [cleanUpDucks children with_ducks with_children]. by rewrite Hempty.
Qed.

Lemma addDucks_then_cleanUpDucks_witness :
  wf Examples.fresh ∧
  ∃ s', addDucks 4 5%float Examples.fresh = Some s' ∧
        children (cleanUpDucks s') = children Examples.fresh.
Proof.
  split; [exact wf_fresh|].
  destruct (addDucks_then_cleanUpDucks 4 5%float Examples.fresh wf_fresh)
    as (s' & Hrun & _ & _ & Hback).
  exists s'. split; [exact Hrun|]. apply Hback. reflexivity.
Defined.

(** ** Shots *)

Lemma filter_split {A} (a b a' : A → bool) (l : list A) :
  (∀ x, x ∈ l → a' x = a x && negb (b x)) →
  (∀ x, x ∈ l → b x = true → a x = true) →
  length (List.filter a' l) + length (List.filter b l) = length (List.filter a l).
Proof.
  induction l as [|x l IH]; intros Ha' Hb; simpl; [done|].
  assert (x ∈ x :: l) as Hx by (apply elem_of_cons; by left).
  assert (length (List.filter a' l) + length (List.filter b l) = length (List.filter a l))
    as Hrec.
  { apply IH.
    - intros y Hy. apply Ha', elem_of_cons. by right.
    - intros y Hy. apply Hb, elem_of_cons. by right. }
  rewrite (Ha' x Hx). specialize (Hb x Hx).
  destruct (a x), (b x); simpl; lia.
Qed.

Lemma shotsFired_lookup P s r :
  wf s → r ∈ ducks s →
  heap (shotsFired P s).1.1 !! r
  = (if hitAt (heap s) (scaleClick (scale s) P) r then downed <$> heap s !! r
     else heap s !! r).
Proof.
  intros Hwf Hr. rewrite shotsFired_scene. cbn [heap with_heap].
  destruct (shotsFiredLoop_spec (scaleClick (scale s) P) (ducks s) (heap s) 0
              (wf_roster_nodup _ Hwf)) as (_ & _ & Hin & Hout).
  destruct (hitAt (heap s) (scaleClick (scale s) P) r) eqn:Hhit.
  - by apply Hin.
  - apply Hout. intros [_ ?]. congruence.
Qed.

(** X6.  In a well-formed scene [shotsFired] removes nothing: the roster and
    the display list are as before, no duck object is created or lost, and
    the dog has not been called yet.  The number of roster members that are
    alive has dropped by exactly the returned count, which therefore never
    exceeds the number of roster members that were alive. *)
Theorem shotsFired_bookkeeping (P : Point) (s : Scene) :
  wf s →
  let after := (shotsFired P s).1.1 in
  ducks after = ducks s ∧ children after = children s ∧
  length (heap after) = length (heap s) ∧ dog after = dog s ∧
  deferreds after = deferreds s ∧ joins after = joins s ∧
  aliveCount after + (shotsFired P s).2 = aliveCount s ∧
  (shotsFired P s).2 ≤ aliveCount s.
Proof.
  intros Hwf after.
  assert (aliveCount after + (shotsFired P s).2 = aliveCount s) as Hcount.
  { rewrite shotsFired_result.
    destruct (shotsFiredLoop_spec (scaleClick (scale s) P) (ducks s) (heap s) 0
                (wf_roster_nodup _ Hwf)) as (-> & _).
    unfold aliveCount, fleeing, after. rewrite shotsFired_scene at 2.
    cbn [ducks with_heap with_timers with_flashVisible]. simpl.
    apply filter_split.
    - intros r Hr. unfold aliveAt at 1. rewrite (shotsFired_lookup P s r Hwf Hr).
      unfold hitAt, aliveAt, isHit.
      destruct (heap s !! r) as [d|]; [|done]. simpl.
      destruct (alive d) eqn:Ha; simpl; [|done].
      by destruct (PrimFloat.ltb _ _).
    - intros r Hr. unfold hitAt, aliveAt, isHit.
      destruct (heap s !! r) as [d|]; [|done]. by intros [? _]%andb_true_iff. }
  unfold after in Hcount |- *. rewrite shotsFired_scene in Hcount |- *.
  cbn [ducks children heap dog deferreds joins with_heap with_timers with_flashVisible].
  destruct (shotsFiredLoop_spec (scaleClick (scale s) P) (ducks s) (heap s) 0
              (wf_roster_nodup _ Hwf)) as (_ & Hlen & _).
  split; [done|]. split; [done|]. split; [done|]. split; [done|].
  split; [done|]. split; [done|]. split; [exact Hcount|]. lia.
Qed.

Lemma shotsFired_bookkeeping_witness :
  wf Examples.four ∧
  aliveCount (shotsFired DUCK_POINTS.ORIGIN Examples.four).1.1
  + (shotsFired DUCK_POINTS.ORIGIN Examples.four).2 = aliveCount Examples.four.
Proof.
  split; [exact wf_four|].
  exact (proj1 (proj2 (proj2 (proj2 (proj2 (proj2 (proj2
    (shotsFired_bookkeeping DUCK_POINTS.ORIGIN Examples.four wf_four)))))))).
Defined.

(** X7.  In a well-formed scene, a second shot at the same place right after
    a first one hits nothing: every duck the first shot counted is dead, and
    no other duck is in range. *)
Theorem shotsFired_again_hits_nothing (P Q : Point) (s : Scene) :
  wf s → scaleClick (scale s) Q = scaleClick (scale s) P →
  (shotsFired Q (shotsFired P s).1.1).2 = 0.
Proof.
  intros Hwf Hsame. pose proof (wf_shotsFired P s Hwf) as Hwf1.
  rewrite shotsFired_result.
  destruct (shotsFiredLoop_spec (scaleClick (scale (shotsFired P s).1.1) Q)
              (ducks (shotsFired P s).1.1) (heap (shotsFired P s).1.1) 0
              (wf_roster_nodup _ Hwf1)) as (-> & _).
  assert (scale (shotsFired P s).1.1 = scale s) as -> by (by rewrite shotsFired_scene).
  assert (ducks (shotsFired P s).1.1 = ducks s) as -> by (by rewrite shotsFired_scene).
  rewrite Hsame. simpl.
  assert (∀ l, (∀ r, r ∈ l → r ∈ ducks s) →
               List.filter (hitAt (heap (shotsFired P s).1.1) (scaleClick (scale s) P)) l = [])
    as Hnone.
  { induction l as [|r l IH]; intros Hl; simpl; [done|].
    assert (r ∈ ducks s) as Hr by (apply Hl, elem_of_cons; by left).
    assert (hitAt (heap (shotsFired P s).1.1) (scaleClick (scale s) P) r = false) as ->.
    { unfold hitAt at 1. rewrite (shotsFired_lookup P s r Hwf Hr).
      destruct (hitAt (heap s) (scaleClick (scale s) P) r) eqn:Hhit.
      - by destruct (heap s !! r).
      - exact Hhit. }
    apply IH. intros r0 Hr0. apply Hl, elem_of_cons. by right. }
  by rewrite Hnone.
Qed.

Lemma shotsFired_again_hits_nothing_witness :
  wf Examples.four ∧
  scaleClick (scale Examples.four) DUCK_POINTS.ORIGIN
  = scaleClick (scale Examples.four) DUCK_POINTS.ORIGIN ∧
  (shotsFired DUCK_POINTS.ORIGIN Examples.four).2 = 4 ∧
  (shotsFired DUCK_POINTS.ORIGIN (shotsFired DUCK_POINTS.ORIGIN Examples.four).1.1).2 = 0.
Proof.
  split; [exact wf_four|]. split; [reflexivity|]. split; [vm_compute; reflexivity|].
  exact (shotsFired_again_hits_nothing DUCK_POINTS.ORIGIN DUCK_POINTS.ORIGIN Examples.four
           wf_four eq_refl).
Defined.

(** ** The flash *)

Lemma runCallback_flash cb s s' :
  runCallback cb s = Some s' → flashVisible s' = flashVisible s ∧ timers s' = timers s.
Proof.
  destruct cb; simpl; try (by intros [= <-]).
  destruct (Container.setChildIndex _ _ _); simpl; [|done]. by intros [= <-].
Qed.

Lemma flash_step e s s' :
  wf s → step e s = Some s' →
  match e with
  | EvShotsFired _ => flashVisible s' = true ∧ timers s' = timers s ++ [FLASH_MS]
  | EvTimer i =>
      flashVisible s' = false ∧ timers s' = delete i (timers s) ∧ i < length (timers s)
  | _ => flashVisible s' = flashVisible s ∧ timers s' = timers s
  end.
Proof.
  intros Hwf Hstep. destruct e; cbn [step] in Hstep.
  - by injection Hstep as <-.
  - by injection Hstep as <-.
  - destruct (addDucksFrom_spec numDucks 0 speed s Hwf)
      as (s'' & Hrun & _ & _ & _ & _ & _ & Hf & _ & _ & _ & Ht).
    unfold addDucks in Hstep. rewrite Hrun in Hstep. by injection Hstep as <-.
  - injection Hstep as <-. by rewrite shotsFired_scene.
  - injection Hstep as <-.
    by destruct (flyAway_fields s Hwf) as (_ & _ & _ & _ & _ & _ & Hf & _ & Ht & _).
  - by injection Hstep as <-.
  - unfold duckStepDone in Hstep.
    destruct (heap s !! r) as [d0|]; simpl in Hstep; [|done].
    destruct (timeline d0) as [|[]]; try done; try (by injection Hstep as <-);
      by apply runCallback_flash in Hstep.
  - unfold dogStepDone in Hstep.
    destruct (dogTimeline (dog s)) as [|[]]; try done; try (by injection Hstep as <-).
    by apply runCallback_flash in Hstep.
  - unfold settle in Hstep. destruct (joins s !! j) as [jn|]; simpl in Hstep; [|done].
    destruct (settled jn); [done|]. destruct (forallb _ _); [|done].
    by injection Hstep as <-.
  - unfold timerFired in Hstep. destruct (timers s !! i) eqn:Hi; simpl in Hstep; [|done].
    injection Hstep as <-. split; [done|]. split; [done|]. by eapply lookup_lt_Some.
Qed.

Lemma flash_has_timer_run evs : ∀ s s',
  wf s → (flashVisible s = true → timers s ≠ []) → run evs s = Some s' →
  flashVisible s' = true → timers s' ≠ [].
Proof.
  induction evs as [|e evs IH]; intros s s' Hwf Hinv; simpl.
  - by intros [= <-].
  - destruct (step e s) as [s1|] eqn:He; simpl; [|done].
    apply IH; [by eapply wf_step|].
    pose proof (flash_step e s s1 Hwf He) as Hf.
    destruct e; try (destruct Hf as [-> ->]; exact Hinv).
    + destruct Hf as [_ ->]. intros _ Hnil. by apply app_eq_nil in Hnil as [_ ?].
    + destruct Hf as [-> _]. done.
Qed.

(** X8.  In every scene that the constructor and any sequence of events
    produce, a visible flash screen has a timer pending that will hide it:
    the flash cannot stay on.  The converse fails, because the timers of
    overlapping shots are independent: when two shots are fired and the
    first shot's timer fires, the flash is hidden although the second shot's
    timer is still pending. *)
Theorem flash_never_stays_on (window : Window) (evs : list Event) (s : Scene) :
  run evs (constructor window) = Some s →
  (flashVisible s = true → timers s ≠ []) ∧
  ∀ P Q, ∃ s', run [EvShotsFired P; EvShotsFired Q; EvTimer (length (timers s))] s = Some s' ∧
               flashVisible s' = false ∧ timers s' = timers s ++ [FLASH_MS].
Proof.
  intros Hrun. split.
  - apply (flash_has_timer_run evs (constructor window)); [apply wf_constructor|done|done].
  - intros P Q. eexists. cbn [run step mbind option_bind].
    unfold timerFired. rewrite !shotsFired_scene.
    cbn [timers with_heap with_timers with_flashVisible flashVisible].
    rewrite <- app_assoc. rewrite (lookup_app_r (timers s)) by done.
    rewrite Nat.sub_diag. cbn [lookup list_lookup app mbind option_bind].
    split; [reflexivity|]. split; [done|].
    cbn [timers with_heap with_timers with_flashVisible].
    by rewrite (delete_middle (timers s)).
Qed.

Lemma flash_never_stays_on_witness :
  run Session.trace (constructor Examples.native) = Some Session.final ∧
  flashVisible Session.final = true ∧ timers Session.final ≠ [].
Proof.
  split; [exact session_run|]. split; [vm_compute; reflexivity|].
  apply (proj1 (flash_never_stays_on Examples.native Session.trace Session.final session_run)).
  vm_compute. reflexivity.
Defined.

(** ** What removes a duck from the roster, and what can throw *)

(** X9.  In a well-formed scene the roster changes in two ways only:
    [addDucks] appends the ducks it creates, and the teardown, run by
    [cleanUpDucks], by [preLevelAnimation] and by the continuation of
    [flyAway], empties it.  A shot, the death or the exit of a duck, a
    callback or [flyAway] itself never takes a duck off the roster. *)
Theorem roster_changes_only_by_spawn_and_teardown (e : Event) (s s' : Scene) :
  wf s → step e s = Some s' →
  match e with
  | EvCleanUpDucks | EvPreLevelAnimation | EvSettle _ => ducks s' = []
  | EvAddDucks n _ => ducks s' = ducks s ++ seq (length (heap s)) n
  | _ => ducks s' = ducks s
  end.
Proof.
  intros Hwf Hstep. destruct e; cbn [step] in Hstep.
  - by injection Hstep as <-.
  - by injection Hstep as <-.
  - destruct (addDucksFrom_spec numDucks 0 speed s Hwf) as (s'' & Hrun & _ & Hd & _).
    unfold addDucks in Hstep. rewrite Hrun in Hstep. by injection Hstep as <-.
  - injection Hstep as <-. by rewrite shotsFired_scene.
  - injection Hstep as <-.
    by destruct (flyAway_fields s Hwf) as (_ & _ & _ & _ & Hd & _).
  - by injection Hstep as <-.
  - unfold duckStepDone in Hstep.
    destruct (heap s !! r) as [d0|]; simpl in Hstep; [|done].
    destruct (timeline d0) as [|[]]; try done; try (by injection Hstep as <-);
      by apply runCallback_frame in Hstep as (_ & _ & Hd & _).
  - unfold dogStepDone in Hstep.
    destruct (dogTimeline (dog s)) as [|[]]; try done; try (by injection Hstep as <-).
    by apply runCallback_frame in Hstep as (_ & _ & Hd & _).
  - unfold settle in Hstep. destruct (joins s !! j) as [jn|]; simpl in Hstep; [|done].
    destruct (settled jn); [done|]. destruct (forallb _ _); [|done].
    by injection Hstep as <-.
  - unfold timerFired in Hstep. destruct (timers s !! i); simpl in Hstep; [|done].
    by injection Hstep as <-.
Qed.

Lemma roster_changes_only_by_spawn_and_teardown_witness :
  wf Examples.four ∧
  step (EvShotsFired DUCK_POINTS.ORIGIN) Examples.four
  = Some (shotsFired DUCK_POINTS.ORIGIN Examples.four).1.1 ∧
  ducks (shotsFired DUCK_POINTS.ORIGIN Examples.four).1.1 = ducks Examples.four.
Proof.
  split; [exact wf_four|]. split; [reflexivity|].
  exact (roster_changes_only_by_spawn_and_teardown (EvShotsFired DUCK_POINTS.ORIGIN)
           Examples.four _ wf_four eq_refl).
Defined.

Lemma duckStep_total r dest s :
  wf s → duckActive s r = true → is_Some (duckStepDone r dest s).
Proof.
  intros Hwf Hact. unfold duckActive, Duck.isActive in Hact. unfold duckStepDone.
  destruct (heap s !! r) as [d|] eqn:Hr; [|done]. simpl.
  destruct (timeline d) as [|st rest] eqn:Ht; [done|].
  assert (∀ pt, wf (with_heap (<[r := moveDuck pt rest d]> (heap s)) s)) as Hwf'.
  { intros pt. apply (wf_insert_duck r d); [done..|].
    intros cb Hcb. unfold duckCallbacks. rewrite Ht.
    by apply elem_of_duckCallbacks_tail. }
  destruct st; try done.
  - destruct (runCallback_total onComplete _ (Hwf' point)) as [s' Hs']. by rewrite Hs'.
  - destruct (runCallback_total cb _ (Hwf' (position d))) as [s' Hs']. by rewrite Hs'.
Qed.

(** X10.  In every scene that the constructor and any sequence of events
    produce, nothing throws: [addDucks] returns normally for every count,
    every closure of the stage runs to its end, in particular the
    [setChildIndex(dog, 0)] of the intro's [onComplete] because the dog is
    always a child of the stage, and the step in progress of an animating
    duck or dog can always complete. *)
Theorem reachable_never_throws (window : Window) (evs : list Event) (s : Scene) :
  run evs (constructor window) = Some s →
  (∀ n speed, is_Some (addDucks n speed s)) ∧
  (∀ cb, is_Some (runCallback cb s)) ∧
  (∀ r dest, duckActive s r = true → is_Some (duckStepDone r dest s)) ∧
  (dogActive s = true → is_Some (dogStepDone s)).
Proof.
  intros Hrun. pose proof (wf_run _ _ _ (wf_constructor window) Hrun) as Hwf.
  split; [|split; [|split]].
  - intros n speed. destruct (addDucksFrom_spec n 0 speed s Hwf) as (s' & Hs' & _).
    unfold addDucks. by rewrite Hs'.
  - intros cb. destruct (runCallback_total cb s Hwf) as [s' Hs']. by rewrite Hs'.
  - intros r dest. by apply duckStep_total.
  - intros Hact. destruct (dogStep_total s Hwf) as [s' Hs'].
    + intros Hnil. unfold dogActive, Dog.isActive in Hact. by rewrite Hnil in Hact.
    + cbn [step] in Hs'. by rewrite Hs'.
Qed.

Lemma reachable_never_throws_witness :
  run Session.trace (constructor Examples.native) = Some Session.final ∧
  is_Some (runCallback (FindComplete 0) Session.final).
Proof.
  split; [exact session_run|].
  exact (proj1 (proj2 (reachable_never_throws Examples.native Session.trace Session.final
                         session_run)) (FindComplete 0)).
Defined.

(** ** The flee sequence runs to its end, unless it is started twice *)

Lemma run_app evs1 : ∀ evs2 s, run (evs1 ++ evs2) s = run evs1 s ≫= run evs2.
Proof.
  induction evs1 as [|e evs1 IH]; intros evs2 s; simpl; [done|].
  destruct (step e s); simpl; [apply IH|done].
Qed.

(** The ducks of [fl] arrive one after the other; the deferred of the [i]-th
    is [base + i]. *)
Lemma arrivals dest fl : ∀ base s,
  NoDup fl → (∀ i r, fl !! i = Some r → fleePending r (base + i) s) →
  base + length fl ≤ length (deferreds s) →
  ∃ s', run ((λ r, EvDuckStep r dest) <$> fl) s = Some s' ∧
        joins s' = joins s ∧ ducks s' = ducks s ∧ children s' = children s ∧
        length (deferreds s') = length (deferreds s) ∧
        (∀ p, p < base ∨ base + length fl ≤ p → resolveCalls s' p = resolveCalls s p) ∧
        (∀ i, i < length fl → resolveCalls s' (base + i) = S (resolveCalls s (base + i))).
Proof.
  induction fl as [|r fl IH]; intros base s Hnd Hpend Hlen.
  - exists s. simpl. repeat (split; [done|]). intros i Hi. simpl in Hi. lia.
  - apply NoDup_cons in Hnd as [Hr Hnd]. simpl in Hlen.
    destruct (Hpend 0 r eq_refl) as (d & Hd & Ht). rewrite Nat.add_0_r in Ht.
    set (s1 := resolve base (with_heap (<[r := moveDuck FLY_AWAY_POINT [] d]> (heap s)) s)).
    assert (step (EvDuckStep r dest) s = Some s1) as Hstep
      by apply (duckStepDone_arrival r dest base d s Hd Ht).
    destruct (IH (S base) s1 Hnd) as (s' & Hrun & Hj & Hdk & Hc & Hl & Hout & Hin).
    + intros i r' Hi. destruct (Hpend (S i) r' Hi) as (d' & Hd' & Ht').
      exists d'. split; [|by replace (S base + i) with (base + S i) by lia].
      cbn [s1 heap resolve with_deferreds with_heap].
      rewrite list_lookup_insert_ne; [done|].
      intros ->. by apply list_elem_of_lookup_2 in Hi.
    + unfold s1. rewrite length_resolve. simpl. lia.
    + exists s'. split; [cbn [fmap list_fmap run]; by rewrite Hstep|].
      split; [by rewrite Hj|]. split; [by rewrite Hdk|]. split; [by rewrite Hc|].
      split; [by rewrite Hl; unfold s1; rewrite length_resolve|]. split.
      * intros p Hp. simpl in Hp. rewrite Hout by lia.
        unfold s1. by rewrite resolveCalls_resolve_ne by lia.
      * intros [|i] Hi; simpl in Hi.
        -- rewrite Nat.add_0_r, Hout by lia. unfold s1.
           by rewrite resolveCalls_resolve_eq by (simpl; lia).
        -- replace (base + S i) with (S base + i) by lia. rewrite Hin by lia.
           unfold s1. by rewrite resolveCalls_resolve_ne by lia.
Qed.

(** X11.  In a well-formed scene, once every duck that [flyAway()] sent away
    has completed its flight, the continuation of the chain can run, and
    when it has run the returned promise is resolved, exactly once, the
    roster is empty and every former roster member is off the display
    list. *)
Theorem flyAway_resolves_when_all_arrive (s : Scene) (dest : Point) :
  wf s →
  ∃ s', run (fleeCompletes s dest) (flyAway s).1 = Some s' ∧
        resolveCalls s' (flyAway s).2 = 1 ∧ isResolved s' (flyAway s).2 = true ∧
        ducks s' = [] ∧ children s' = removeDucks (ducks s) (children s) ∧
        ∀ r, r ∈ ducks s → DuckSprite r ∉ children s'.
Proof.
  intros Hwf.
  destruct (flyAway_fields s Hwf)
    as (Hp & Hds & Hjs & _ & Hducks & Hch & _ & _ & _ & _ & Hin & _).
  set (s1 := (flyAway s).1) in *. set (p := (flyAway s).2) in *.
  set (n := length (deferreds s)) in *.
  set (fl := fleeing (heap s) (ducks s)) in *.
  assert (NoDup fl) as Hnd.
  { apply NoDup_ListNoDup, List.NoDup_filter, NoDup_ListNoDup, Hwf. }
  assert (length (deferreds s1) = n + S (length fl)) as Hlen1
    by (by rewrite Hds, length_app, length_replicate).
  assert (∀ q, n ≤ q → q < n + S (length fl) → resolveCalls s1 q = 0) as Hzero.
  { intros q Hq1 Hq2. unfold resolveCalls. rewrite Hds. by apply lookup_replicate_zero. }
  destruct (arrivals dest fl n s1 Hnd) as (s2 & Hrun & Hj & Hdk & Hc & Hl & Hout & Hres).
  { intros i r Hi. pose proof (list_elem_of_lookup_2 _ _ _ Hi) as Hr.
    apply elem_of_fleeing in Hr as [_ Hal]. unfold aliveAt in Hal.
    destruct (heap s !! r) as [d|] eqn:Hd; [|done].
    exists (fled (n + i) d). split; [|done]. by rewrite (Hin i r Hi), Hd. }
  { lia. }
  set (j := length (joins s)).
  assert (joins s2 !! j = Some (mkJoin (seq n (length fl)) (n + length fl) false)) as Hjn.
  { by rewrite Hj, Hjs, lookup_app_r, Nat.sub_diag. }
  assert (forallb (isResolved s2) (seq n (length fl)) = true) as Hall.
  { apply forallb_forall. intros q Hq%list_elem_of_In%elem_of_seq.
    apply isResolved_one. replace q with (n + (q - n)) by lia.
    rewrite Hres by lia. rewrite Hzero by lia. done. }
  eexists. split.
  { unfold fleeCompletes. rewrite run_app. fold fl. rewrite Hrun.
    cbn [mbind option_bind run step]. unfold settle. fold j. rewrite Hjn.
    cbn [mbind option_bind settled awaited result]. rewrite Hall. reflexivity. }
  assert (resolveCalls
            (resolve (n + length fl)
               (cleanUpDucks
                  (with_joins (<[j := mkJoin (seq n (length fl)) (n + length fl) true]>
                                 (joins s2)) s2))) p = 1) as Hone.
  { rewrite Hp. rewrite resolveCalls_resolve_eq by (simpl; lia).
    change (resolveCalls (cleanUpDucks _) (n + length fl))
      with (resolveCalls s2 (n + length fl)).
    rewrite Hout by lia. by rewrite Hzero by lia. }
  split; [exact Hone|]. split; [by apply isResolved_one|]. split; [done|].
  cbn [resolve cleanUpDucks children ducks with_deferreds with_ducks with_children with_joins].
  rewrite Hdk, Hc, Hducks, Hch. split; [done|].
  intros r Hr. apply removeDucks_gone; [apply Hwf|done].
Qed.

Lemma flyAway_resolves_when_all_arrive_witness :
  wf Examples.four ∧
  ∃ s', run (fleeCompletes Examples.four DUCK_POINTS.ORIGIN) (flyAway Examples.four).1
        = Some s' ∧ isResolved s' (flyAway Examples.four).2 = true ∧ ducks s' = [].
Proof.
  split; [exact wf_four|].
  destruct (flyAway_resolves_when_all_arrive Examples.four DUCK_POINTS.ORIGIN wf_four)
    as (s' & Hrun & _ & Hres & Hd & _).
  exists s'. split; [exact Hrun|]. split; [exact Hres|exact Hd].
Defined.


Lemma resolveCalls_mono_run evs : ∀ s s' p,
  wf s → p < length (deferreds s) → run evs s = Some s' →
  p < length (deferreds s') ∧ resolveCalls s p ≤ resolveCalls s' p.
Proof.
  induction evs as [|e evs IH]; intros s s' p Hwf Hlt; simpl.
  - by intros [= <-].
  - destruct (step e s) as [s1|] eqn:He; simpl; [|done]. intros Hrun.
    destruct (resolveCalls_step e s s1 p Hwf Hlt He) as [Hlen Hcalls].
    destruct (IH s1 s' p (wf_step _ _ _ Hwf He) ltac:(lia) Hrun) as [Hlt' Hle].
    split; [done|]. destruct Hcalls as [Heq|[_ Heq]]; lia.
Qed.

Lemma holds_run evs : ∀ s s' p x,
  wf s → p < length (deferreds s) → run evs s = Some s' → holds s' p x → holds s p x.
Proof.
  induction evs as [|e evs IH]; intros s s' p x Hwf Hlt; simpl.
  - by intros [= <-].
  - destruct (step e s) as [s1|] eqn:He; simpl; [|done]. intros Hrun Hx.
    destruct (resolveCalls_step e s s1 p Hwf Hlt He) as [Hlen _].
    apply (holds_step e s s1 p x Hwf Hlt He).
    apply (IH s1 s' p x (wf_step _ _ _ Hwf He)); [lia|done..].
Qed.

Lemma resolveCalls_unresolved s p : isResolved s p = false → resolveCalls s p = 0.
Proof. unfold isResolved. by destruct (resolveCalls s p). Qed.

(** X12.  Take a well-formed scene, call [flyAway()], let any events follow,
    and call [flyAway()] again while a duck that the first call sent away is
    still on the roster, alive, and has not completed its flight, so that the
    deferred the first call created for it is unresolved.  Then the promise
    that the first call returned stays pending for ever: the second call
    clears the timeline that held the resolver of that deferred, and no
    sequence of events resolves the first promise. *)
Theorem flyAway_again_while_fleeing (s : Scene) (i r : nat)
    (evs0 : list Event) (mid : Scene) (evs : list Event) (s' : Scene) :
  wf s →
  fleeing (heap s) (ducks s) !! i = Some r →
  run evs0 (flyAway s).1 = Some mid →
  r ∈ ducks mid → aliveAt (heap mid) r = true →
  isResolved mid (length (deferreds s) + i) = false →
  run evs (flyAway mid).1 = Some s' →
  isResolved s' (flyAway s).2 = false.
Proof.
  intros Hwf Hi Hrun0 Hroster Halive Hpending Hrun.
  pose proof (wf_flyAway s Hwf) as Hwf1.
  pose proof (wf_run _ _ _ Hwf1 Hrun0) as Hwfm.
  pose proof (wf_flyAway _ Hwfm) as Hwf3.
  destruct (flyAway_fields s Hwf) as (Hp & Hds & Hjs & _).
  destruct (flyAway_fields _ Hwfm)
    as (_ & Hds3 & _ & _ & _ & _ & _ & _ & _ & _ & Hin3 & _).
  set (s1 := (flyAway s).1) in *. set (p := (flyAway s).2) in *.
  set (s3 := (flyAway mid).1) in *.
  set (n := length (deferreds s)) in *.
  set (k := length (fleeing (heap s) (ducks s))) in *.
  set (j := length (joins s)) in *.
  pose proof (lookup_lt_Some _ _ _ Hi) as Hik. fold k in Hik.
  assert (length (deferreds s1) = n + S k) as Hlen1
    by (by rewrite Hds, length_app, length_replicate).
  assert (∀ q, n ≤ q → q < n + S k → resolveCalls s1 q = 0) as Hzero1.
  { intros q Hq1 Hq2. unfold resolveCalls. rewrite Hds. by apply lookup_replicate_zero. }
  assert (n + i < length (deferreds s1)) as Hq1 by lia.
  destruct (resolveCalls_mono_run evs0 s1 mid (n + i) Hwf1 Hq1 Hrun0) as [Hqm _].
  assert (step EvFlyAway mid = Some s3) as Hstep by done.
  assert (n + i < length (deferreds s3)) as Hq3 by (rewrite Hds3, length_app; lia).
  assert (resolveCalls s3 (n + i) = 0) as Hzero3.
  { unfold resolveCalls. rewrite Hds3, lookup_app_l by done.
    by apply resolveCalls_unresolved. }
  (* the deferred of duck [r] has lost its only holder *)
  assert (∀ x, ¬ holds s3 (n + i) x) as Hquiet.
  { intros x Hx.
    pose proof (holds_step EvFlyAway mid s3 (n + i) x Hwfm Hqm Hstep Hx) as Hxm.
    pose proof (holds_run evs0 s1 mid (n + i) x Hwf1 Hq1 Hrun0 Hxm) as Hx1.
    destruct (flyAway_holders s (n + i) x Hwf ltac:(lia) Hx1)
      as [(i' & r' & Hi' & Hni & ->)|[Hnk _]]; [|fold n k in Hnk; lia].
    fold n in Hni. assert (i' = i) as -> by lia.
    rewrite Hi in Hi'. injection Hi' as <-.
    assert (r ∈ fleeing (heap mid) (ducks mid)) as Hfl by (by apply elem_of_fleeing).
    apply list_elem_of_lookup in Hfl as [i1 Hi1].
    inversion Hx as [r0 d' cb Hr Hcb Htarget| |]; subst.
    rewrite (Hin3 i1 r Hi1) in Hr.
    destruct (heap mid !! r) as [dm|]; [|done]. injection Hr as <-.
    apply list_elem_of_singleton in Hcb as ->. injection Htarget as Heq. lia. }
  assert (resolveCalls s' (n + i) = 0) as Hfinal.
  { by rewrite (quiet_run evs s3 s' (n + i) Hwf3 Hq3 Hquiet Hrun). }
  destruct (isResolved s' p) eqn:Hres; [exfalso|done].
  assert (run (evs0 ++ EvFlyAway :: evs) s1 = Some s') as Hfull.
  { rewrite run_app, Hrun0. cbn [mbind option_bind run step]. exact Hrun. }
  destruct (join_completion j p (evs0 ++ EvFlyAway :: evs) s1 s' Hwf1
              ltac:(lia) (Hzero1 p ltac:(lia) ltac:(lia)))
    as (evs1 & evs2 & sa & sb & _ & Hrun1 & _ & Hsettle & _ & Hrun2); [|done|done|].
  { intros x Hx. destruct (flyAway_holders s p x Hwf ltac:(lia) Hx)
      as [(i' & r' & Hi' & Hpi & _)|[_ ->]]; [|done].
    apply lookup_lt_Some in Hi'. fold k in Hi'. lia. }
  pose proof (wf_run _ _ _ Hwf1 Hrun1) as Hwfa.
  destruct (resolveCalls_mono_run evs1 s1 sa (n + i) Hwf1 Hq1 Hrun1) as [Hqa _].
  assert (run (EvSettle j :: evs2) sa = Some s') as Hrest.
  { cbn [run]. rewrite Hsettle. exact Hrun2. }
  destruct (resolveCalls_mono_run _ sa s' (n + i) Hwfa Hqa Hrest) as [_ Hle].
  cbn [step] in Hsettle. unfold settle in Hsettle.
  destruct (joins sa !! j) as [jn|] eqn:Hj; simpl in Hsettle; [|done].
  destruct (settled jn); [done|].
  destruct (forallb (isResolved sa) (awaited jn)) eqn:Hall; [|done].
  assert (joins s1 !! j = Some (mkJoin (seq n k) (n + k) false)) as Hj1.
  { by rewrite Hjs, lookup_app_r, Nat.sub_diag. }
  destruct (joins_run evs1 s1 sa j _ jn Hwf1 Hrun1 Hj1 Hj) as [Haw _]. simpl in Haw.
  assert (isResolved sa (n + i) = true) as Hn.
  { rewrite forallb_forall in Hall. apply Hall. rewrite Haw.
    apply list_elem_of_In, elem_of_seq. lia. }
  unfold isResolved in Hn. destruct (resolveCalls sa (n + i)); [done|lia].
Qed.

Lemma flyAway_again_while_fleeing_witness :
  wf Examples.four ∧
  fleeing (heap Examples.four) (ducks Examples.four) !! 0 = Some 0 ∧
  run Again.early (flyAway Examples.four).1 = Some Again.mid ∧
  0 ∈ ducks Again.mid ∧ aliveAt (heap Again.mid) 0 = true ∧
  isResolved Again.mid (length (deferreds Examples.four) + 0) = false ∧
  run Again.late (flyAway Again.mid).1 = Some Again.final ∧
  isResolved Again.final (flyAway Examples.four).2 = false.
Proof.
  assert (0 ∈ ducks Again.mid) as Hr by (vm_compute; apply list_elem_of_here).
  split; [exact wf_four|]. split; [vm_compute; reflexivity|].
  split; [vm_compute; reflexivity|]. split; [exact Hr|].
  split; [vm_compute; reflexivity|]. split; [vm_compute; reflexivity|].
  split; [vm_compute; reflexivity|].
  apply (flyAway_again_while_fleeing Examples.four 0 0 Again.early Again.mid
           Again.late Again.final wf_four).
  - vm_compute. reflexivity.
  - vm_compute. reflexivity.
  - exact Hr.
  - vm_compute. reflexivity.
  - vm_compute. reflexivity.
  - vm_compute. reflexivity.
Defined.
